(** * Moettoenen state preparation: a shallow embedding of
    [pennylane/templates/state_preparations/mottonen.py]

    Python integers are modelled as [Z], Python lists and one-dimensional
    arrays as [list], strings as [string], and floating-point numbers as the
    real numbers [R] (rounding is not modelled).  Calls that can raise are
    modelled in an error monad; the operations a template queues are modelled
    as a tape that is threaded through the calls.  The effect of the queued
    operations on a register is modelled by the matrices of the three gates,
    acting on the amplitudes of the basis states. *)

From Equations Require Import Equations.
From Stdlib Require Import ZArith List String Ascii Bool Lia.
From Stdlib Require Import Reals Lra FunctionalExtensionality.
Import ListNotations.

Local Open Scope Z_scope.

(** ** Python helpers shared by all functions *)

(** Exceptions the modelled code can raise.  [check_shape] and the
    normalisation check both raise [ValueError]; the tag tells which. *)
Inductive value_error : Type :=
| bad_shape          (* 'state_vector' must be of shape ... *)
| bad_norm           (* 'state_vector' has to be of length 1.0 *)
| bad_literal.       (* invalid literal for int() with base 2 *)

Inductive exn : Type :=
| IndexError
| TypeError
| OverflowError
| WireError
| ValueError (why : value_error).

Inductive result (A : Type) : Type :=
| Ok (a : A)
| Raise (e : exn).
Arguments Ok {A} a.
Arguments Raise {A} e.

Definition bindR {A B} (m : result A) (k : A -> result B) : result B :=
  match m with
  | Ok a => k a
  | Raise e => Raise e
  end.

Notation "'let*' x ':=' m 'in' k" := (bindR m (fun x => k))
  (at level 10, x name, m at level 100, k at level 200).

(** A list comprehension whose body can raise. *)
Fixpoint mapR {A B} (f : A -> result B) (l : list A) : result (list B) :=
  match l with
  | [] => Ok []
  | x :: t => let* y := f x in let* ys := mapR f t in Ok (y :: ys)
  end.

(** [l[i]] for a non-negative index. *)
Definition getitem {A} (l : list A) (i : Z) : result A :=
  if i <? 0 then Raise IndexError
  else match nth_error l (Z.to_nat i) with
       | Some x => Ok x
       | None => Raise IndexError
       end.

(** [range(a, b)] *)
Definition range (a b : Z) : list Z :=
  map (fun i => a + Z.of_nat i) (seq 0 (Z.to_nat (b - a))).

(** [range(k - 1, -1, -1)]: the indices [k-1, k-2, ..., 0] *)
Definition range_down (k : nat) : list nat := rev (seq 0 k).

(** [l[i] = v] for an index that is in range (nothing happens otherwise;
    the loops below only use indices in range) *)
Fixpoint list_set {A} (i : nat) (v : A) (l : list A) : list A :=
  match l, i with
  | [], _ => []
  | _ :: t, O => v :: t
  | x :: t, S i' => x :: list_set i' v t
  end.

(** ** gray_code *)

(** First loop of [gray_code_recurse]: [g.append("1" + g[i])] for
    [i = k-1 .. 0]. *)
Definition append_ones (k : nat) (g : list string) : list string :=
  fold_left (fun g i => g ++ [String "1" (nth i g EmptyString)]) (range_down k) g.

(** Second loop of [gray_code_recurse]: [g[i] = "0" + g[i]] for
    [i = k-1 .. 0]. *)
Definition prefix_zeros (k : nat) (g : list string) : list string :=
  fold_left (fun g i => list_set i (String "0" (nth i g EmptyString)) g)
            (range_down k) g.

(** [gray_code_recurse(g, rank)] mutates the list [g] in place; the model
    returns the list as it is when the call returns. *)
Equations? gray_code_recurse (g : list string) (rank : Z) : list string
  by wf (Z.to_nat rank) lt :=
  gray_code_recurse g rank with Z_le_gt_dec rank 0 => {
    | left _ := g;
    | right _ :=
        let k := List.length g in
        gray_code_recurse (prefix_zeros k (append_ones k g)) (rank - 1) }.
Proof. lia. Qed.

Definition gray_code (rank : Z) : list string :=
  gray_code_recurse ["0"; "1"]%string (rank - 1).

(** A call of [gray_code] as its caller sees it: the body contains no
    [raise], none of its list accesses can be out of range (see
    [GrayCode.loops_spec]) and the recursion ends, so the call returns. *)
Definition gray_code_call (rank : Z) : result (list string) :=
  Ok (gray_code rank).

(** Python's [int(s, 2)] on a string of binary digits.  The empty string
    and any other character raise [ValueError] (signs, prefixes and
    separators, which [int] also accepts, never occur in a Gray code). *)
Fixpoint int2_digits (acc : Z) (s : string) : result Z :=
  match s with
  | EmptyString => Ok acc
  | String c s' =>
      if Ascii.eqb c "0" then int2_digits (2 * acc) s'
      else if Ascii.eqb c "1" then int2_digits (2 * acc + 1) s'
      else Raise (ValueError bad_literal)
  end.

Definition int_base2 (s : string) : result Z :=
  match s with
  | EmptyString => Raise (ValueError bad_literal)
  | _ => int2_digits 0 s
  end.

(** Number of positions at which two strings differ (positions beyond the
    shorter string count as differences). *)
Fixpoint hamming (s t : string) : nat :=
  match s, t with
  | EmptyString, _ => String.length t
  | _, EmptyString => String.length s
  | String c s', String d t' =>
      ((if Ascii.eqb c d then 0 else 1) + hamming s' t')%nat
  end.

(** The string of [n] zeros. *)
Fixpoint zeros (n : nat) : string :=
  match n with
  | O => EmptyString
  | S n' => String "0" (zeros n')
  end.

(** ** _matrix_M_entry *)

(** The [while b_and_g > 0] loop, with its two variables. *)
Equations? count_ones (b_and_g sum_of_ones : Z) : Z
  by wf (Z.to_nat b_and_g) lt :=
  count_ones b_and_g sum_of_ones with Z_gt_le_dec b_and_g 0 => {
    | left _ :=
        count_ones (Z.shiftr b_and_g 1)
                   (if Z.eqb (Z.land b_and_g 1) 0 then sum_of_ones
                    else sum_of_ones + 1);
    | right _ := sum_of_ones }.
Proof.
  rewrite Z.shiftr_div_pow2 by lia. change (2 ^ 1) with 2.
  assert (b_and_g / 2 < b_and_g) by (apply Z.div_lt; lia).
  assert (0 <= b_and_g / 2) by (apply Z.div_pos; lia).
  lia.
Qed.

Definition _matrix_M_entry (row col : Z) : Z :=
  let b_and_g := Z.land row (Z.lxor (Z.shiftr col 1) col) in
  (-1) ^ count_ones b_and_g 0.

(** ** Numeric arrays (the operations taken from numpy) *)

Local Open Scope R_scope.

Definition sumR (l : list R) : R := fold_right Rplus 0 l.

(** Elementwise binary operation on arrays of equal shape. *)
Fixpoint map2 {A B D} (f : A -> B -> D) (l : list A) (m : list B) : list D :=
  match l, m with
  | x :: l', y :: m' => f x y :: map2 f l' m'
  | _, _ => []
  end.

(** [np.take(a, i)] for one index, with numpy's default mode: a negative
    index counts from the end, an index out of bounds raises. *)
Definition take1 (a : list R) (i : Z) : result R :=
  let n := Z.of_nat (List.length a) in
  if ((0 <=? i) && (i <? n))%Z then getitem a i
  else if ((- n <=? i) && (i <? 0))%Z then getitem a (n + i)
  else Raise IndexError.

(** [np.take(a, indices=...)] for a two-dimensional list of indices. *)
Definition take (a : list R) (indices : list (list Z)) : result (list (list R)) :=
  mapR (mapR (take1 a)) indices.

(** [np.sum(x, axis=1)] *)
Definition sum_axis1 (x : list (list R)) : list R := map sumR x.

(** [np.log2] on a positive number. *)
Definition log2R (x : R) : R := ln x / ln 2.

(** [int(np.log2(x))] for a Python integer [x]: [np.log2(0)] is [-inf], on
    which [int] raises; on a positive integer the truncated logarithm. *)
Definition int_log2 (x : Z) : result Z :=
  if (x <=? 0)%Z then Raise OverflowError else Ok (Z.log2 x).

(** [np.isclose(a, b, rtol, atol)]: [|a - b| <= atol + rtol * |b|]. *)
Definition isclose (a b rtol atol : R) : bool :=
  if Rle_dec (Rabs (a - b)) (atol + rtol * Rabs b) then true else false.

(** numpy's default [rtol] of [isclose]. *)
Definition default_rtol : R := 1 / 100000.

(** [x != 0.0] *)
Definition nonzero (x : R) : bool :=
  if Req_dec_T x 0 then false else true.

(** Complex numbers as pairs (real part, imaginary part). *)
Definition C : Type := R * R.

(** [np.absolute] *)
Definition Cabs (z : C) : R := sqrt (fst z * fst z + snd z * snd z).

(** [np.arctan2(y, x)] *)
Definition arctan2 (y x : R) : R :=
  if Rlt_dec 0 x then atan (y / x)
  else if Rlt_dec x 0 then
         (if Rle_dec 0 y then atan (y / x) + PI else atan (y / x) - PI)
  else if Rlt_dec 0 y then PI / 2
  else if Rlt_dec y 0 then - (PI / 2)
  else 0.

(** [np.angle] *)
Definition Cangle (z : C) : R := arctan2 (snd z) (fst z).

(** ** _compute_theta *)

Definition _compute_theta (alpha : list R) : list R :=
  let ln := List.length alpha in
  let k := log2R (INR ln) in
  let M_trans :=
    map (fun i => map (fun j => IZR (_matrix_M_entry j i))
                      (range 0 (Z.of_nat ln)))
        (range 0 (Z.of_nat ln)) in
  let theta := map (fun row => sumR (map2 Rmult row alpha)) M_trans in
  map (fun t => t / Rpower 2 k) theta.

(** ** _get_alpha_z and _get_alpha_y *)

(** [2 ** (n - k)] and [2 ** (k - 1)] are integers only for [k <= n] and
    [1 <= k]; otherwise they are floats and [range] raises [TypeError]. *)
Definition _get_alpha_z (omega : list R) (n k : Z) : result (list R) :=
  if ((n <? k) || (k <? 1))%Z then Raise TypeError else
  let indices1 :=
    map (fun j => map (fun l => (2 * j - 1) * 2 ^ (k - 1) + l - 1)%Z
                      (range 1 (2 ^ (k - 1) + 1)))
        (range 1 (2 ^ (n - k) + 1)) in
  let indices2 :=
    map (fun j => map (fun l => (2 * j - 2) * 2 ^ (k - 1) + l - 1)%Z
                      (range 1 (2 ^ (k - 1) + 1)))
        (range 1 (2 ^ (n - k) + 1)) in
  let* term1 := take omega indices1 in
  let* term2 := take omega indices2 in
  let diff :=
    map (map (fun d => d / IZR (2 ^ (k - 1))))
        (map2 (map2 Rminus) term1 term2) in
  Ok (sum_axis1 diff).

Definition _get_alpha_y (a : list R) (n k : Z) : result (list R) :=
  if ((n <? k) || (k <? 1))%Z then Raise TypeError else
  let indices_numerator :=
    map (fun j => map (fun l => (2 * (j + 1) - 1) * 2 ^ (k - 1) + l)%Z
                      (range 0 (2 ^ (k - 1))))
        (range 0 (2 ^ (n - k))) in
  let* numerator := take a indices_numerator in
  let numerator := sum_axis1 (map (map (fun x => Rabs x ^ 2)) numerator) in
  let indices_denominator :=
    map (fun j => map (fun l => j * 2 ^ k + l)%Z (range 0 (2 ^ k)))
        (range 0 (2 ^ (n - k))) in
  let* denominator := take a indices_denominator in
  let denominator := sum_axis1 (map (map (fun x => Rabs x ^ 2)) denominator) in
  (* np.divide(..., out=zeros, where=denominator != 0.0) *)
  let division :=
    map2 (fun num den => if nonzero den then num / den else 0)
         numerator denominator in
  Ok (map (fun d => 2 * asin (sqrt d)) division).

Local Close Scope R_scope.

(** ** Operations and the tape they are queued on *)

(** The two rotation gates the template passes around as [gate]. *)
Inductive rotation : Type := RY | RZ.

(** Wire labels are numbers or strings: values that can be compared. *)
Class WireEq (Wire : Type) : Type :=
  wire_eq_dec : forall x y : Wire, {x = y} + {x <> y}.

#[global] Instance nat_WireEq : WireEq nat := Nat.eq_dec.
#[global] Instance Z_WireEq : WireEq Z := Z.eq_dec.
#[global] Instance string_WireEq : WireEq string := string_dec.

Section Template.

Context {Wire : Type} {Wire_eq : WireEq Wire}.

(** [gate(angle, wires=[w])] for a rotation gate and
    [qml.CNOT(wires=[c, t])]. *)
Inductive Operation : Type :=
| Rot (gate : rotation) (angle : R) (w : Wire)
| CNOT (control target : Wire).

(** Constructing an operation inside a template appends it to the tape being
    recorded.  A computation takes the tape so far and returns its outcome
    together with the tape it leaves behind, also when it raises. *)
Definition Tape (A : Type) : Type :=
  list Operation -> result A * list Operation.

Definition ret {A} (a : A) : Tape A := fun q => (Ok a, q).

Definition lift {A} (r : result A) : Tape A := fun q => (r, q).

Definition bind {A B} (m : Tape A) (k : A -> Tape B) : Tape B :=
  fun q => match m q with
           | (Ok a, q') => k a q'
           | (Raise e, q') => (Raise e, q')
           end.

Definition emit (op : Operation) : Tape unit := fun q => (Ok tt, q ++ [op]).

Notation "x <- m ;; k" := (bind m (fun x => k))
  (at level 61, m at next level, right associativity).
Notation "m ;; k" := (bind m (fun _ => k))
  (at level 61, right associativity).

(** A [for] loop whose body queues operations. *)
Fixpoint for_each {A} (l : list A) (body : A -> Tape unit) : Tape unit :=
  match l with
  | [] => ret tt
  | x :: t => body x ;; for_each t body
  end.

(** [enumerate(l)] *)
Definition enumerate {A} (l : list A) : list (Z * A) :=
  combine (range 0 (Z.of_nat (List.length l))) l.

(** ** _uniform_rotation_dagger *)

Definition _uniform_rotation_dagger (gate : rotation) (alpha : list R)
    (control_wires : list Wire) (target_wire : Wire) : Tape unit :=
  let theta := _compute_theta alpha in
  let gray_code_rank := Z.of_nat (List.length control_wires) in
  if gray_code_rank =? 0 then
    theta0 <- lift (getitem theta 0) ;;
    if nonzero theta0 then emit (Rot gate theta0 target_wire) else ret tt
  else
    let code := gray_code gray_code_rank in
    let num_selections := Z.of_nat (List.length code) in
    control_indices <-
      lift (mapR (fun i =>
                    let* ci := getitem code i in
                    let* ci1 := getitem code ((i + 1) mod num_selections) in
                    let* a := int_base2 ci in
                    let* b := int_base2 ci1 in
                    int_log2 (Z.lxor a b))
                 (range 0 num_selections)) ;;
    for_each (enumerate control_indices)
      (fun '(i, control_index) =>
         theta_i <- lift (getitem theta i) ;;
         (if nonzero theta_i then emit (Rot gate theta_i target_wire)
          else ret tt) ;;
         c <- lift (getitem control_wires control_index) ;;
         emit (CNOT c target_wire)).

(** ** MottonenStatePreparation *)

(** Modelled from the spec: [check_shape] of [pennylane.templates.utils] is
    not part of the sources at hand.  Per the spec it validates that the
    length of the state vector equals the expected one and fails with a shape
    error otherwise. *)
Definition check_shape (shape expected_shape : Z) : result unit :=
  if shape =? expected_shape then Ok tt else Raise (ValueError bad_shape).

(** Modelled from its documented behaviour: the class [Wires] of
    [pennylane.wires] is not part of the sources at hand.  [Wires(wires)]
    keeps the labels in the given order and raises [WireError] ("Wires must
    be unique") when a label is repeated, that is when the set of the labels
    has fewer elements than the list. *)
Definition Wires (wires : list Wire) : result (list Wire) :=
  if (List.length (nodup wire_eq_dec wires) =? List.length wires)%nat
  then Ok wires
  else Raise WireError.

(** [wires[k:]] for [k >= 0] *)
Definition slice_from {A} (l : list A) (k : Z) : list A := skipn (Z.to_nat k) l.

(** [range(n, 0, -1)] *)
Definition range_n_to_1 (n : Z) : list Z := rev (range 1 (n + 1)).

Definition MottonenStatePreparation (state_vector : list C)
    (wires : list Wire) : Tape unit :=
  wires <- lift (Wires wires) ;;
  let n_wires := Z.of_nat (List.length wires) in
  let expected_shape := 2 ^ n_wires in
  lift (check_shape (Z.of_nat (List.length state_vector)) expected_shape) ;;
  (* check if normalized *)
  let norm := sumR (map (fun z => (Cabs z ^ 2)%R) state_vector) in
  if negb (isclose norm 1 default_rtol (1 / 1000)) then
    lift (Raise (ValueError bad_norm))
  else
  let wires_reverse := rev wires in
  let a := map Cabs state_vector in
  let omega := map Cangle state_vector in
  for_each (range_n_to_1 n_wires)
    (fun k =>
       alpha_y_k <- lift (_get_alpha_y a n_wires k) ;;
       let control := slice_from wires_reverse k in
       target <- lift (getitem wires_reverse (k - 1)) ;;
       _uniform_rotation_dagger RY alpha_y_k control target) ;;
  for_each (range_n_to_1 n_wires)
    (fun k =>
       alpha_z_k <- lift (_get_alpha_z omega n_wires k) ;;
       let control := slice_from wires_reverse k in
       target <- lift (getitem wires_reverse (k - 1)) ;;
       if (Z.of_nat (List.length alpha_z_k) >? 0)
       then _uniform_rotation_dagger RZ alpha_z_k control target
       else ret tt).

End Template.

Arguments Operation : clear implicits.
Arguments Tape : clear implicits.

(** ** Notions used to state the properties *)

(** One round of [gray_code_recurse] as a list expression. *)
Definition gray_step (g : list string) : list string :=
  map (String "0") g ++ map (String "1") (rev g).

(** A string of binary digits. *)
Fixpoint bitstring (s : string) : bool :=
  match s with
  | EmptyString => true
  | String c s' => (Ascii.eqb c "0" || Ascii.eqb c "1") && bitstring s'
  end.

(** [g[i]], with the empty string out of range. *)
Definition code_at (g : list string) (i : nat) : string := nth i g EmptyString.

(** Two code words differ in exactly one bit position. *)
Definition one_bit_apart (s t : string) : Prop :=
  String.length s = String.length t /\ hamming s t = 1%nat.

(** Neighbours in the list are one bit apart. *)
Definition adjacent_apart (g : list string) : Prop :=
  forall i, (S i < List.length g)%nat ->
            one_bit_apart (code_at g i) (code_at g (S i)).

(** Neighbours are one bit apart, the last and the first entry included. *)
Definition cyclic_gray (g : list string) : Prop :=
  forall i, (i < List.length g)%nat ->
            one_bit_apart (code_at g i) (code_at g (S i mod List.length g)).

(** The matrix-vector product [M @ alpha] for a square matrix given by its
    entries [M i j] (0-based), and the vector [(M @ alpha) / L]. *)
Definition matvec (M : Z -> Z -> R) (alpha : list R) : list R :=
  let L := Z.of_nat (List.length alpha) in
  map (fun i => sumR (map (fun j => (M i j * nth (Z.to_nat j) alpha 0)%R)
                          (range 0 L)))
      (range 0 L).

Definition scaled_matvec (M : Z -> Z -> R) (alpha : list R) : list R :=
  map (fun t => (t / INR (List.length alpha))%R) (matvec M alpha).

(** The sign matrix as the code fills it: [M[i][j] = entry(j, i)] for the
    0-based loop indices [i], [j]. *)
Definition M_code (i j : Z) : R := IZR (_matrix_M_entry j i).

(** The sign matrix as claim C2 words it: [M[i][j] = entry(j+1, i+1)]. *)
Definition M_claimed (i j : Z) : R := IZR (_matrix_M_entry (j + 1) (i + 1)).

(** The number of set bits of a non-negative integer (0 for a negative
    one). *)
Fixpoint popcount_pos (p : positive) : Z :=
  match p with
  | xH => 1
  | xO p' => popcount_pos p'
  | xI p' => 1 + popcount_pos p'
  end.

Definition popcount (b : Z) : Z :=
  match b with
  | Zpos p => popcount_pos p
  | _ => 0
  end.

(** The entry by the formula claim C2 words: [(-1)] raised to the popcount
    of [row AND ((col >> 1) XOR col)]. *)
Definition entry_formula (row col : Z) : Z :=
  (-1) ^ popcount (Z.land row (Z.lxor (Z.shiftr col 1) col)).

(** [a[i]] for an array of reals and an index in range (0 otherwise). *)
Definition item (a : list R) (i : Z) : R := nth (Z.to_nat i) a 0%R.

(** The digit a character of a bit string stands for. *)
Definition digit (c : ascii) : bool := Ascii.eqb c "1".

(** The integer a code word denotes, [int(s, 2)] (0 where [int] raises). *)
Definition int_of_word (s : string) : Z :=
  match int_base2 s with
  | Ok v => v
  | Raise _ => 0
  end.

(** [controlIndices[i] = log2(code[i] XOR code[(i+1) mod len(code)])] *)
Definition control_index (code : list string) (i : Z) : Z :=
  let len := Z.of_nat (List.length code) in
  Z.log2 (Z.lxor (int_of_word (code_at code (Z.to_nat i)))
                 (int_of_word (code_at code (Z.to_nat ((i + 1) mod len))))).

Section ExpectedOperations.

Context {Wire : Type}.

(** The rotation emitted for an angle: none when the angle is exactly 0. *)
Definition rotation_if_nonzero (gate : rotation) (angle : R) (target : Wire)
    : list (Operation Wire) :=
  if nonzero angle then [Rot gate angle target] else [].

Definition is_CNOT (op : Operation Wire) : bool :=
  match op with
  | CNOT _ _ => true
  | Rot _ _ _ => false
  end.

Definition is_rotation (gate : rotation) (op : Operation Wire) : bool :=
  match op, gate with
  | Rot RY _ _, RY => true
  | Rot RZ _ _, RZ => true
  | _, _ => false
  end.

(** The operations of a uniformly controlled rotation with at least one
    control: for [i = 0 .. 2^r - 1] the rotation by [theta[i]] unless it is
    zero, then the bit flip controlled by
    [control_wires[controlIndices[i]]]. *)
Definition uniform_rotation_ops (gate : rotation) (theta : list R)
    (control_wires : list Wire) (target : Wire) : list (Operation Wire) :=
  let r := Z.of_nat (List.length control_wires) in
  let code := gray_code r in
  flat_map (fun i =>
              rotation_if_nonzero gate (item theta i) target
              ++ [CNOT (nth (Z.to_nat (control_index code i))
                            control_wires target)
                       target])
           (range 0 (2 ^ r)).

(** The operations one call of the expander emits. *)
Definition expander_ops (gate : rotation) (alpha : list R)
    (control_wires : list Wire) (target : Wire) : list (Operation Wire) :=
  let theta := _compute_theta alpha in
  match control_wires with
  | [] => rotation_if_nonzero gate (item theta 0) target
  | _ :: _ => uniform_rotation_ops gate theta control_wires target
  end.

(** The operations of one step [k] of a cascade, given the outcome of the
    angle computation of that step. *)
Definition cascade_step_ops (gate : rotation) (alpha : result (list R))
    (wires_reverse : list Wire) (k : Z) : list (Operation Wire) :=
  match alpha, getitem wires_reverse (k - 1) with
  | Ok alpha_k, Ok target =>
      expander_ops gate alpha_k (slice_from wires_reverse k) target
  | _, _ => []
  end.

(** The operations of the Y-cascade followed by those of the Z-cascade. *)
Definition state_preparation_ops (state_vector : list C) (wires : list Wire)
    : list (Operation Wire) :=
  let n_wires := Z.of_nat (List.length wires) in
  let wires_reverse := rev wires in
  let a := map Cabs state_vector in
  let omega := map Cangle state_vector in
  flat_map (fun k => cascade_step_ops RY (_get_alpha_y a n_wires k)
                                      wires_reverse k)
           (range_n_to_1 n_wires)
  ++ flat_map (fun k => cascade_step_ops RZ (_get_alpha_z omega n_wires k)
                                         wires_reverse k)
              (range_n_to_1 n_wires).

End ExpectedOperations.

(** The squared-magnitude sum the driver checks. *)
Definition squared_norm (state_vector : list C) : R :=
  sumR (map (fun z => (Cabs z ^ 2)%R) state_vector).

(** The input the driver accepts: no wire is repeated, the state vector has
    one entry for each basis state of the wires, and [np.isclose] holds of
    its squared norm. *)
Definition accepted {Wire : Type} (state_vector : list C) (wires : list Wire)
    : Prop :=
  NoDup wires
  /\ Z.of_nat (List.length state_vector) = 2 ^ Z.of_nat (List.length wires)
  /\ isclose (squared_norm state_vector) 1 default_rtol (1 / 1000) = true.

(** The input [[1/2, 1/2, 1/2, 1/2]] of the two-wire scenario. *)
Definition uniform4 : list C :=
  [(1 / 2, 0); (1 / 2, 0); (1 / 2, 0); (1 / 2, 0)]%R.

(** ** The effect of the operations on a register *)

(** Arithmetic of complex numbers. *)
Definition Cadd (x y : C) : C := (fst x + fst y, snd x + snd y)%R.
Definition Cmul (x y : C) : C :=
  (fst x * fst y - snd x * snd y, fst x * snd y + snd x * fst y)%R.
Definition Cscale (r : R) (z : C) : C := (r * fst z, r * snd z)%R.

(** The complex number [e^(i phi)] of magnitude one. *)
Definition Cexp_i (phi : R) : C := (cos phi, sin phi).

(** The state of [N] qubits: the amplitude of each basis state [|i>], with
    the first declared wire the most significant bit of [i]. *)
Definition State : Type := Z -> C.

(** The all-zero reference state. *)
Definition ket0 : State := fun i => if i =? 0 then (1%R, 0%R) else (0%R, 0%R).

(** Modelled from the spec: the matrices of the gates are not part of the
    sources at hand (they are those of [qml.RY] and [qml.RZ]).  The spec
    calls them the Y-rotation and the Z-rotation by a scalar angle:
    [RY(t) = [[cos(t/2), -sin(t/2)], [sin(t/2), cos(t/2)]]] and
    [RZ(t) = diag(e^(-i t/2), e^(i t/2))], here applied to the pair of
    amplitudes with the target bit 0 and 1. *)
Definition rot_pair (gate : rotation) (theta : R) (p : C * C) : C * C :=
  match gate with
  | RY => (Cadd (Cscale (cos (theta / 2)) (fst p))
                (Cscale (- sin (theta / 2)) (snd p)),
           Cadd (Cscale (sin (theta / 2)) (fst p))
                (Cscale (cos (theta / 2)) (snd p)))
  | RZ => (Cmul (Cexp_i (- (theta / 2))) (fst p),
           Cmul (Cexp_i (theta / 2)) (snd p))
  end.

(** The two amplitudes that differ from [i] at most in bit [t]. *)
Definition pair_at (t : Z) (psi : State) (i : Z) : C * C :=
  (psi (Z.clearbit i t), psi (Z.setbit i t)).

Definition sel (b : bool) (p : C * C) : C := if b then snd p else fst p.

Section Register.

Context {Wire : Type}.

(** The bit of the basis-state index a wire stands for. *)
Variable bit_of : Wire -> Z.

(** Modelled from the spec: applying one Operation to the register (the
    execution engine is not part of the sources at hand).  A rotation acts on
    its target wire; the bit flip [CNOT] exchanges the amplitudes of target
    bit 0 and 1 where the control bit is 1. *)
Definition apply_op (op : Operation Wire) (psi : State) : State :=
  match op with
  | Rot gate theta w =>
      fun i => sel (Z.testbit i (bit_of w))
                   (rot_pair gate theta (pair_at (bit_of w) psi i))
  | CNOT c t =>
      fun i => if Z.testbit i (bit_of c)
               then psi (Z.lxor i (2 ^ bit_of t)) else psi i
  end.

(** Applying a sequence of Operations in order. *)
Definition run (ops : list (Operation Wire)) (psi : State) : State :=
  fold_left (fun psi op => apply_op op psi) ops psi.

End Register.

(** Exchanging the two amplitudes of a pair. *)
Definition swap_if (f : bool) (p : C * C) : C * C :=
  if f then (snd p, fst p) else p.

(** The operator that, on the pair of amplitudes of bit [t] around each
    index [i], rotates by [phi i] and then exchanges the pair where [f i]
    holds. *)
Definition block (t : Z) (gate : rotation) (f : Z -> bool) (phi : Z -> R)
    (psi : State) : State :=
  fun i => sel (Z.testbit i t)
               (swap_if (f i) (rot_pair gate (phi i) (pair_at t psi i))).

(** A function of the index that does not look at bit [t]. *)
Definition ignores_bit {A} (t : Z) (f : Z -> A) : Prop :=
  forall i, f (Z.clearbit i t) = f i /\ f (Z.setbit i t) = f i.

(** The sign [+1] or [-1] of a flag. *)
Definition sign_of (b : bool) : R := if b then (-1)%R else 1%R.

Section Accumulated.

Context {Wire : Type}.
Variable bit_of : Wire -> Z.

(** A uniformly controlled rotation as the expander emits it is a list of
    steps, each a rotation angle and the control wire of the bit flip that
    follows it.  The flips met so far decide the sign with which an angle
    acts on the pair at index [i]. *)
Fixpoint acc_flip (l : list (R * Wire)) (f : bool) (i : Z) : bool :=
  match l with
  | [] => f
  | (_, c) :: l' => acc_flip l' (xorb (Z.testbit i (bit_of c)) f) i
  end.

Fixpoint acc_angle (l : list (R * Wire)) (f : bool) (i : Z) : R :=
  match l with
  | [] => 0%R
  | (theta, c) :: l' =>
      (sign_of f * theta
       + acc_angle l' (xorb (Z.testbit i (bit_of c)) f) i)%R
  end.

(** The operations of a list of steps on the target wire. *)
Definition steps_ops (gate : rotation) (target : Wire) (l : list (R * Wire))
    : list (Operation Wire) :=
  flat_map (fun '(theta, c) =>
              rotation_if_nonzero gate theta target ++ [CNOT c target]) l.

End Accumulated.

(** [(col >> 1) ^ col]: the Gray code of [col], computed arithmetically. *)
Definition gray (col : Z) : Z := Z.lxor (Z.shiftr col 1) col.

(** The sign [(-1) ** sum_of_ones] of a masked word. *)
Definition sgn (b_and_g : Z) : Z := (-1) ^ count_ones b_and_g 0.

(** The sign of a flag as an integer. *)
Definition zsign (b : bool) : Z := if b then -1 else 1.

(** Whether the [r] lowest bits of [d] are all zero. *)
Fixpoint low0 (r : nat) (d : Z) : bool :=
  match r with
  | O => true
  | S r' => low0 r' d && negb (Z.testbit d (Z.of_nat r'))
  end.

(** The pattern of the [r] control bits above bit position [p] in the
    basis-state index [i]. *)
Definition ctrl (p r i : Z) : Z := (i / 2 ^ p) mod 2 ^ r.

(** The column sums of the sign matrix. *)
Definition T (r : nat) (d : Z) : R :=
  sumR (map (fun k => IZR (sgn (Z.land d (gray k))))
            (range 0 (2 ^ Z.of_nat r))).

(** The weight of block [b] of size [2^m]: the sum of [a[b*2^m + l]^2]. *)
Definition blocksum (a : list R) (m b : Z) : R :=
  sumR (map (fun l => (item a (b * 2 ^ m + l) ^ 2)%R) (range 0 (2 ^ m))).

(** The mean phase of block [b] of size [2^m]. *)
Definition blockmean (omega : list R) (m b : Z) : R :=
  (sumR (map (fun l => item omega (b * 2 ^ m + l)) (range 0 (2 ^ m)))
   / IZR (2 ^ m))%R.

(** The register while the Y-cascade runs: once the target bits [m] and
    above are done, the basis states with zero low bits carry the square
    roots of the block weights of size [2^m], the others nothing. *)
Definition amplitude_level (a : list R) (N m : Z) (psi : State) : Prop :=
  forall i, 0 <= i < 2 ^ N ->
            psi i = ((if i mod 2 ^ m =? 0
                      then sqrt (blocksum a m (i / 2 ^ m)) else 0)%R, 0%R).

(** The register while the Z-cascade runs: once the target bits [m] and
    above are done, each amplitude [a[i]] carries the mean phase of its block
    of size [2^m], relative to the mean phase of the whole vector. *)
Definition phase_level (a omega : list R) (N m : Z) (psi : State) : Prop :=
  forall i, 0 <= i < 2 ^ N ->
            psi i = Cmul (Cexp_i (blockmean omega m (i / 2 ^ m)
                                  - blockmean omega N 0))
                         (item a i, 0%R).

(** The index with bit [t] equal to [b], the bits above forming [j] and the
    bits below forming [l]. *)
Definition index_of (t j l : Z) (b : bool) : Z :=
  2 * 2 ^ t * j + 2 ^ t * Z.b2z b + l.

(** ** Notions used to state what a call queues *)

Section Queued.

Context {Wire : Type}.

(** The wires an operation acts on. *)
Definition op_wires (op : Operation Wire) : list Wire :=
  match op with
  | Rot _ _ w => [w]
  | CNOT c t => [c; t]
  end.

(** A computation that, whatever its outcome, leaves the tape it was given
    in place and appends only operations with property [P]. *)
Definition emits_only {A} (P : Operation Wire -> Prop) (m : Tape Wire A)
    : Prop :=
  forall q, exists ops, snd (m q) = q ++ ops /\ Forall P ops.

(** The operations the expander may queue: the rotation of the given kind by
    a nonzero angle on the target, and the bit flip of the target controlled
    by one of the control wires. *)
Definition expander_op (gate : rotation) (control_wires : list Wire)
    (target_wire : Wire) (op : Operation Wire) : Prop :=
  (exists angle, angle <> 0%R /\ op = Rot gate angle target_wire)
  \/ (exists c, In c control_wires /\ op = CNOT c target_wire).

(** Step [i] of the expander's loop over the Gray code. *)
Definition expander_step (gate : rotation) (theta : list R)
    (control_wires : list Wire) (target_wire : Wire) (i : Z)
    : list (Operation Wire) :=
  rotation_if_nonzero gate (item theta i) target_wire
  ++ [CNOT (nth (Z.to_nat (control_index
                             (gray_code (Z.of_nat (List.length control_wires)))
                             i))
                control_wires target_wire)
           target_wire].

End Queued.

(** * Properties *)

(** ** Lists: the loops of [gray_code_recurse] in closed form *)

Section ListFacts.

Context {A : Type}.

Lemma map_nth_seq (d : A) (l : list A) :
  map (fun i => nth i l d) (seq 0 (List.length l)) = l.
Proof.
  induction l as [|x l IH]; [reflexivity|].
  cbn [List.length seq map nth]. f_equal.
  rewrite <- seq_shift, map_map. exact IH.
Qed.

Lemma range_down_S (k : nat) : range_down (S k) = k :: range_down k.
Proof.
  unfold range_down. rewrite seq_S, rev_app_distr. reflexivity.
Qed.

Lemma list_set_length (i : nat) (v : A) (l : list A) :
  List.length (list_set i v l) = List.length l.
Proof.
  revert i; induction l as [|x l IH]; intros [|i]; cbn; auto.
Qed.

Lemma list_set_split (d : A) (i : nat) (v : A) (l : list A) :
  (i < List.length l)%nat ->
  list_set i v l = firstn i l ++ v :: skipn (S i) l.
Proof.
  revert i; induction l as [|x l IH]; intros [|i] H; cbn in *; try lia.
  - reflexivity.
  - f_equal. apply IH. lia.
Qed.

Lemma firstn_S_nth (d : A) (i : nat) (l : list A) :
  (i < List.length l)%nat ->
  firstn (S i) l = firstn i l ++ [nth i l d].
Proof.
  revert i; induction l as [|x l IH]; intros [|i] H; cbn in *; try lia.
  - reflexivity.
  - f_equal. apply IH. lia.
Qed.

End ListFacts.

Module GrayCode.

Lemma append_ones_gen (idx : list nat) (g ext : list string) :
  Forall (fun i => (i < List.length g)%nat) idx ->
  fold_left (fun g i => g ++ [String "1" (nth i g EmptyString)]) idx (g ++ ext)
  = g ++ ext ++ map (fun i => String "1" (nth i g EmptyString)) idx.
Proof.
  revert ext; induction idx as [|i idx IH]; intros ext H; cbn [fold_left map].
  - now rewrite app_nil_r.
  - inversion H as [|? ? Hi His]; subst.
    rewrite app_nth1 by exact Hi.
    rewrite <- app_assoc, (IH _ His), <- app_assoc. reflexivity.
Qed.

Lemma append_ones_spec (g : list string) :
  append_ones (List.length g) g = g ++ map (String "1") (rev g).
Proof.
  unfold append_ones.
  rewrite <- (app_nil_r g) at 2. rewrite append_ones_gen.
  - cbn [app]. f_equal. unfold range_down.
    rewrite <- (map_map (fun i => nth i g EmptyString) (String "1")).
    rewrite map_rev, map_nth_seq. reflexivity.
  - apply Forall_forall. intros i Hi. unfold range_down in Hi.
    apply in_rev, in_seq in Hi. lia.
Qed.

Lemma prefix_zeros_gen (k : nat) (l : list string) :
  (k <= List.length l)%nat ->
  prefix_zeros k l = map (String "0") (firstn k l) ++ skipn k l.
Proof.
  unfold prefix_zeros. revert l; induction k as [|k IH]; intros l Hk.
  - reflexivity.
  - rewrite range_down_S. cbn [fold_left].
    rewrite IH by (rewrite list_set_length; lia).
    rewrite (list_set_split EmptyString) by lia.
    rewrite firstn_app, firstn_firstn, length_firstn.
    replace (Nat.min k k) with k by lia.
    replace (Nat.min k (List.length l)) with k by lia.
    rewrite Nat.sub_diag, firstn_O, app_nil_r.
    rewrite skipn_app, length_firstn.
    replace (Nat.min k (List.length l)) with k by lia.
    rewrite Nat.sub_diag, skipn_O.
    rewrite skipn_all2 by (rewrite length_firstn; lia). cbn [app].
    rewrite (firstn_S_nth EmptyString) by lia.
    rewrite map_app, <- app_assoc. reflexivity.
Qed.

Lemma loops_spec (g : list string) :
  prefix_zeros (List.length g) (append_ones (List.length g) g) = gray_step g.
Proof.
  rewrite append_ones_spec, prefix_zeros_gen by (rewrite length_app; lia).
  rewrite firstn_app, Nat.sub_diag, firstn_all. cbn [firstn].
  rewrite app_nil_r, skipn_app, skipn_all, Nat.sub_diag. reflexivity.
Qed.

Lemma gray_code_recurse_le (g : list string) (rank : Z) :
  rank <= 0 -> gray_code_recurse g rank = g.
Proof.
  intros H. simp gray_code_recurse.
  destruct (Z_le_gt_dec rank 0); [reflexivity | lia].
Qed.

Lemma gray_code_recurse_gt (g : list string) (rank : Z) :
  0 < rank ->
  gray_code_recurse g rank = gray_code_recurse (gray_step g) (rank - 1).
Proof.
  intros H. rewrite gray_code_recurse_equation_1.
  destruct (Z_le_gt_dec rank 0); [lia|].
  cbn. rewrite loops_spec. reflexivity.
Qed.

Lemma gray_code_recurse_iter (n : nat) (g : list string) :
  gray_code_recurse g (Z.of_nat n) = Nat.iter n gray_step g.
Proof.
  revert g; induction n as [|n IH]; intros g.
  - now rewrite gray_code_recurse_le by lia.
  - rewrite gray_code_recurse_gt by lia.
    replace (Z.of_nat (S n) - 1) with (Z.of_nat n) by lia.
    rewrite IH, Nat.iter_succ_r. reflexivity.
Qed.

(** [gray_code] for a rank of at least one, as an iteration. *)
Lemma gray_code_iter (n : nat) :
  gray_code (Z.of_nat (S n)) = Nat.iter n gray_step ["0"; "1"]%string.
Proof.
  unfold gray_code.
  replace (Z.of_nat (S n) - 1) with (Z.of_nat n) by lia.
  apply gray_code_recurse_iter.
Qed.

End GrayCode.

Module GrayFacts.
Import GrayCode.

Lemma hamming_refl (s : string) : hamming s s = 0%nat.
Proof.
  induction s as [|c s IH]; cbn; [reflexivity|].
  now rewrite Ascii.eqb_refl, IH.
Qed.

Lemma hamming_sym (s t : string) : hamming s t = hamming t s.
Proof.
  revert t; induction s as [|c s IH]; intros [|d t]; cbn; try reflexivity.
  now rewrite IH, Ascii.eqb_sym.
Qed.

Lemma one_bit_apart_sym (s t : string) : one_bit_apart s t -> one_bit_apart t s.
Proof. intros [H1 H2]. split; [auto | now rewrite hamming_sym]. Qed.

Lemma one_bit_apart_same_prefix (c : ascii) (s t : string) :
  one_bit_apart s t -> one_bit_apart (String c s) (String c t).
Proof.
  intros [H1 H2]. split; cbn; [now rewrite H1 | now rewrite Ascii.eqb_refl].
Qed.

Lemma one_bit_apart_flip_prefix (s : string) :
  one_bit_apart (String "0" s) (String "1" s)
  /\ one_bit_apart (String "1" s) (String "0" s).
Proof.
  split; (split; cbn; [reflexivity | now rewrite hamming_refl]).
Qed.

Lemma gray_step_length (g : list string) :
  List.length (gray_step g) = (2 * List.length g)%nat.
Proof.
  unfold gray_step. rewrite length_app, !length_map, length_rev. lia.
Qed.

Lemma code_at_gray_step_lo (g : list string) (i : nat) :
  (i < List.length g)%nat ->
  code_at (gray_step g) i = String "0" (code_at g i).
Proof.
  intros H. unfold code_at, gray_step.
  rewrite app_nth1 by now rewrite length_map.
  rewrite (nth_indep _ _ (String "0" EmptyString)) by now rewrite length_map.
  apply map_nth.
Qed.

Lemma code_at_gray_step_hi (g : list string) (i : nat) :
  (List.length g <= i < 2 * List.length g)%nat ->
  code_at (gray_step g) i = String "1" (code_at g (2 * List.length g - 1 - i)).
Proof.
  intros H. unfold code_at, gray_step.
  rewrite app_nth2 by (rewrite length_map; lia). rewrite length_map.
  rewrite (nth_indep _ _ (String "1" EmptyString))
    by (rewrite length_map, length_rev; lia).
  rewrite map_nth, rev_nth by lia.
  do 2 f_equal. lia.
Qed.

Lemma gray_step_cyclic (g : list string) :
  g <> [] -> adjacent_apart g -> cyclic_gray (gray_step g).
Proof.
  intros Hne Hadj i Hi. rewrite gray_step_length in *.
  set (n := List.length g) in *.
  assert (Hn : (0 < n)%nat) by (destruct g; [congruence | cbn; lia]).
  destruct (Nat.eq_dec (S i) (2 * n)) as [Hlast|Hnot].
  - (* the wrap-around pair *)
    rewrite Hlast, Nat.Div0.mod_same.
    rewrite code_at_gray_step_hi, code_at_gray_step_lo by (fold n; lia).
    fold n. replace (2 * n - 1 - i)%nat with 0%nat by lia.
    apply one_bit_apart_flip_prefix.
  - rewrite Nat.mod_small by lia.
    destruct (Nat.lt_ge_cases (S i) n) as [Hlo|Hhi].
    + rewrite !code_at_gray_step_lo by (fold n; lia).
      apply one_bit_apart_same_prefix, Hadj. fold n; lia.
    + destruct (Nat.eq_dec (S i) n) as [Hmid|Hmid].
      * (* the junction of the two halves *)
        rewrite code_at_gray_step_lo, code_at_gray_step_hi by (fold n; lia).
        fold n. replace (2 * n - 1 - S i)%nat with i by lia.
        apply one_bit_apart_flip_prefix.
      * rewrite !code_at_gray_step_hi by (fold n; lia). fold n.
        apply one_bit_apart_same_prefix, one_bit_apart_sym.
        replace (2 * n - 1 - i)%nat with (S (2 * n - 1 - S i)) by lia.
        apply Hadj. fold n; lia.
Qed.

Lemma cyclic_gray_adjacent (g : list string) :
  cyclic_gray g -> adjacent_apart g.
Proof.
  intros H i Hi. specialize (H i ltac:(lia)).
  now rewrite Nat.mod_small in H by lia.
Qed.

Lemma base_code_cyclic : cyclic_gray ["0"; "1"]%string.
Proof.
  intros [|[|i]] Hi; cbn in Hi; try lia; split; reflexivity.
Qed.

Lemma iter_gray_step_length (n : nat) :
  List.length (Nat.iter n gray_step ["0"; "1"]%string) = (2 ^ S n)%nat.
Proof.
  induction n as [|n IH]; [reflexivity|].
  rewrite Nat.iter_succ. rewrite gray_step_length, IH.
  change (2 ^ S (S n))%nat with (2 * 2 ^ S n)%nat. reflexivity.
Qed.

Lemma iter_gray_step_cyclic (n : nat) :
  cyclic_gray (Nat.iter n gray_step ["0"; "1"]%string).
Proof.
  induction n as [|n IH]; [exact base_code_cyclic|].
  rewrite Nat.iter_succ. apply gray_step_cyclic.
  - intros E. apply (f_equal (@List.length _)) in E.
    rewrite iter_gray_step_length in E. cbn [List.length] in E.
    pose proof (Nat.pow_nonzero 2 (S n)). lia.
  - now apply cyclic_gray_adjacent.
Qed.

(** Every code word of rank [n + 1] is a string of [n + 1] binary digits. *)
Lemma iter_gray_step_words (n : nat) (s : string) :
  In s (Nat.iter n gray_step ["0"; "1"]%string) ->
  String.length s = S n /\ bitstring s = true.
Proof.
  revert s; induction n as [|n IH]; intros s Hs.
  - cbn in Hs. destruct Hs as [<-|[<-|[]]]; split; reflexivity.
  - rewrite Nat.iter_succ in Hs. unfold gray_step in Hs at 1.
    apply in_app_or in Hs.
    destruct Hs as [Hs|Hs]; apply in_map_iff in Hs;
      destruct Hs as (t & <- & Ht); [|apply in_rev in Ht];
      destruct (IH _ Ht) as [Hl Hb]; cbn; rewrite Hl, Hb; split; reflexivity.
Qed.

Lemma iter_gray_step_first (n : nat) :
  code_at (Nat.iter n gray_step ["0"; "1"]%string) 0 = zeros (S n).
Proof.
  induction n as [|n IH]; [reflexivity|].
  rewrite Nat.iter_succ. rewrite code_at_gray_step_lo, IH; [reflexivity|].
  rewrite iter_gray_step_length. pose proof (Nat.pow_nonzero 2 (S n)). lia.
Qed.

End GrayFacts.

Module GrayClaims.
Import GrayCode GrayFacts.

Lemma gray_code_low_rank (r : Z) : r <= 1 -> gray_code r = ["0"; "1"]%string.
Proof. intros H. unfold gray_code. apply gray_code_recurse_le. lia. Qed.

Lemma gray_code_max (r : Z) : gray_code r = gray_code (Z.max r 1).
Proof.
  destruct (Z.le_gt_cases r 1) as [H|H].
  - rewrite Z.max_r by lia. now rewrite !gray_code_low_rank by lia.
  - now rewrite Z.max_l by lia.
Qed.

Example gray_code_2 : gray_code 2 = ["00"; "01"; "11"; "10"]%string.
Proof. reflexivity. Qed.

Example gray_code_3 :
  gray_code 3
  = ["000"; "001"; "011"; "010"; "110"; "111"; "101"; "100"]%string.
Proof. reflexivity. Qed.

(** C5, as stated, fails at rank 0: the code returned for rank 0 has two
    entries, not [2^0 = 1], and its first entry is ["0"], of bit-length one,
    not the empty all-zeros string of bit-length zero. *)
Lemma gray_code_rank0_counterexample :
  Z.of_nat (List.length (gray_code 0)) <> 2 ^ 0
  /\ code_at (gray_code 0) 0 <> zeros 0.
Proof. split; vm_compute; discriminate. Qed.

(** C5, amended: for every rank [r >= 0] the generated code is the Gray code
    of [max r 1] bits: it has [2 ^ max r 1] entries, each a string of
    [max r 1] binary digits; every cyclically adjacent pair of entries (the
    last and the first included) differs in exactly one bit position; and the
    first entry is the all-zeros string of bit-length [max r 1].  For
    [r >= 1] this is the claim as stated; rank 0 yields the code of rank 1,
    of length 2. *)
Theorem gray_code_spec (r : Z) :
  0 <= r ->
  let g := gray_code r in
  let m := Z.max r 1 in
  Z.of_nat (List.length g) = 2 ^ m
  /\ (forall s, In s g -> Z.of_nat (String.length s) = m /\ bitstring s = true)
  /\ cyclic_gray g
  /\ code_at g 0 = zeros (Z.to_nat m).
Proof.
  intros Hr g m. subst g. rewrite gray_code_max. fold m.
  assert (H1 : 1 <= m) by apply Z.le_max_r. clearbody m.
  destruct (Z_of_nat_complete (m - 1)) as [n Hn]; [lia|].
  assert (Hm : m = Z.of_nat (S n)) by lia. subst m.
  rewrite gray_code_iter, Nat2Z.id.
  split; [|split; [|split]].
  - now rewrite iter_gray_step_length, Nat2Z.inj_pow.
  - intros s Hs. apply iter_gray_step_words in Hs. split; [lia | tauto].
  - apply iter_gray_step_cyclic.
  - apply iter_gray_step_first.
Qed.

Lemma gray_code_spec_witness :
  0 <= 3
  /\ (let g := gray_code 3 in
      let m := Z.max 3 1 in
      Z.of_nat (List.length g) = 2 ^ m
      /\ (forall s, In s g ->
                    Z.of_nat (String.length s) = m /\ bitstring s = true)
      /\ cyclic_gray g
      /\ code_at g 0 = zeros (Z.to_nat m)).
Proof. split; [lia | apply (gray_code_spec 3); lia]. Defined.

(** C9, as stated, fails: a negative rank is not rejected.  The call
    [gray_code(-1)] returns the two-entry code. *)
Lemma gray_code_negative_rank_counterexample :
  gray_code_call (-1) = Ok ["0"; "1"]%string
  /\ ~ (exists e, gray_code_call (-1) = Raise e).
Proof. split; [reflexivity | intros [e H]; discriminate H]. Qed.

(** C9, amended: [gray_code] has no failure mode at all.  For every integer
    rank, negative ranks included, the call returns normally, and what it
    returns is the code of rank [max r 1]; so every rank [r <= 1] yields the
    code of rank 1, which is the two-entry code ["0"; "1"]. *)
Theorem gray_code_never_fails (r : Z) :
  gray_code_call r = Ok (gray_code (Z.max r 1))
  /\ gray_code 1 = ["0"; "1"]%string.
Proof.
  split.
  - unfold gray_code_call. now rewrite <- gray_code_max.
  - apply gray_code_low_rank. lia.
Qed.

End GrayClaims.

(** ** Ranges *)

Section RangeFacts.

Lemma range_length (a b : Z) : List.length (range a b) = Z.to_nat (b - a).
Proof. unfold range. now rewrite length_map, length_seq. Qed.

Lemma range_0_nat (n : nat) : range 0 (Z.of_nat n) = map Z.of_nat (seq 0 n).
Proof.
  unfold range. rewrite Z.sub_0_r, Nat2Z.id. reflexivity.
Qed.

Lemma in_range (a b x : Z) : In x (range a b) <-> a <= x < b.
Proof.
  unfold range. rewrite in_map_iff. split.
  - intros (i & <- & Hi). apply in_seq in Hi. lia.
  - intros H. exists (Z.to_nat (x - a)). split; [lia|]. apply in_seq. lia.
Qed.

Lemma nth_range (a b d : Z) (i : nat) :
  (i < Z.to_nat (b - a))%nat -> nth i (range a b) d = a + Z.of_nat i.
Proof.
  intros H. unfold range.
  rewrite (nth_indep _ d (a + Z.of_nat 0))
    by now rewrite length_map, length_seq.
  rewrite (map_nth (fun i => a + Z.of_nat i)), seq_nth by lia.
  reflexivity.
Qed.

Lemma range_empty (a b : Z) : b <= a -> range a b = [].
Proof.
  intros H. unfold range. replace (Z.to_nat (b - a)) with 0%nat by lia.
  reflexivity.
Qed.

Lemma range_cons (a b : Z) : a < b -> range a b = a :: range (a + 1) b.
Proof.
  intros H. unfold range.
  replace (Z.to_nat (b - a)) with (S (Z.to_nat (b - (a + 1)))) by lia.
  cbn [seq map]. f_equal; [lia|].
  rewrite <- seq_shift, map_map. apply map_ext. intros i. lia.
Qed.

Lemma range_snoc (a b : Z) : a <= b -> range a (b + 1) = range a b ++ [b].
Proof.
  intros H. unfold range.
  replace (Z.to_nat (b + 1 - a)) with (S (Z.to_nat (b - a))) by lia.
  rewrite seq_S, map_app. cbn [map]. do 2 f_equal. lia.
Qed.

End RangeFacts.

(** ** _matrix_M_entry and _compute_theta *)

Module Theta.

Local Open Scope R_scope.

Lemma count_ones_ge (b s : Z) : (s <= count_ones b s)%Z.
Proof.
  funelim (count_ones b s).
  - destruct (Z.land b_and_g 1 =? 0)%Z; lia.
  - lia.
Qed.

Lemma pow_minus_one (n : Z) : (0 <= n)%Z -> ((-1) ^ n = 1 \/ (-1) ^ n = -1)%Z.
Proof.
  intros H. pattern n. apply natlike_ind; [now left | | exact H].
  intros x Hx IH. rewrite Z.pow_succ_r by exact Hx. lia.
Qed.

Lemma matrix_M_entry_sign (row col : Z) :
  _matrix_M_entry row col = 1%Z \/ _matrix_M_entry row col = (-1)%Z.
Proof. unfold _matrix_M_entry. apply pow_minus_one, count_ones_ge. Qed.

Lemma map2_map_seq {A B D} (d : B) (g : A -> B -> D) (f : nat -> A)
    (l : list B) (s : nat) :
  map2 g (map f (seq s (List.length l))) l
  = map (fun j => g (f j) (nth (j - s) l d)) (seq s (List.length l)).
Proof.
  revert s; induction l as [|x l IH]; intros s; [reflexivity|].
  cbn [List.length seq map map2]. rewrite Nat.sub_diag. cbn [nth].
  f_equal. rewrite IH. apply map_ext_in. intros j Hj. apply in_seq in Hj.
  replace (j - s)%nat with (S (j - S s)) by lia. reflexivity.
Qed.

Lemma ln_2_pos : 0 < ln 2.
Proof. rewrite <- ln_1. apply ln_increasing; lra. Qed.

Lemma Rpower_2_log2R (x : R) : 0 < x -> Rpower 2 (log2R x) = x.
Proof.
  intros H. unfold Rpower, log2R.
  replace (ln x / ln 2 * ln 2) with (ln x)
    by (field; pose proof ln_2_pos; lra).
  now apply exp_ln.
Qed.

(** [_compute_theta] in closed form, for an array of any length. *)
Lemma compute_theta_closed_form (alpha : list R) :
  _compute_theta alpha = scaled_matvec M_code alpha.
Proof.
  unfold _compute_theta, scaled_matvec, matvec.
  destruct alpha as [|a0 alpha']; [reflexivity|].
  set (alpha := a0 :: alpha').
  rewrite Rpower_2_log2R by (apply lt_0_INR; cbn; lia).
  f_equal. rewrite map_map. apply map_ext. intros i.
  rewrite range_0_nat, !map_map.
  rewrite (map2_map_seq 0 Rmult (fun j => IZR (_matrix_M_entry (Z.of_nat j) i))).
  f_equal. apply map_ext. intros j.
  now rewrite Nat.sub_0_r, Nat2Z.id.
Qed.

(** Evaluation of the integer parts of a closed example. *)
Ltac eval_ranges :=
  repeat match goal with
         | |- context [range ?a ?b] =>
             let v := eval vm_compute in (range a b) in
             change (range a b) with v
         end.

Ltac eval_entries :=
  repeat match goal with
         | |- context [_matrix_M_entry ?a ?b] =>
             let v := eval vm_compute in (_matrix_M_entry a b) in
             change (_matrix_M_entry a b) with v
         end.

Ltac eval_matvec :=
  unfold scaled_matvec, matvec, M_code, M_claimed; eval_ranges;
  cbn [map]; eval_entries; simpl; repeat (f_equal; try lra).

Example compute_theta_single : _compute_theta [1] = [1].
Proof. rewrite compute_theta_closed_form. eval_matvec. Qed.

(** C2, as stated, fails: for the one-entry AlphaVector [[1]] the matrix of
    the claim, [M[0][0] = entry(1, 1) = -1], gives [[-1]], while the code
    computes [[1]]. *)
Lemma compute_theta_claimed_matrix_counterexample :
  _compute_theta [1] = [1]
  /\ scaled_matvec M_claimed [1] = [-1]
  /\ _compute_theta [1] <> scaled_matvec M_claimed [1].
Proof.
  assert (H : scaled_matvec M_claimed [1] = [-1]).
  { eval_matvec. }
  split; [exact compute_theta_single|]. split; [exact H|].
  rewrite compute_theta_single, H. intros E. injection E. lra.
Qed.

End Theta.

(** ** _get_alpha_z and _get_alpha_y *)

Module Alpha.

Lemma bindR_Ok {A B} (a : A) (k : A -> result B) : bindR (Ok a) k = k a.
Proof. reflexivity. Qed.

Lemma mapR_Ok {A B} (f : A -> result B) (g : A -> B) (l : list A) :
  (forall x, In x l -> f x = Ok (g x)) -> mapR f l = Ok (map g l).
Proof.
  induction l as [|x l IH]; intros H; [reflexivity|].
  cbn [mapR map]. rewrite (H x) by now left. cbn [bindR].
  rewrite IH by (intros y Hy; apply H; now right). reflexivity.
Qed.

Lemma getitem_Ok {A} (d : A) (l : list A) (i : Z) :
  0 <= i < Z.of_nat (List.length l) ->
  getitem l i = Ok (nth (Z.to_nat i) l d).
Proof.
  intros H. unfold getitem.
  destruct (Z.ltb_spec i 0) as [Hlt|_]; [lia|].
  destruct (nth_error l (Z.to_nat i)) as [x|] eqn:E.
  - now rewrite (nth_error_nth _ _ d E).
  - apply nth_error_None in E. lia.
Qed.

Lemma take1_Ok (a : list R) (i : Z) :
  0 <= i < Z.of_nat (List.length a) -> take1 a i = Ok (item a i).
Proof.
  intros H. unfold take1.
  destruct (Z.leb_spec 0 i); [|lia].
  destruct (Z.ltb_spec i (Z.of_nat (List.length a))); [|lia].
  cbn [andb]. now apply getitem_Ok.
Qed.

Lemma take_Ok (a : list R) (indices : list (list Z)) :
  (forall row i, In row indices -> In i row ->
                 0 <= i < Z.of_nat (List.length a)) ->
  take a indices = Ok (map (map (item a)) indices).
Proof.
  intros H. unfold take. apply mapR_Ok. intros row Hrow.
  apply mapR_Ok. intros i Hi. apply take1_Ok. eauto.
Qed.

Lemma map2_map_map {A B D E} (f : B -> D -> E) (g : A -> B) (h : A -> D)
    (l : list A) :
  map2 f (map g l) (map h l) = map (fun x => f (g x) (h x)) l.
Proof. induction l as [|x l IH]; cbn; [reflexivity | now rewrite IH]. Qed.

Lemma nth_map_range {A} (f : Z -> A) (d : A) (a b i : Z) :
  a <= i < b -> nth (Z.to_nat (i - a)) (map f (range a b)) d = f i.
Proof.
  intros H.
  rewrite (nth_indep _ d (f 0)) by (rewrite length_map, range_length; lia).
  rewrite map_nth, nth_range by lia. f_equal. lia.
Qed.

(** The block sizes of the index tables: with [P = 2^(k-1)] and
    [Q = 2^(n-k)], [2^k = 2 P] and [2^n = 2 P Q]. *)
Lemma block_sizes (n k : Z) :
  1 <= k <= n ->
  0 < 2 ^ (k - 1) /\ 0 < 2 ^ (n - k)
  /\ 2 ^ k = 2 * 2 ^ (k - 1)
  /\ 2 ^ n = 2 * 2 ^ (k - 1) * 2 ^ (n - k).
Proof.
  intros H. repeat split.
  - apply Z.pow_pos_nonneg; lia.
  - apply Z.pow_pos_nonneg; lia.
  - replace k with (Z.succ (k - 1)) at 1 by lia.
    rewrite Z.pow_succ_r by lia. reflexivity.
  - replace n with (Z.succ (k - 1) + (n - k)) at 1 by lia.
    rewrite Z.pow_add_r, Z.pow_succ_r by lia. reflexivity.
Qed.

Lemma guard_passes (n k : Z) :
  1 <= k <= n -> ((n <? k) || (k <? 1))%bool = false.
Proof.
  intros H. destruct (Z.ltb_spec n k); [lia|].
  destruct (Z.ltb_spec k 1); [lia|]. reflexivity.
Qed.

(** [_get_alpha_z] returns, and what it returns, in closed form. *)
Lemma get_alpha_z_closed_form (omega : list R) (n k : Z) :
  1 <= k <= n ->
  Z.of_nat (List.length omega) = 2 ^ n ->
  _get_alpha_z omega n k
  = Ok (map (fun j =>
               sumR (map (fun l =>
                            ((item omega ((2 * j - 1) * 2 ^ (k - 1) + l - 1)
                              - item omega ((2 * j - 2) * 2 ^ (k - 1) + l - 1))
                             / IZR (2 ^ (k - 1)))%R)
                         (range 1 (2 ^ (k - 1) + 1))))
            (range 1 (2 ^ (n - k) + 1))).
Proof.
  intros Hk Hlen. unfold _get_alpha_z. rewrite guard_passes by exact Hk.
  destruct (block_sizes n k Hk) as (HP & HQ & _ & Hn).
  set (P := 2 ^ (k - 1)) in *. set (Q := 2 ^ (n - k)) in *.
  rewrite !take_Ok.
  - cbn [bindR]. f_equal. unfold sum_axis1.
    rewrite !map_map, map2_map_map, !map_map. apply map_ext. intros j.
    now rewrite !map_map, map2_map_map, !map_map.
  - intros row i Hrow Hi. apply in_map_iff in Hrow as (j & <- & Hj).
    apply in_map_iff in Hi as (l & <- & Hl).
    apply in_range in Hj, Hl. nia.
  - intros row i Hrow Hi. apply in_map_iff in Hrow as (j & <- & Hj).
    apply in_map_iff in Hi as (l & <- & Hl).
    apply in_range in Hj, Hl. nia.
Qed.

Lemma map_sq_abs {A} (f : A -> R) (l : list A) :
  map (fun x => (Rabs (f x) ^ 2)%R) l = map (fun x => (f x ^ 2)%R) l.
Proof. apply map_ext. intros x. apply pow2_abs. Qed.

(** [_get_alpha_y] returns, and what it returns, in closed form. *)
Lemma get_alpha_y_closed_form (a : list R) (n k : Z) :
  1 <= k <= n ->
  Z.of_nat (List.length a) = 2 ^ n ->
  _get_alpha_y a n k
  = Ok (map (fun j =>
               let num :=
                 sumR (map (fun l =>
                              (item a ((2 * j + 1) * 2 ^ (k - 1) + l) ^ 2)%R)
                           (range 0 (2 ^ (k - 1)))) in
               let den :=
                 sumR (map (fun l => (item a (j * 2 ^ k + l) ^ 2)%R)
                           (range 0 (2 ^ k))) in
               (2 * asin (sqrt (if nonzero den then num / den else 0)))%R)
            (range 0 (2 ^ (n - k)))).
Proof.
  intros Hk Hlen. unfold _get_alpha_y. rewrite guard_passes by exact Hk.
  destruct (block_sizes n k Hk) as (HP & HQ & Hk2 & Hn).
  set (P := 2 ^ (k - 1)) in *. set (Q := 2 ^ (n - k)) in *.
  rewrite !take_Ok.
  - cbn [bindR]. f_equal. unfold sum_axis1.
    rewrite !map_map, map2_map_map, !map_map. apply map_ext. intros j.
    rewrite !map_map.
    replace (2 * (j + 1) - 1) with (2 * j + 1) by lia.
    now rewrite !map_sq_abs.
  - intros row i Hrow Hi. apply in_map_iff in Hrow as (j & <- & Hj).
    apply in_map_iff in Hi as (l & <- & Hl).
    apply in_range in Hj, Hl. nia.
  - intros row i Hrow Hi. apply in_map_iff in Hrow as (j & <- & Hj).
    apply in_map_iff in Hi as (l & <- & Hl).
    apply in_range in Hj, Hl. nia.
Qed.

End Alpha.

Module AlphaClaims.
Import Alpha.

Local Open Scope R_scope.

Lemma item_map_range0 (f : Z -> R) (b i : Z) :
  (0 <= i < b)%Z -> item (map f (range 0 b)) i = f i.
Proof.
  intros H. unfold item. rewrite <- (Z.sub_0_r i) at 1.
  now apply nth_map_range.
Qed.

Lemma item_map_range1 (f : Z -> R) (b j : Z) :
  (1 <= j <= b)%Z -> item (map f (range 1 (b + 1))) (j - 1) = f j.
Proof. intros H. unfold item. apply nth_map_range. lia. Qed.

Lemma length_map_range {A} (f : Z -> A) (a b : Z) :
  (a <= b)%Z -> Z.of_nat (List.length (map f (range a b))) = (b - a)%Z.
Proof. intros H. rewrite length_map, range_length. lia. Qed.

(** C6: for [n >= 1], [1 <= k <= n] and a phase vector [omega] of length
    [2^n], [alpha_z(omega, n, k)] returns a vector of length [2^(n-k)] whose
    0-based entry [j-1], for [j] in [1..2^(n-k)], is the sum over [l] in
    [1..2^(k-1)] of
    [(omega[(2j-1)*2^(k-1)+l-1] - omega[(2j-2)*2^(k-1)+l-1]) / 2^(k-1)]. *)
Theorem get_alpha_z_spec (omega : list R) (n k : Z) :
  (1 <= n)%Z -> (1 <= k <= n)%Z ->
  Z.of_nat (List.length omega) = (2 ^ n)%Z ->
  exists alpha,
    _get_alpha_z omega n k = Ok alpha
    /\ Z.of_nat (List.length alpha) = (2 ^ (n - k))%Z
    /\ forall j, (1 <= j <= 2 ^ (n - k))%Z ->
         item alpha (j - 1)
         = sumR (map (fun l =>
                        (item omega ((2 * j - 1) * 2 ^ (k - 1) + l - 1)
                         - item omega ((2 * j - 2) * 2 ^ (k - 1) + l - 1))
                        / IZR (2 ^ (k - 1)))
                     (range 1 (2 ^ (k - 1) + 1))).
Proof.
  intros _ Hk Hlen. eexists. split; [|split].
  - now apply get_alpha_z_closed_form.
  - rewrite length_map_range; [lia|].
    destruct (block_sizes n k Hk) as (_ & HQ & _). lia.
  - intros j Hj. now rewrite item_map_range1.
Qed.

Lemma get_alpha_z_spec_witness :
  (1 <= 1)%Z /\ (1 <= 1 <= 1)%Z
  /\ Z.of_nat (List.length [0; 1]) = (2 ^ 1)%Z
  /\ exists alpha,
      _get_alpha_z [0; 1] 1 1 = Ok alpha
      /\ Z.of_nat (List.length alpha) = (2 ^ (1 - 1))%Z
      /\ forall j, (1 <= j <= 2 ^ (1 - 1))%Z ->
           item alpha (j - 1)
           = sumR (map (fun l =>
                          (item [0; 1] ((2 * j - 1) * 2 ^ (1 - 1) + l - 1)
                           - item [0; 1] ((2 * j - 2) * 2 ^ (1 - 1) + l - 1))
                          / IZR (2 ^ (1 - 1)))
                       (range 1 (2 ^ (1 - 1) + 1))).
Proof.
  split; [lia|]. split; [lia|]. split; [reflexivity|].
  apply (get_alpha_z_spec [0; 1] 1 1); [lia | lia | reflexivity].
Defined.

(** C4: for [n >= 1], [1 <= k <= n] and an amplitude vector [a] of length
    [2^n], [alpha_y(a, n, k)] returns a vector of length [2^(n-k)] whose
    entry [j] is [2 * arcsin(sqrt(numerator[j] / denominator[j]))], with
    [numerator[j]] the sum of [a[(2j+1)*2^(k-1) + l]^2] over [l] in
    [0..2^(k-1)-1] and [denominator[j]] the sum of [a[j*2^k + l]^2] over [l]
    in [0..2^k-1]; where [denominator[j] = 0] the entry is [0]. *)
Theorem get_alpha_y_spec (a : list R) (n k : Z) :
  (1 <= n)%Z -> (1 <= k <= n)%Z ->
  Z.of_nat (List.length a) = (2 ^ n)%Z ->
  exists alpha,
    _get_alpha_y a n k = Ok alpha
    /\ Z.of_nat (List.length alpha) = (2 ^ (n - k))%Z
    /\ forall j, (0 <= j < 2 ^ (n - k))%Z ->
         let numerator :=
           sumR (map (fun l => item a ((2 * j + 1) * 2 ^ (k - 1) + l) ^ 2)
                     (range 0 (2 ^ (k - 1)))) in
         let denominator :=
           sumR (map (fun l => item a (j * 2 ^ k + l) ^ 2)
                     (range 0 (2 ^ k))) in
         (denominator <> 0 ->
          item alpha j = 2 * asin (sqrt (numerator / denominator)))
         /\ (denominator = 0 -> item alpha j = 0).
Proof.
  intros _ Hk Hlen. eexists. split; [|split].
  - now apply get_alpha_y_closed_form.
  - rewrite length_map_range; [lia|].
    destruct (block_sizes n k Hk) as (_ & HQ & _). lia.
  - intros j Hj numerator denominator.
    rewrite item_map_range0 by exact Hj. cbv zeta.
    fold numerator denominator. unfold nonzero.
    destruct (Req_dec_T denominator 0) as [E|E]; split; intros H;
      try contradiction; try reflexivity.
    rewrite sqrt_0, asin_0. lra.
Qed.

Lemma get_alpha_y_spec_witness :
  (1 <= 1)%Z /\ (1 <= 1 <= 1)%Z
  /\ Z.of_nat (List.length [0; 1]) = (2 ^ 1)%Z
  /\ exists alpha,
      _get_alpha_y [0; 1] 1 1 = Ok alpha
      /\ Z.of_nat (List.length alpha) = (2 ^ (1 - 1))%Z
      /\ forall j, (0 <= j < 2 ^ (1 - 1))%Z ->
           let numerator :=
             sumR (map (fun l => item [0; 1] ((2 * j + 1) * 2 ^ (1 - 1) + l) ^ 2)
                       (range 0 (2 ^ (1 - 1)))) in
           let denominator :=
             sumR (map (fun l => item [0; 1] (j * 2 ^ 1 + l) ^ 2)
                       (range 0 (2 ^ 1))) in
           (denominator <> 0 ->
            item alpha j = 2 * asin (sqrt (numerator / denominator)))
           /\ (denominator = 0 -> item alpha j = 0).
Proof.
  split; [lia|]. split; [lia|]. split; [reflexivity|].
  apply (get_alpha_y_spec [0; 1] 1 1); [lia | lia | reflexivity].
Defined.

Lemma in_range_n_to_1 (n k : Z) : In k (range_n_to_1 n) <-> (1 <= k <= n)%Z.
Proof.
  unfold range_n_to_1. rewrite <- in_rev, in_range. lia.
Qed.



End AlphaClaims.

(** ** Code words as integers *)

Module Words.
Import GrayCode GrayFacts.

Lemma lxor_double_bit (a a' : Z) (x y : bool) :
  Z.lxor (2 * a + Z.b2z x) (2 * a' + Z.b2z y)
  = 2 * Z.lxor a a' + Z.b2z (xorb x y).
Proof.
  apply Z.bits_inj'. intros n Hn. rewrite Z.lxor_spec.
  destruct (Z.eq_dec n 0) as [->|Hne].
  - now rewrite !Z.testbit_0_r.
  - replace n with (Z.succ (n - 1)) by lia.
    rewrite !Z.testbit_succ_r by lia. now rewrite Z.lxor_spec.
Qed.

Lemma int2_digits_cons (acc : Z) (c : ascii) (s : string) :
  bitstring (String c s) = true ->
  int2_digits acc (String c s) = int2_digits (2 * acc + Z.b2z (digit c)) s
  /\ bitstring s = true.
Proof.
  cbn [bitstring int2_digits]. unfold digit. intros H.
  apply andb_prop in H as [Hc Hs]. split; [|exact Hs].
  destruct (Ascii.eqb_spec c "0") as [->|H0].
  - cbn. now rewrite Z.add_0_r.
  - destruct (Ascii.eqb c "1"); [reflexivity | discriminate].
Qed.

Lemma bit_char (c : ascii) :
  (Ascii.eqb c "0" || Ascii.eqb c "1")%bool = true ->
  c = "0"%char \/ c = "1"%char.
Proof.
  intros H. apply orb_prop in H as [H|H]; apply Ascii.eqb_eq in H; auto.
Qed.

Lemma digit_eqb (c d : ascii) :
  (Ascii.eqb c "0" || Ascii.eqb c "1")%bool = true ->
  (Ascii.eqb d "0" || Ascii.eqb d "1")%bool = true ->
  xorb (digit c) (digit d) = negb (Ascii.eqb c d).
Proof.
  intros Hc Hd.
  destruct (bit_char c Hc) as [-> | ->], (bit_char d Hd) as [-> | ->];
    reflexivity.
Qed.

(** Reading two bit strings of equal length digit by digit: both readings
    succeed, and the XOR of the results is determined by where the strings
    differ. *)
Lemma int2_digits_pair (s : string) :
  forall (t : string) (acc acc' : Z),
    bitstring s = true -> bitstring t = true ->
    String.length s = String.length t ->
    exists a b,
      int2_digits acc s = Ok a /\ int2_digits acc' t = Ok b
      /\ (hamming s t = 0%nat ->
          Z.lxor a b = Z.lxor acc acc' * 2 ^ Z.of_nat (String.length s))
      /\ (hamming s t = 1%nat -> Z.lxor acc acc' = 0 ->
          exists c, 0 <= c < Z.of_nat (String.length s) /\ Z.lxor a b = 2 ^ c).
Proof.
  induction s as [|c s IH]; intros [|d t] acc acc' Hs Ht Hlen;
    try discriminate Hlen.
  - exists acc, acc'. cbn. split; [reflexivity|]. split; [reflexivity|].
    split; [intros _; lia | discriminate].
  - destruct (int2_digits_cons acc c s Hs) as [Es Hs'].
    destruct (int2_digits_cons acc' d t Ht) as [Et Ht'].
    assert (Hx : xorb (digit c) (digit d) = negb (Ascii.eqb c d)).
    { cbn [bitstring] in Hs, Ht.
      apply andb_prop in Hs as [Hc _]. apply andb_prop in Ht as [Hd _].
      now apply digit_eqb. }
    injection Hlen as Hlen.
    destruct (IH t (2 * acc + Z.b2z (digit c)) (2 * acc' + Z.b2z (digit d))
                Hs' Ht' Hlen) as (a & b & Ea & Eb & H0 & H1).
    rewrite lxor_double_bit, Hx in H0, H1.
    exists a, b. rewrite Es, Et. split; [exact Ea|]. split; [exact Eb|].
    cbn [hamming String.length]. rewrite Nat2Z.inj_succ, Z.pow_succ_r by lia.
    destruct (Ascii.eqb c d); cbn [negb Z.b2z Nat.add] in *.
    + split.
      * intros Hh. rewrite (H0 Hh). lia.
      * intros Hh Hacc. destruct (H1 Hh) as (k & Hk & Ek); [lia|].
        exists k. split; [lia | exact Ek].
    + split; [discriminate|].
      intros Hh Hacc. exists (Z.of_nat (String.length s)).
      split; [lia|]. rewrite H0 by lia. rewrite Hacc. lia.
Qed.

(** Two code words one bit apart denote integers whose XOR is a power of
    two, with an exponent below the word length. *)
Lemma one_bit_apart_xor (s t : string) :
  bitstring s = true -> bitstring t = true ->
  s <> EmptyString -> one_bit_apart s t ->
  exists a b c,
    int_base2 s = Ok a /\ int_base2 t = Ok b
    /\ 0 <= c < Z.of_nat (String.length s) /\ Z.lxor a b = 2 ^ c.
Proof.
  intros Hs Ht Hne [Hlen Hh].
  destruct (int2_digits_pair s t 0 0 Hs Ht Hlen)
    as (a & b & Ea & Eb & _ & H1).
  destruct (H1 Hh eq_refl) as (c & Hc & Ec).
  exists a, b, c.
  destruct s as [|x s]; [congruence|].
  destruct t as [|y t]; [discriminate Hlen|].
  unfold int_base2. auto.
Qed.

End Words.

(** ** _uniform_rotation_dagger *)

Module Expander.
Import GrayCode GrayFacts Words Alpha.

(** The code of a rank of at least one. *)
Lemma gray_code_facts (r : Z) :
  1 <= r ->
  Z.of_nat (List.length (gray_code r)) = 2 ^ r
  /\ cyclic_gray (gray_code r)
  /\ (forall s, In s (gray_code r) ->
                Z.of_nat (String.length s) = r /\ bitstring s = true).
Proof.
  intros Hr. destruct (Z_of_nat_complete (r - 1)) as [n Hn]; [lia|].
  assert (Hm : r = Z.of_nat (S n)) by lia. subst r.
  rewrite gray_code_iter. split; [|split].
  - now rewrite iter_gray_step_length, Nat2Z.inj_pow.
  - apply iter_gray_step_cyclic.
  - intros s Hs. apply iter_gray_step_words in Hs. split; [lia | tauto].
Qed.

Lemma compute_theta_length (alpha : list R) :
  List.length (_compute_theta alpha) = List.length alpha.
Proof.
  unfold _compute_theta. rewrite !length_map, range_length. lia.
Qed.

Lemma succ_mod_to_nat (i : Z) (L : nat) :
  0 <= i -> (0 < L)%nat ->
  Z.to_nat ((i + 1) mod Z.of_nat L) = (S (Z.to_nat i) mod L)%nat.
Proof.
  intros Hi HL. apply Nat2Z.inj.
  rewrite Nat2Z.inj_mod, Z2Nat.id by (apply Z.mod_pos_bound; lia).
  f_equal. lia.
Qed.

(** One control index: the body of the list comprehension returns, and
    returns a position among the control wires. *)
Lemma control_index_computed (r i : Z) :
  1 <= r -> 0 <= i < 2 ^ r ->
  let code := gray_code r in
  let num_selections := Z.of_nat (List.length code) in
  (let* ci := getitem code i in
   let* ci1 := getitem code ((i + 1) mod num_selections) in
   let* a := int_base2 ci in
   let* b := int_base2 ci1 in
   int_log2 (Z.lxor a b)) = Ok (control_index code i)
  /\ 0 <= control_index code i < r.
Proof.
  intros Hr Hi code num_selections.
  destruct (gray_code_facts r Hr) as (Hlen & Hcyc & Hwords).
  fold code in Hlen, Hcyc, Hwords. fold num_selections in Hlen.
  assert (Hi' : (Z.to_nat i < List.length code)%nat) by lia.
  assert (Hm : 0 <= (i + 1) mod num_selections < num_selections)
    by (apply Z.mod_pos_bound; lia).
  rewrite (getitem_Ok EmptyString) by (fold num_selections; lia).
  rewrite (getitem_Ok EmptyString) by (fold num_selections; lia).
  cbn [bindR]. fold (code_at code (Z.to_nat i)).
  fold (code_at code (Z.to_nat ((i + 1) mod num_selections))).
  unfold control_index. fold num_selections.
  pose proof (Hcyc _ Hi') as Hapart.
  unfold num_selections in Hapart |- *.
  rewrite succ_mod_to_nat by lia.
  set (s := code_at code (Z.to_nat i)) in *.
  set (t := code_at code (S (Z.to_nat i) mod List.length code)) in *.
  assert (Hs : In s code) by (apply nth_In; lia).
  assert (Ht : In t code)
    by (apply nth_In, Nat.mod_upper_bound; lia).
  destruct (Hwords s Hs) as [Hsl Hsb]. destruct (Hwords t Ht) as [_ Htb].
  assert (Hne : s <> EmptyString)
    by (intros E; rewrite E in Hsl; cbn in Hsl; lia).
  destruct (one_bit_apart_xor s t Hsb Htb Hne Hapart)
    as (a & b & c & Ea & Eb & Hc & Ex).
  unfold int_of_word. rewrite Ea, Eb. cbn [bindR].
  rewrite Ex, Z.log2_pow2 by lia. unfold int_log2.
  destruct (Z.leb_spec (2 ^ c) 0) as [Hle|_].
  - assert (0 < 2 ^ c) by (apply Z.pow_pos_nonneg; lia). lia.
  - rewrite Z.log2_pow2 by lia. split; [reflexivity | lia].
Qed.

Section Emission.

Context {Wire : Type}.

Lemma for_each_emits {A} (body : A -> Tape Wire unit)
    (ops : A -> list (Operation Wire)) (l : list A) :
  (forall x q, In x l -> body x q = (Ok tt, q ++ ops x)) ->
  forall q, for_each l body q = (Ok tt, q ++ flat_map ops l).
Proof.
  induction l as [|x l IH]; intros H q; cbn [for_each flat_map].
  - unfold ret. now rewrite app_nil_r.
  - unfold bind. rewrite (H x q) by now left.
    rewrite IH by (intros y q' Hy; apply H; now right).
    now rewrite <- app_assoc.
Qed.

Lemma emit_if_nonzero (gate : rotation) (angle : R) (target : Wire)
    (q : list (Operation Wire)) :
  (if nonzero angle then emit (Rot gate angle target) else ret tt) q
  = (Ok tt, q ++ rotation_if_nonzero gate angle target).
Proof.
  unfold rotation_if_nonzero, emit, ret.
  destruct (nonzero angle); [reflexivity | now rewrite app_nil_r].
Qed.

Lemma enumerate_map_range {B} (f : Z -> B) (n : Z) :
  0 <= n ->
  enumerate (map f (range 0 n)) = map (fun i => (i, f i)) (range 0 n).
Proof.
  intros Hn. unfold enumerate. rewrite length_map, range_length.
  replace (Z.of_nat (Z.to_nat (n - 0))) with n by lia.
  induction (range 0 n) as [|x l IH]; cbn; [reflexivity | now rewrite IH].
Qed.

Lemma count_CNOT_flat_map {A} (ops : A -> list (Operation Wire)) (l : list A) :
  (forall x, In x l -> List.length (filter is_CNOT (ops x)) = 1%nat) ->
  List.length (filter is_CNOT (flat_map ops l)) = List.length l.
Proof.
  induction l as [|x l IH]; intros H; [reflexivity|].
  cbn [flat_map]. rewrite filter_app, length_app.
  rewrite (H x) by now left.
  rewrite IH by (intros y Hy; apply H; now right). reflexivity.
Qed.

(** The expander with at least one control wire. *)
Lemma uniform_rotation_with_controls (gate : rotation) (alpha : list R)
    (control_wires : list Wire) (target_wire : Wire)
    (q : list (Operation Wire)) :
  let r := Z.of_nat (List.length control_wires) in
  1 <= r ->
  2 ^ r <= Z.of_nat (List.length alpha) ->
  _uniform_rotation_dagger gate alpha control_wires target_wire q
  = (Ok tt,
     q ++ uniform_rotation_ops gate (_compute_theta alpha)
                               control_wires target_wire).
Proof.
  intros r Hr Hlen. unfold _uniform_rotation_dagger. fold r.
  destruct (Z.eqb_spec r 0) as [E|_]; [lia|].
  destruct (gray_code_facts r Hr) as (Hcode & _).
  set (code := gray_code r) in *. rewrite Hcode.
  unfold bind at 1. unfold lift at 1.
  rewrite (mapR_Ok _ (control_index code)).
  2:{ intros i Hi. apply in_range in Hi.
      pose proof (control_index_computed r i Hr) as H. cbv zeta in H.
      fold code in H. rewrite Hcode in H. apply H. lia. }
  assert (H2 : 0 < 2 ^ r) by (apply Z.pow_pos_nonneg; lia).
  rewrite enumerate_map_range by lia.
  unfold uniform_rotation_ops. fold r. fold code.
  rewrite (for_each_emits _
             (fun '(i, ci) =>
                rotation_if_nonzero gate (item (_compute_theta alpha) i)
                                    target_wire
                ++ [CNOT (nth (Z.to_nat ci) control_wires target_wire)
                         target_wire])).
  - now rewrite flat_map_concat_map, map_map, <- flat_map_concat_map.
  - intros [i ci] q' Hin. apply in_map_iff in Hin as (i' & E & Hi).
    injection E as -> <-. apply in_range in Hi.
    destruct (control_index_computed r i Hr ltac:(lia)) as [_ Hci].
    fold code in Hci.
    unfold bind, lift.
    rewrite (getitem_Ok 0%R)
      by (rewrite compute_theta_length; lia).
    fold (item (_compute_theta alpha) i).
    rewrite emit_if_nonzero.
    rewrite (getitem_Ok target_wire) by (fold r; lia).
    unfold emit. now rewrite <- app_assoc.
Qed.

(** The expander without control wires. *)
Lemma uniform_rotation_no_controls (gate : rotation) (alpha : list R)
    (target_wire : Wire) (q : list (Operation Wire)) :
  (1 <= List.length alpha)%nat ->
  _uniform_rotation_dagger gate alpha [] target_wire q
  = (Ok tt,
     q ++ rotation_if_nonzero gate (item (_compute_theta alpha) 0)
                              target_wire).
Proof.
  intros Hlen. unfold _uniform_rotation_dagger. cbn [List.length Z.of_nat].
  cbn [Z.eqb]. unfold bind, lift.
  rewrite (getitem_Ok 0%R) by (rewrite compute_theta_length; lia).
  fold (item (_compute_theta alpha) 0). apply emit_if_nonzero.
Qed.

Lemma nonzero_iff (x : R) : nonzero x = true <-> x <> 0%R.
Proof.
  unfold nonzero. destruct (Req_dec_T x 0); split; intros H;
    try reflexivity; try discriminate; try assumption; contradiction.
Qed.

(** C3: called with [r >= 1] control wires and an AlphaVector of length
    [2^r], the expander emits, for [i = 0 .. 2^r - 1] in order, the rotation
    of the given kind by [theta[i]] on the target exactly when
    [theta[i] != 0], then the bit flip controlled by
    [controlWires[controlIndices[i]]] on the target, where
    [controlIndices[i] = log2(code[i] XOR code[(i+1) mod 2^r])] is a valid
    position among the controls; exactly [2^r] bit flips are emitted.  Called
    with no control wire, it emits the single rotation by [theta[0]] when
    [theta[0] != 0] and nothing otherwise. *)
Theorem uniform_rotation_dagger_spec (gate : rotation) (alpha : list R)
    (control_wires : list Wire) (target_wire : Wire)
    (q : list (Operation Wire)) :
  let r := Z.of_nat (List.length control_wires) in
  let theta := _compute_theta alpha in
  let code := gray_code r in
  Z.of_nat (List.length alpha) = 2 ^ r ->
  (control_wires <> [] ->
   _uniform_rotation_dagger gate alpha control_wires target_wire q
   = (Ok tt,
      q ++ flat_map
             (fun i =>
                (if nonzero (item theta i)
                 then [Rot gate (item theta i) target_wire] else [])
                ++ [CNOT (nth (Z.to_nat (control_index code i))
                              control_wires target_wire)
                         target_wire])
             (range 0 (2 ^ r)))
   /\ (forall i, 0 <= i < 2 ^ r -> 0 <= control_index code i < r)
   /\ Z.of_nat (List.length
                  (filter is_CNOT
                     (uniform_rotation_ops gate theta control_wires
                                           target_wire))) = 2 ^ r)
  /\ (control_wires = [] ->
      _uniform_rotation_dagger gate alpha control_wires target_wire q
      = (Ok tt,
         q ++ (if nonzero (item theta 0)
               then [Rot gate (item theta 0) target_wire] else []))).
Proof.
  intros r theta code Hlen. split.
  - intros Hne.
    assert (Hr : 1 <= r)
      by (subst r; destruct control_wires; [congruence | cbn; lia]).
    split; [|split].
    + apply uniform_rotation_with_controls; fold r; lia.
    + intros i Hi. now apply control_index_computed.
    + unfold uniform_rotation_ops. rewrite count_CNOT_flat_map.
      * rewrite range_length. fold r.
        assert (0 < 2 ^ r) by (apply Z.pow_pos_nonneg; lia). lia.
      * intros i _. rewrite filter_app, length_app.
        unfold rotation_if_nonzero.
        destruct (nonzero (item theta i)); reflexivity.
  - intros ->. apply uniform_rotation_no_controls.
    cbn in Hlen. lia.
Qed.

End Emission.

Lemma uniform_rotation_dagger_spec_witness :
  let alpha := [0%R; 1%R] in
  let control_wires := [7%nat] in
  let r := Z.of_nat (List.length control_wires) in
  Z.of_nat (List.length alpha) = 2 ^ r
  /\ _uniform_rotation_dagger RY alpha control_wires 3%nat []
     = (Ok tt,
        flat_map
          (fun i =>
             (if nonzero (item (_compute_theta alpha) i)
              then [Rot RY (item (_compute_theta alpha) i) 3%nat] else [])
             ++ [CNOT (nth (Z.to_nat (control_index (gray_code r) i))
                           control_wires 3%nat)
                      3%nat])
          (range 0 (2 ^ r))).
Proof.
  intros alpha control_wires r. split; [reflexivity|].
  destruct (uniform_rotation_dagger_spec RY alpha control_wires 3%nat []
              eq_refl) as [H _].
  destruct H as [H _]; [discriminate|]. exact H.
Defined.

End Expander.

(** ** MottonenStatePreparation *)

Module Driver.
Import Alpha Expander AlphaClaims.

Section DriverFacts.

Context {Wire : Type} {Wire_eq : WireEq Wire}.

(** The set of the labels has as many elements as the list exactly when no
    label is repeated. *)
Lemma nodup_length (l : list Wire) :
  (List.length (nodup wire_eq_dec l) <= List.length l)%nat.
Proof.
  induction l as [|x l IH]; cbn [nodup List.length]; [lia|].
  destruct (in_dec wire_eq_dec x l); cbn [List.length]; lia.
Qed.

Lemma nodup_length_eq (l : list Wire) :
  List.length (nodup wire_eq_dec l) = List.length l <-> NoDup l.
Proof.
  split.
  - induction l as [|x l IH]; [constructor|].
    cbn [nodup List.length]. pose proof (nodup_length l).
    destruct (in_dec wire_eq_dec x l) as [Hin | Hin];
      cbn [List.length]; intros E; [lia|].
    constructor; [exact Hin | apply IH; lia].
  - intros H. now rewrite nodup_fixed_point.
Qed.

Lemma Wires_NoDup (wires : list Wire) :
  NoDup wires -> Wires wires = Ok wires.
Proof.
  intros H. unfold Wires.
  now rewrite (proj2 (Nat.eqb_eq _ _) (proj2 (nodup_length_eq wires) H)).
Qed.

Lemma Wires_repeated (wires : list Wire) :
  ~ NoDup wires -> Wires wires = Raise WireError.
Proof.
  intros H. unfold Wires.
  destruct (Nat.eqb_spec (List.length (nodup wire_eq_dec wires))
                         (List.length wires)) as [E|_]; [|reflexivity].
  exfalso. now apply H, nodup_length_eq.
Qed.

(** What [Wires] returns is the list it was given, free of repetitions. *)
Lemma Wires_Ok (wires wires' : list Wire) :
  Wires wires = Ok wires' -> wires' = wires /\ NoDup wires.
Proof.
  unfold Wires.
  destruct (Nat.eqb_spec (List.length (nodup wire_eq_dec wires))
                         (List.length wires)) as [E|_]; [|discriminate].
  intros H. injection H as <-. split; [reflexivity|].
  now apply nodup_length_eq.
Qed.

(** With a repeated wire the driver raises [WireError] before any other
    check, and queues nothing. *)
Lemma driver_repeated_wire (state_vector : list C) (wires : list Wire)
    (q : list (Operation Wire)) :
  ~ NoDup wires ->
  MottonenStatePreparation state_vector wires q = (Raise WireError, q).
Proof.
  intros H. unfold MottonenStatePreparation.
  unfold bind at 1. unfold lift at 1. now rewrite Wires_repeated.
Qed.

Lemma expander_total (gate : rotation) (alpha : list R)
    (control_wires : list Wire) (target_wire : Wire)
    (q : list (Operation Wire)) :
  Z.of_nat (List.length alpha) = 2 ^ Z.of_nat (List.length control_wires) ->
  _uniform_rotation_dagger gate alpha control_wires target_wire q
  = (Ok tt, q ++ expander_ops gate alpha control_wires target_wire).
Proof.
  intros Hlen. unfold expander_ops.
  destruct control_wires as [|c cw].
  - apply uniform_rotation_no_controls. cbn in Hlen. lia.
  - apply uniform_rotation_with_controls.
    + cbn [List.length]. lia.
    + lia.
Qed.

Lemma slice_from_length (l : list Wire) (k : Z) :
  0 <= k <= Z.of_nat (List.length l) ->
  Z.of_nat (List.length (slice_from l k)) = Z.of_nat (List.length l) - k.
Proof. intros H. unfold slice_from. rewrite length_skipn. lia. Qed.

(** One step of a cascade, when the angle computation returns a vector of
    the length the control set calls for. *)
Lemma cascade_step (gate : rotation) (alpha : result (list R))
    (alpha_k : list R) (wires_reverse : list Wire) (k : Z)
    (guard : list R -> bool) (q : list (Operation Wire)) :
  let n := Z.of_nat (List.length wires_reverse) in
  1 <= k <= n ->
  alpha = Ok alpha_k ->
  Z.of_nat (List.length alpha_k) = 2 ^ (n - k) ->
  guard alpha_k = true ->
  bind (lift alpha)
       (fun alpha_k =>
          let control := slice_from wires_reverse k in
          bind (lift (getitem wires_reverse (k - 1)))
               (fun target =>
                  if guard alpha_k
                  then _uniform_rotation_dagger gate alpha_k control target
                  else ret tt)) q
  = (Ok tt, q ++ cascade_step_ops gate alpha wires_reverse k).
Proof.
  intros n Hk -> Hlen Hguard. unfold bind, lift, cascade_step_ops.
  destruct (getitem wires_reverse (k - 1)) as [target|e] eqn:E.
  - rewrite Hguard. apply expander_total.
    rewrite slice_from_length by (fold n; lia). exact Hlen.
  - exfalso. unfold getitem in E.
    destruct (Z.ltb_spec (k - 1) 0); [lia|].
    destruct (nth_error wires_reverse (Z.to_nat (k - 1))) eqn:E';
      [discriminate|].
    apply nth_error_None in E'. lia.
Qed.

(** On accepted input the driver returns, having emitted the operations of
    the Y-cascade and then those of the Z-cascade. *)
Lemma driver_accepted (state_vector : list C) (wires : list Wire)
    (q : list (Operation Wire)) :
  accepted state_vector wires ->
  MottonenStatePreparation state_vector wires q
  = (Ok tt, q ++ state_preparation_ops state_vector wires).
Proof.
  intros (Hwires & Hshape & Hnorm). unfold MottonenStatePreparation.
  unfold bind at 1. unfold lift at 1. rewrite Wires_NoDup by exact Hwires.
  set (n := Z.of_nat (List.length wires)) in *.
  unfold bind at 1. unfold lift at 1. unfold check_shape.
  rewrite (proj2 (Z.eqb_eq _ _) Hshape).
  fold (squared_norm state_vector). rewrite Hnorm. cbn [negb].
  unfold state_preparation_ops. fold n.
  set (a := map Cabs state_vector). set (omega := map Cangle state_vector).
  assert (Ha : Z.of_nat (List.length a) = 2 ^ n)
    by (unfold a; now rewrite length_map).
  assert (Ho : Z.of_nat (List.length omega) = 2 ^ n)
    by (unfold omega; now rewrite length_map).
  assert (Hwr : Z.of_nat (List.length (rev wires)) = n)
    by (now rewrite length_rev).
  unfold bind at 1.
  rewrite (for_each_emits _
             (fun k => cascade_step_ops RY (_get_alpha_y a n k) (rev wires) k)).
  - rewrite (for_each_emits _
               (fun k => cascade_step_ops RZ (_get_alpha_z omega n k)
                                          (rev wires) k)).
    + now rewrite app_assoc.
    + intros k q' Hin. apply in_range_n_to_1 in Hin.
      destruct (block_sizes n k Hin) as (_ & HQ & _).
      eapply (cascade_step RZ _ _ (rev wires) k
                          (fun al => Z.of_nat (List.length al) >? 0)).
      * rewrite Hwr. exact Hin.
      * now apply get_alpha_z_closed_form.
      * rewrite Hwr, length_map_range by lia. lia.
      * rewrite length_map_range by lia. apply Z.gtb_lt. lia.
  - intros k q' Hin. apply in_range_n_to_1 in Hin.
    destruct (block_sizes n k Hin) as (_ & HQ & _).
    eapply (cascade_step RY _ _ (rev wires) k (fun _ => true)).
    + rewrite Hwr. exact Hin.
    + now apply get_alpha_y_closed_form.
    + rewrite Hwr. rewrite length_map_range by lia. lia.
    + reflexivity.
Qed.

Lemma Cabs_sq (z : C) : (Cabs z ^ 2 = fst z * fst z + snd z * snd z)%R.
Proof.
  unfold Cabs. apply pow2_sqrt.
  pose proof (Rle_0_sqr (fst z)). pose proof (Rle_0_sqr (snd z)).
  unfold Rsqr in *. lra.
Qed.

Lemma isclose_true (a b rtol atol : R) :
  (Rabs (a - b) <= atol + rtol * Rabs b)%R -> isclose a b rtol atol = true.
Proof.
  intros H. unfold isclose.
  destruct (Rle_dec (Rabs (a - b)) (atol + rtol * Rabs b));
    [reflexivity | contradiction].
Qed.

Lemma isclose_false (a b rtol atol : R) :
  (Rabs (a - b) > atol + rtol * Rabs b)%R -> isclose a b rtol atol = false.
Proof.
  intros H. unfold isclose.
  destruct (Rle_dec (Rabs (a - b)) (atol + rtol * Rabs b)); [lra | reflexivity].
Qed.

Lemma driver_bad_shape (state_vector : list C) (wires : list Wire)
    (q : list (Operation Wire)) :
  NoDup wires ->
  Z.of_nat (List.length state_vector) <> 2 ^ Z.of_nat (List.length wires) ->
  MottonenStatePreparation state_vector wires q
  = (Raise (ValueError bad_shape), q).
Proof.
  intros Hwires H. unfold MottonenStatePreparation, bind, lift, check_shape.
  rewrite Wires_NoDup by exact Hwires.
  now rewrite (proj2 (Z.eqb_neq _ _) H).
Qed.

Lemma driver_bad_norm (state_vector : list C) (wires : list Wire)
    (q : list (Operation Wire)) :
  NoDup wires ->
  Z.of_nat (List.length state_vector) = 2 ^ Z.of_nat (List.length wires) ->
  (Rabs (squared_norm state_vector - 1) > 1 / 1000 + 1 / 100000)%R ->
  MottonenStatePreparation state_vector wires q
  = (Raise (ValueError bad_norm), q).
Proof.
  intros Hwires Hs Hn. unfold MottonenStatePreparation.
  unfold bind at 1. unfold lift at 1. rewrite Wires_NoDup by exact Hwires.
  unfold check_shape. unfold bind at 1. unfold lift at 1.
  rewrite (proj2 (Z.eqb_eq _ _) Hs).
  fold (squared_norm state_vector).
  rewrite isclose_false; [reflexivity|].
  unfold default_rtol. rewrite Rabs_R1. lra.
Qed.

(** C7, amended: on declared wires without repetition, the driver raises a
    shape error whenever the length of the input vector differs from [2^N]
    for the declared wire count [N], and a
    normalization error whenever the squared-magnitude sum deviates from 1 by
    more than [1e-3 + 1e-5] (the absolute tolerance plus the default relative
    tolerance [1e-5 * |1.0|] that [np.isclose] adds), in particular for
    [[1, 1]], whose squared sum is 2.  In either case the tape is left as it
    was: no Operation is emitted. *)
Theorem validation_failures (state_vector : list C) (wires : list Wire)
    (q : list (Operation Wire)) :
  NoDup wires ->
  let N := Z.of_nat (List.length wires) in
  (Z.of_nat (List.length state_vector) <> 2 ^ N ->
   MottonenStatePreparation state_vector wires q
   = (Raise (ValueError bad_shape), q))
  /\ (Z.of_nat (List.length state_vector) = 2 ^ N ->
      (Rabs (squared_norm state_vector - 1) > 1 / 1000 + 1 / 100000)%R ->
      MottonenStatePreparation state_vector wires q
      = (Raise (ValueError bad_norm), q))
  /\ (forall w : Wire,
        squared_norm [(1%R, 0%R); (1%R, 0%R)] = 2%R
        /\ MottonenStatePreparation [(1%R, 0%R); (1%R, 0%R)] [w] q
           = (Raise (ValueError bad_norm), q)).
Proof.
  intros Hwires N. split; [now apply driver_bad_shape|].
  split; [now apply driver_bad_norm|].
  intros w.
  assert (Hn : squared_norm [(1%R, 0%R); (1%R, 0%R)] = 2%R).
  { unfold squared_norm. cbn [map sumR fold_right].
    rewrite !Cabs_sq. cbn [fst snd]. lra. }
  split; [exact Hn|].
  apply driver_bad_norm; [repeat constructor; intros [] | reflexivity |].
  rewrite Hn, Rabs_pos_eq by lra. lra.
Qed.

End DriverFacts.

(** C7, as stated, fails: the squared-magnitude sum of [[1.0005, 0]]
    deviates from 1 by [0.00100025 > 1e-3], yet the driver raises nothing
    and emits the operations of both cascades. *)
Lemma normalization_tolerance_counterexample :
  let state_vector := [((10005 / 10000)%R, 0%R); (0%R, 0%R)] in
  (Rabs (squared_norm state_vector - 1) > 1 / 1000)%R
  /\ MottonenStatePreparation state_vector [0%nat] []
     = (Ok tt, state_preparation_ops state_vector [0%nat]).
Proof.
  intros sv.
  assert (Hn : (squared_norm sv - 1 = 100100025 / 100000000 - 1)%R).
  { unfold squared_norm, sv. cbn [map sumR fold_right].
    rewrite !Cabs_sq. cbn [fst snd]. lra. }
  split.
  - rewrite Hn, Rabs_pos_eq by lra. lra.
  - apply (driver_accepted sv [0%nat] []).
    split; [repeat constructor; intros [] |]. split; [reflexivity|].
    apply isclose_true. rewrite Hn, Rabs_pos_eq by lra.
    unfold default_rtol. rewrite Rabs_R1. lra.
Qed.

Lemma validation_failures_witness :
  MottonenStatePreparation [(1%R, 0%R); (0%R, 0%R); (0%R, 0%R)]
                           [0%nat; 1%nat] []
  = (Raise (ValueError bad_shape), []).
Proof.
  apply (validation_failures [(1%R, 0%R); (0%R, 0%R); (0%R, 0%R)]
                             [0%nat; 1%nat] []).
  - repeat constructor; cbn; intuition discriminate.
  - cbn. lia.
Defined.

End Driver.

(** ** The uniform state on two wires *)

Module UniformState.
Import Alpha Theta Expander Driver.

Local Open Scope R_scope.

Ltac eval_items :=
  repeat match goal with
         | |- context [item ?l ?i] =>
             let n := eval vm_compute in (Z.to_nat i) in
             change (item l i) with (nth n l 0); cbn [nth]
         end.

Ltac eval_pow2 :=
  repeat match goal with
         | |- context [IZR (2 ^ ?e)] =>
             let v := eval vm_compute in (2 ^ e)%Z in
             change (2 ^ e)%Z with v
         end.

Lemma Cabs_real (x : R) : 0 <= x -> Cabs (x, 0) = x.
Proof.
  intros H. unfold Cabs. cbn [fst snd].
  replace (x * x + 0 * 0) with (Rsqr x) by (unfold Rsqr; lra).
  now apply sqrt_Rsqr.
Qed.

Lemma Cangle_real_pos (x : R) : 0 < x -> Cangle (x, 0) = 0.
Proof.
  intros H. unfold Cangle, arctan2. cbn [fst snd].
  destruct (Rlt_dec 0 x); [|contradiction].
  unfold Rdiv. now rewrite Rmult_0_l, atan_0.
Qed.

Lemma uniform4_abs : map Cabs uniform4 = [1 / 2; 1 / 2; 1 / 2; 1 / 2].
Proof. unfold uniform4. cbn [map]. now rewrite Cabs_real by lra. Qed.

Lemma uniform4_angle : map Cangle uniform4 = [0; 0; 0; 0].
Proof. unfold uniform4. cbn [map]. now rewrite Cangle_real_pos by lra. Qed.

Lemma nonzero_true (x : R) : x <> 0 -> nonzero x = true.
Proof. apply nonzero_iff. Qed.

Lemma nonzero_0 : nonzero 0 = false.
Proof. unfold nonzero. destruct (Req_dec_T 0 0); congruence. Qed.

Lemma half_pi_nonzero : PI / 2 <> 0.
Proof. pose proof PI_RGT_0. lra. Qed.

(** An entry of [alpha_y] whose block carries half of the weight. *)
Lemma alpha_y_entry_half (num den : R) :
  den <> 0 -> num / den = / 2 ->
  2 * asin (sqrt (if nonzero den then num / den else 0)) = PI / 2.
Proof.
  intros Hd Hq. rewrite nonzero_true by exact Hd.
  rewrite Hq, sqrt_inv, asin_inv_sqrt2. lra.
Qed.

Lemma alpha_y_2 : _get_alpha_y [1 / 2; 1 / 2; 1 / 2; 1 / 2] 2 2 = Ok [PI / 2].
Proof.
  rewrite get_alpha_y_closed_form by (try reflexivity; lia).
  eval_ranges. cbn [map]. eval_items. cbn [sumR fold_right].
  do 2 f_equal. apply alpha_y_entry_half; [lra | field].
Qed.

Lemma alpha_y_1 :
  _get_alpha_y [1 / 2; 1 / 2; 1 / 2; 1 / 2] 2 1 = Ok [PI / 2; PI / 2].
Proof.
  rewrite get_alpha_y_closed_form by (try reflexivity; lia).
  eval_ranges. cbn [map]. eval_items. cbn [sumR fold_right].
  f_equal. repeat apply (f_equal2 (@cons R)); try reflexivity;
    (apply alpha_y_entry_half; [lra | field]).
Qed.

Lemma alpha_z_2 : _get_alpha_z [0; 0; 0; 0] 2 2 = Ok [0].
Proof.
  rewrite get_alpha_z_closed_form by (try reflexivity; lia).
  eval_ranges. cbn [map]. eval_items. eval_pow2. cbn [sumR fold_right].
  do 2 f_equal. lra.
Qed.

Lemma alpha_z_1 : _get_alpha_z [0; 0; 0; 0] 2 1 = Ok [0; 0].
Proof.
  rewrite get_alpha_z_closed_form by (try reflexivity; lia).
  eval_ranges. cbn [map]. eval_items. eval_pow2. cbn [sumR fold_right].
  f_equal. repeat apply (f_equal2 (@cons R)); try reflexivity; lra.
Qed.

Lemma theta_y_2 : _compute_theta [PI / 2] = [PI / 2].
Proof. rewrite compute_theta_closed_form. eval_matvec. Qed.

Lemma theta_y_1 : _compute_theta [PI / 2; PI / 2] = [PI / 2; 0].
Proof. rewrite compute_theta_closed_form. eval_matvec. Qed.

Lemma theta_z_2 : _compute_theta [0] = [0].
Proof. rewrite compute_theta_closed_form. eval_matvec. Qed.

Lemma theta_z_1 : _compute_theta [0; 0] = [0; 0].
Proof. rewrite compute_theta_closed_form. eval_matvec. Qed.

Section Scenario.

Context {Wire : Type} {Wire_eq : WireEq Wire}.
Variables w0 w1 : Wire.
Hypothesis distinct : w0 <> w1.

Lemma uniform4_accepted : accepted uniform4 [w0; w1].
Proof.
  split; [repeat constructor; cbn; intuition congruence|].
  split; [reflexivity|]. apply isclose_true.
  unfold squared_norm, uniform4. cbn [map sumR fold_right].
  rewrite !Cabs_sq. cbn [fst snd]. unfold default_rtol.
  rewrite Rabs_R1, Rabs_pos_eq by lra. lra.
Qed.

(** The step [k = 2] of the Y-cascade: no control, one rotation. *)
Lemma y_step_2 :
  cascade_step_ops RY (_get_alpha_y (map Cabs uniform4) 2 2) [w1; w0] 2
  = [Rot RY (PI / 2) w0].
Proof.
  rewrite uniform4_abs, alpha_y_2. unfold cascade_step_ops.
  change (getitem [w1; w0] (2 - 1)) with (Ok w0 : result Wire).
  change (slice_from [w1; w0] 2) with (@nil Wire).
  unfold expander_ops. rewrite theta_y_2. eval_items.
  unfold rotation_if_nonzero. now rewrite nonzero_true by apply half_pi_nonzero.
Qed.

(** The step [k = 1] of the Y-cascade: one control, the rotation by
    [theta[0] = pi/2] is emitted, the one by [theta[1] = 0] is not. *)
Lemma y_step_1 :
  cascade_step_ops RY (_get_alpha_y (map Cabs uniform4) 2 1) [w1; w0] 1
  = [Rot RY (PI / 2) w1; CNOT w0 w1; CNOT w0 w1].
Proof.
  rewrite uniform4_abs, alpha_y_1. unfold cascade_step_ops.
  change (getitem [w1; w0] (1 - 1)) with (Ok w1 : result Wire).
  change (slice_from [w1; w0] 1) with [w0].
  unfold expander_ops. rewrite theta_y_1.
  unfold uniform_rotation_ops. eval_ranges. cbn [flat_map]. eval_items.
  change (Z.to_nat (control_index (gray_code (Z.of_nat (List.length [w0]))) 0))
    with 0%nat.
  change (Z.to_nat (control_index (gray_code (Z.of_nat (List.length [w0]))) 1))
    with 0%nat.
  cbn [nth]. unfold rotation_if_nonzero.
  rewrite nonzero_0, nonzero_true by apply half_pi_nonzero. reflexivity.
Qed.

Lemma z_step_2 :
  cascade_step_ops RZ (_get_alpha_z (map Cangle uniform4) 2 2) [w1; w0] 2
  = [].
Proof.
  rewrite uniform4_angle, alpha_z_2. unfold cascade_step_ops.
  change (getitem [w1; w0] (2 - 1)) with (Ok w0 : result Wire).
  change (slice_from [w1; w0] 2) with (@nil Wire).
  unfold expander_ops. rewrite theta_z_2. eval_items.
  unfold rotation_if_nonzero. now rewrite nonzero_0.
Qed.

Lemma z_step_1 :
  cascade_step_ops RZ (_get_alpha_z (map Cangle uniform4) 2 1) [w1; w0] 1
  = [CNOT w0 w1; CNOT w0 w1].
Proof.
  rewrite uniform4_angle, alpha_z_1. unfold cascade_step_ops.
  change (getitem [w1; w0] (1 - 1)) with (Ok w1 : result Wire).
  change (slice_from [w1; w0] 1) with [w0].
  unfold expander_ops. rewrite theta_z_1.
  unfold uniform_rotation_ops. eval_ranges. cbn [flat_map]. eval_items.
  change (Z.to_nat (control_index (gray_code (Z.of_nat (List.length [w0]))) 0))
    with 0%nat.
  change (Z.to_nat (control_index (gray_code (Z.of_nat (List.length [w0]))) 1))
    with 0%nat.
  cbn [nth]. unfold rotation_if_nonzero. rewrite nonzero_0. reflexivity.
Qed.

Lemma uniform4_ops :
  state_preparation_ops uniform4 [w0; w1]
  = [Rot RY (PI / 2) w0;
     Rot RY (PI / 2) w1; CNOT w0 w1; CNOT w0 w1;
     CNOT w0 w1; CNOT w0 w1].
Proof.
  unfold state_preparation_ops.
  change (Z.of_nat (List.length [w0; w1])) with 2%Z.
  change (range_n_to_1 2) with [2; 1]%Z.
  change (rev [w0; w1]) with [w1; w0].
  cbn [flat_map]. rewrite y_step_2, y_step_1, z_step_2, z_step_1.
  reflexivity.
Qed.

(** C8, amended: for [N = 2] (two distinct wires) and the input
    [[1/2, 1/2, 1/2, 1/2]] the emitted sequence contains only Y-rotations
    and bit flips (no Z-rotation); the step [k = 2] emits a single rotation
    of angle [pi/2]; at [k = 1] the angles are [theta = [pi/2, 0]], so the
    first rotation of that step is emitted with angle [pi/2] and only the
    second is elided, while the bit flips of [k = 1] (two in the Y-cascade,
    two in the Z-cascade) are all emitted, controlled by the first declared
    wire as the control index sequence [[0, 0]] of rank 1 prescribes. *)
Theorem uniform_state_scenario (q : list (Operation Wire)) :
  MottonenStatePreparation uniform4 [w0; w1] q
  = (Ok tt,
     q ++ [Rot RY (PI / 2) w0;
           Rot RY (PI / 2) w1; CNOT w0 w1; CNOT w0 w1;
           CNOT w0 w1; CNOT w0 w1])
  /\ cascade_step_ops RY (_get_alpha_y (map Cabs uniform4) 2 2) [w1; w0] 2
     = [Rot RY (PI / 2) w0]
  /\ cascade_step_ops RY (_get_alpha_y (map Cabs uniform4) 2 1) [w1; w0] 1
     = [Rot RY (PI / 2) w1; CNOT w0 w1; CNOT w0 w1]
  /\ cascade_step_ops RZ (_get_alpha_z (map Cangle uniform4) 2 2) [w1; w0] 2
     = []
  /\ cascade_step_ops RZ (_get_alpha_z (map Cangle uniform4) 2 1) [w1; w0] 1
     = [CNOT w0 w1; CNOT w0 w1]
  /\ filter (is_rotation RZ) (state_preparation_ops uniform4 [w0; w1]) = []
  /\ control_index (gray_code 1) 0 = 0%Z /\ control_index (gray_code 1) 1 = 0%Z.
Proof.
  split.
  { rewrite (driver_accepted _ _ _ uniform4_accepted). now rewrite uniform4_ops. }
  split; [exact y_step_2|]. split; [exact y_step_1|].
  split; [exact z_step_2|]. split; [exact z_step_1|].
  split; [now rewrite uniform4_ops|]. split; reflexivity.
Qed.

End Scenario.

Lemma uniform_state_scenario_witness :
  MottonenStatePreparation uniform4 [0%nat; 1%nat] []
  = (Ok tt,
     [] ++ [Rot RY (PI / 2) 0%nat;
            Rot RY (PI / 2) 1%nat; CNOT 0%nat 1%nat; CNOT 0%nat 1%nat;
            CNOT 0%nat 1%nat; CNOT 0%nat 1%nat]).
Proof.
  apply (uniform_state_scenario 0%nat 1%nat ltac:(discriminate) []).
Defined.

(** C8, as stated, fails at [k = 1]: the angles of that step are
    [[pi/2, 0]], not all zero, and the rotation by [pi/2] on the target of
    [k = 1] (the last declared wire) is emitted. *)
Lemma uniform_state_k1_rotation_counterexample :
  exists alpha,
    _get_alpha_y (map Cabs uniform4) 2 1 = Ok alpha
    /\ _compute_theta alpha = [PI / 2; 0]
    /\ PI / 2 <> 0
    /\ In (Rot RY (PI / 2) 1%nat)
          (cascade_step_ops RY (Ok alpha) [1%nat; 0%nat] 1)
    /\ In (Rot RY (PI / 2) 1%nat)
          (snd (MottonenStatePreparation uniform4 [0%nat; 1%nat] [])).
Proof.
  exists [PI / 2; PI / 2].
  split; [rewrite uniform4_abs; exact alpha_y_1|].
  split; [exact theta_y_1|]. split; [exact half_pi_nonzero|]. split.
  - pose proof (y_step_1 0%nat 1%nat) as H.
    rewrite uniform4_abs, alpha_y_1 in H. rewrite H. now left.
  - rewrite (driver_accepted uniform4 [0%nat; 1%nat] []
               (uniform4_accepted 0%nat 1%nat ltac:(discriminate))).
    rewrite uniform4_ops. cbn. auto.
Qed.

End UniformState.

(** ** Rotations of a pair of amplitudes *)

Module Semantics.

Local Open Scope R_scope.

Lemma pair_eq {A B} (p q : A * B) : fst p = fst q -> snd p = snd q -> p = q.
Proof. destruct p, q; cbn; intros -> ->; reflexivity. Qed.

Lemma half_sum (a b : R) : (a + b) / 2 = a / 2 + b / 2.
Proof. lra. Qed.

Lemma rot_pair_add (gate : rotation) (a b : R) (p : C * C) :
  rot_pair gate a (rot_pair gate b p) = rot_pair gate (a + b) p.
Proof.
  destruct p as [[x0 y0] [x1 y1]].
  destruct gate; unfold rot_pair, Cadd, Cscale, Cmul, Cexp_i; cbn [fst snd].
  - rewrite half_sum, cos_plus, sin_plus.
    repeat apply pair_eq; cbn [fst snd]; ring.
  - replace (- ((a + b) / 2)) with (- (a / 2) + - (b / 2)) by lra.
    rewrite half_sum, !cos_plus, !sin_plus.
    repeat apply pair_eq; cbn [fst snd]; ring.
Qed.

Lemma rot_pair_swap (gate : rotation) (a : R) (p : C * C) :
  rot_pair gate a (snd p, fst p)
  = (snd (rot_pair gate (- a) p), fst (rot_pair gate (- a) p)).
Proof.
  destruct p as [[x0 y0] [x1 y1]].
  destruct gate; unfold rot_pair, Cadd, Cscale, Cmul, Cexp_i; cbn [fst snd];
    replace (- a / 2) with (- (a / 2)) by lra.
  - rewrite cos_neg, sin_neg.
    repeat apply pair_eq; cbn [fst snd]; ring.
  - rewrite Ropp_involutive. reflexivity.
Qed.

Lemma rot_pair_0 (gate : rotation) (p : C * C) : rot_pair gate 0 p = p.
Proof.
  destruct p as [[x0 y0] [x1 y1]].
  destruct gate; unfold rot_pair, Cadd, Cscale, Cmul, Cexp_i; cbn [fst snd].
  - replace (0 / 2) with 0 by lra. rewrite cos_0, sin_0.
    repeat apply pair_eq; cbn [fst snd]; ring.
  - replace (0 / 2) with 0 by lra. rewrite Ropp_0, cos_0, sin_0.
    repeat apply pair_eq; cbn [fst snd]; ring.
Qed.

Lemma rot_pair_swap_if (gate : rotation) (a : R) (f : bool) (p : C * C) :
  rot_pair gate a (swap_if f p) = swap_if f (rot_pair gate (sign_of f * a) p).
Proof.
  destruct f; unfold swap_if, sign_of.
  - rewrite rot_pair_swap. now replace (-1 * a) with (- a) by lra.
  - now replace (1 * a) with a by lra.
Qed.

Lemma swap_if_xorb (f g : bool) (p : C * C) :
  swap_if f (swap_if g p) = swap_if (xorb f g) p.
Proof. destruct f, g, p; reflexivity. Qed.

Lemma sel_negb (b : bool) (p : C * C) : sel (negb b) p = sel b (swap_if true p).
Proof. destruct b, p; reflexivity. Qed.

Lemma sel_pair (p : C * C) : (sel false p, sel true p) = p.
Proof. destruct p; reflexivity. Qed.

End Semantics.

(** ** Setting, clearing and flipping one bit of an index *)

Module Bits.

Lemma testbit_clearbit_same (i t : Z) :
  0 <= t -> Z.testbit (Z.clearbit i t) t = false.
Proof. intros H. rewrite Z.clearbit_eqb by lia. rewrite Z.eqb_refl. apply andb_false_r. Qed.

Lemma testbit_setbit_same (i t : Z) :
  0 <= t -> Z.testbit (Z.setbit i t) t = true.
Proof. intros H. rewrite Z.setbit_eqb by lia. now rewrite Z.eqb_refl. Qed.

Lemma testbit_clearbit_other (i t m : Z) :
  0 <= t -> m <> t -> Z.testbit (Z.clearbit i t) m = Z.testbit i m.
Proof.
  intros H Hm. destruct (Z.neg_nonneg_cases m).
  - now rewrite !Z.testbit_neg_r by lia.
  - rewrite Z.clearbit_eqb by lia.
    destruct (Z.eqb_spec t m); [lia|]. apply andb_true_r.
Qed.

Lemma testbit_setbit_other (i t m : Z) :
  0 <= t -> m <> t -> Z.testbit (Z.setbit i t) m = Z.testbit i m.
Proof.
  intros H Hm. destruct (Z.neg_nonneg_cases m).
  - now rewrite !Z.testbit_neg_r by lia.
  - rewrite Z.setbit_eqb by lia.
    destruct (Z.eqb_spec t m); [lia|]. reflexivity.
Qed.

Ltac bits t :=
  apply Z.bits_inj'; intros m Hm;
  destruct (Z.eq_dec m t) as [->|];
  repeat first [ rewrite testbit_clearbit_same by lia
               | rewrite testbit_setbit_same by lia
               | rewrite testbit_clearbit_other by lia
               | rewrite testbit_setbit_other by lia ].

Lemma clearbit_clearbit (i t : Z) :
  0 <= t -> Z.clearbit (Z.clearbit i t) t = Z.clearbit i t.
Proof. intros H. bits t; reflexivity. Qed.

Lemma setbit_clearbit (i t : Z) :
  0 <= t -> Z.setbit (Z.clearbit i t) t = Z.setbit i t.
Proof. intros H. bits t; reflexivity. Qed.

Lemma clearbit_setbit (i t : Z) :
  0 <= t -> Z.clearbit (Z.setbit i t) t = Z.clearbit i t.
Proof. intros H. bits t; reflexivity. Qed.

Lemma setbit_setbit (i t : Z) :
  0 <= t -> Z.setbit (Z.setbit i t) t = Z.setbit i t.
Proof. intros H. bits t; reflexivity. Qed.

Lemma clearbit_id (i t : Z) :
  0 <= t -> Z.testbit i t = false -> Z.clearbit i t = i.
Proof. intros H Hb. bits t; [now rewrite Hb | reflexivity]. Qed.

Lemma setbit_id (i t : Z) :
  0 <= t -> Z.testbit i t = true -> Z.setbit i t = i.
Proof. intros H Hb. bits t; [now rewrite Hb | reflexivity]. Qed.

Lemma lxor_pow2 (i t : Z) :
  0 <= t ->
  Z.lxor i (2 ^ t) = if Z.testbit i t then Z.clearbit i t else Z.setbit i t.
Proof.
  intros H. apply Z.bits_inj'. intros m Hm.
  rewrite Z.lxor_spec, Z.pow2_bits_eqb by lia.
  destruct (Z.eqb_spec t m) as [<-|Hne].
  - destruct (Z.testbit i t) eqn:E;
      rewrite ?testbit_clearbit_same, ?testbit_setbit_same by lia; reflexivity.
  - rewrite xorb_false_r.
    destruct (Z.testbit i t);
      rewrite ?testbit_clearbit_other, ?testbit_setbit_other by lia; reflexivity.
Qed.

End Bits.

(** ** A rotation of the pairs of one target bit *)

Module Blocks.
Import Semantics Bits.

Section WithBits.

Context {Wire : Type}.
Variable bit_of : Wire -> Z.

Lemma pair_at_clearbit (t : Z) (psi : State) (i : Z) :
  0 <= t -> pair_at t psi (Z.clearbit i t) = pair_at t psi i.
Proof.
  intros H. unfold pair_at. now rewrite clearbit_clearbit, setbit_clearbit.
Qed.

Lemma pair_at_setbit (t : Z) (psi : State) (i : Z) :
  0 <= t -> pair_at t psi (Z.setbit i t) = pair_at t psi i.
Proof.
  intros H. unfold pair_at. now rewrite clearbit_setbit, setbit_setbit.
Qed.

Lemma sel_pair_at (t : Z) (psi : State) (i : Z) :
  0 <= t -> sel (Z.testbit i t) (pair_at t psi i) = psi i.
Proof.
  intros H. unfold sel, pair_at. cbn [fst snd].
  destruct (Z.testbit i t) eqn:E.
  - now rewrite setbit_id.
  - now rewrite clearbit_id.
Qed.

(** The block operator seen on the pair around [i]. *)
Lemma pair_at_block (t : Z) (gate : rotation) (f : Z -> bool) (phi : Z -> R)
    (psi : State) (i : Z) :
  0 <= t -> ignores_bit t f -> ignores_bit t phi ->
  pair_at t (block t gate f phi psi) i
  = swap_if (f i) (rot_pair gate (phi i) (pair_at t psi i)).
Proof.
  intros H Hf Hphi. unfold pair_at at 1. unfold block.
  rewrite testbit_clearbit_same, testbit_setbit_same by lia.
  rewrite pair_at_clearbit, pair_at_setbit by lia.
  rewrite (proj1 (Hf i)), (proj2 (Hf i)), (proj1 (Hphi i)), (proj2 (Hphi i)).
  apply sel_pair.
Qed.

Lemma block_id (t : Z) (gate : rotation) (psi : State) :
  0 <= t -> block t gate (fun _ => false) (fun _ => 0%R) psi = psi.
Proof.
  intros H. extensionality i. unfold block.
  rewrite rot_pair_0. cbn [swap_if]. now apply sel_pair_at.
Qed.

Lemma apply_rot_0 (gate : rotation) (w : Wire) (psi : State) :
  0 <= bit_of w -> apply_op bit_of (Rot gate 0 w) psi = psi.
Proof.
  intros H. extensionality i. cbn [apply_op].
  rewrite rot_pair_0. now apply sel_pair_at.
Qed.

Lemma apply_rot_block (gate : rotation) (theta : R) (w : Wire)
    (f : Z -> bool) (phi : Z -> R) (psi : State) :
  let t := bit_of w in
  0 <= t -> ignores_bit t f -> ignores_bit t phi ->
  apply_op bit_of (Rot gate theta w) (block t gate f phi psi)
  = block t gate f (fun i => (phi i + sign_of (f i) * theta)%R) psi.
Proof.
  intros t H Hf Hphi. extensionality i. cbn [apply_op]. fold t.
  rewrite pair_at_block by assumption.
  rewrite rot_pair_swap_if, rot_pair_add. unfold block.
  now rewrite Rplus_comm.
Qed.

Lemma apply_cnot_block (gate : rotation) (c w : Wire)
    (f : Z -> bool) (phi : Z -> R) (psi : State) :
  let t := bit_of w in
  0 <= t -> bit_of c <> t -> ignores_bit t f -> ignores_bit t phi ->
  apply_op bit_of (CNOT c w) (block t gate f phi psi)
  = block t gate (fun i => xorb (Z.testbit i (bit_of c)) (f i)) phi psi.
Proof.
  intros t H Hc Hf Hphi. extensionality i. cbn [apply_op]. fold t.
  destruct (Z.testbit i (bit_of c)) eqn:Ec.
  - rewrite lxor_pow2 by lia. unfold block at 2. rewrite Ec.
    rewrite <- swap_if_xorb, <- sel_negb.
    destruct (Z.testbit i t) eqn:Et; unfold block.
    + rewrite testbit_clearbit_same, pair_at_clearbit by lia.
      now rewrite (proj1 (Hf i)), (proj1 (Hphi i)).
    + rewrite testbit_setbit_same, pair_at_setbit by lia.
      now rewrite (proj2 (Hf i)), (proj2 (Hphi i)).
  - unfold block. now rewrite Ec, xorb_false_l.
Qed.

Lemma ignores_xorb (t : Z) (c : Wire) (f : Z -> bool) :
  0 <= t -> bit_of c <> t -> ignores_bit t f ->
  ignores_bit t (fun i => xorb (Z.testbit i (bit_of c)) (f i)).
Proof.
  intros H Hc Hf i.
  rewrite testbit_clearbit_other, testbit_setbit_other by lia.
  now rewrite (proj1 (Hf i)), (proj2 (Hf i)).
Qed.

Lemma ignores_plus (t : Z) (theta : R) (f : Z -> bool) (phi : Z -> R) :
  ignores_bit t f -> ignores_bit t phi ->
  ignores_bit t (fun i => (phi i + sign_of (f i) * theta)%R).
Proof.
  intros Hf Hphi i.
  now rewrite (proj1 (Hf i)), (proj2 (Hf i)), (proj1 (Hphi i)), (proj2 (Hphi i)).
Qed.

Lemma run_app (ops1 ops2 : list (Operation Wire)) (psi : State) :
  run bit_of (ops1 ++ ops2) psi = run bit_of ops2 (run bit_of ops1 psi).
Proof. unfold run. apply fold_left_app. Qed.

Lemma run_rotation_if_nonzero (gate : rotation) (theta : R) (w : Wire)
    (psi : State) :
  0 <= bit_of w ->
  run bit_of (rotation_if_nonzero gate theta w) psi
  = apply_op bit_of (Rot gate theta w) psi.
Proof.
  intros H. unfold rotation_if_nonzero, nonzero.
  destruct (Req_dec_T theta 0) as [->|_]; [|reflexivity].
  cbn [run fold_left]. now rewrite apply_rot_0.
Qed.

(** A list of steps acts as one block operator. *)
Lemma run_steps (gate : rotation) (w : Wire) (l : list (R * Wire)) :
  let t := bit_of w in
  0 <= t ->
  Forall (fun s => bit_of (snd s) <> t) l ->
  forall (f : Z -> bool) (phi : Z -> R) (psi : State),
    ignores_bit t f -> ignores_bit t phi ->
    run bit_of (steps_ops gate w l) (block t gate f phi psi)
    = block t gate (fun i => acc_flip bit_of l (f i) i)
            (fun i => (phi i + acc_angle bit_of l (f i) i)%R) psi.
Proof.
  intros t H. induction l as [|[theta c] l IH]; intros Hl f phi psi Hf Hphi.
  - cbn. f_equal. extensionality i. lra.
  - inversion Hl as [|? ? Hc Hl']; subst. cbn [snd] in Hc.
    unfold steps_ops. cbn [flat_map]. rewrite !run_app.
    rewrite run_rotation_if_nonzero by exact H.
    fold t. rewrite apply_rot_block by assumption.
    cbn [run fold_left]. fold t.
    rewrite apply_cnot_block;
      [| assumption | assumption | assumption | now apply ignores_plus].
    fold (steps_ops gate w l). fold (run bit_of (steps_ops gate w l)).
    rewrite (IH Hl');
      [| now apply ignores_xorb | now apply ignores_plus].
    cbn [acc_flip acc_angle]. f_equal. extensionality i. lra.
Qed.

End WithBits.

End Blocks.

(** ** The sign of a masked word *)

Module Sign.
Import Theta Words.

Lemma matrix_M_entry_sgn (row col : Z) :
  _matrix_M_entry row col = sgn (Z.land row (gray col)).
Proof. reflexivity. Qed.

Lemma count_ones_pos (b s : Z) :
  0 < b ->
  count_ones b s
  = count_ones (Z.shiftr b 1) (if Z.land b 1 =? 0 then s else s + 1).
Proof.
  intros H. rewrite count_ones_equation_1.
  destruct (Z_gt_le_dec b 0); [reflexivity | lia].
Qed.

Lemma count_ones_nonpos (b s : Z) : b <= 0 -> count_ones b s = s.
Proof.
  intros H. rewrite count_ones_equation_1.
  destruct (Z_gt_le_dec b 0); [lia | reflexivity].
Qed.

Lemma shiftr1_double (x : Z) (b : bool) : Z.shiftr (2 * x + Z.b2z b) 1 = x.
Proof.
  rewrite Z.shiftr_div_pow2 by lia. change (2 ^ 1) with 2.
  symmetry. apply (Z.div_unique_pos _ 2 x (Z.b2z b)); [|reflexivity].
  destruct b; cbn; lia.
Qed.

Lemma land1_double (x : Z) (b : bool) : Z.land (2 * x + Z.b2z b) 1 = Z.b2z b.
Proof.
  change 1 with (Z.ones 1). rewrite Z.land_ones by lia. change (2 ^ 1) with 2.
  rewrite Z.add_comm, Z.mul_comm, Z.mod_add by lia.
  destruct b; reflexivity.
Qed.

(** The loop on a word given by its last bit and the rest. *)
Lemma count_ones_double (x s : Z) (b : bool) :
  0 <= x ->
  count_ones (2 * x + Z.b2z b) s = count_ones x (s + Z.b2z b).
Proof.
  intros H. destruct (Z.eq_dec (2 * x + Z.b2z b) 0) as [E|E].
  - destruct b; cbn [Z.b2z] in *; [lia|].
    assert (x = 0) by lia. subst x.
    rewrite !count_ones_nonpos by lia. lia.
  - rewrite count_ones_pos by (destruct b; cbn [Z.b2z] in *; lia).
    rewrite shiftr1_double, land1_double.
    destruct b; cbn; [reflexivity | now rewrite Z.add_0_r].
Qed.

Lemma decompose (x : Z) : x = 2 * Z.div2 x + Z.b2z (Z.odd x).
Proof. apply Z.div2_odd. Qed.

Lemma div2_bound (x : Z) (n : nat) :
  0 <= x < 2 ^ Z.of_nat (S n) -> 0 <= Z.div2 x < 2 ^ Z.of_nat n.
Proof.
  rewrite Nat2Z.inj_succ, Z.pow_succ_r by lia. intros H.
  rewrite Z.div2_div. split; [apply Z.div_pos; lia|].
  apply Z.div_lt_upper_bound; lia.
Qed.

Lemma bounded (x : Z) : 0 <= x -> exists n : nat, 0 <= x < 2 ^ Z.of_nat n.
Proof.
  intros H. exists (Z.to_nat x). split; [exact H|].
  rewrite Z2Nat.id by exact H. apply Z.pow_gt_lin_r; lia.
Qed.

Lemma count_ones_acc_bounded (n : nat) :
  forall x s, 0 <= x < 2 ^ Z.of_nat n ->
              count_ones x s = s + count_ones x 0.
Proof.
  induction n as [|n IH]; intros x s Hx.
  - cbn in Hx. assert (x = 0) by lia. subst.
    rewrite !count_ones_nonpos by lia. lia.
  - rewrite (decompose x). pose proof (div2_bound x n Hx) as Hd.
    rewrite !count_ones_double by lia.
    rewrite (IH _ (s + _)) by exact Hd.
    rewrite (IH _ (0 + _)) by exact Hd. lia.
Qed.

Lemma count_ones_acc (x s : Z) :
  0 <= x -> count_ones x s = s + count_ones x 0.
Proof.
  intros H. destruct (bounded x H) as [n Hn].
  now apply (count_ones_acc_bounded n).
Qed.

Lemma pow_m1_add (a b : Z) :
  0 <= a -> 0 <= b -> (-1) ^ (a + b) = (-1) ^ a * (-1) ^ b.
Proof. intros. now apply Z.pow_add_r. Qed.

Lemma sgn_double (x : Z) (b : bool) :
  0 <= x -> sgn (2 * x + Z.b2z b) = sgn x * zsign b.
Proof.
  intros H. unfold sgn. rewrite count_ones_double by exact H.
  rewrite count_ones_acc by exact H.
  rewrite Z.add_0_l, Z.add_comm, pow_m1_add.
  - destruct b; reflexivity.
  - apply count_ones_ge.
  - destruct b; cbn; lia.
Qed.

Lemma sgn_0 : sgn 0 = 1.
Proof. reflexivity. Qed.

Lemma sgn_pm (x : Z) : sgn x = 1 \/ sgn x = -1.
Proof. unfold sgn. apply pow_minus_one, count_ones_ge. Qed.

Lemma zsign_xorb (a b : bool) : zsign (xorb a b) = zsign a * zsign b.
Proof. destruct a, b; reflexivity. Qed.

Lemma sgn_lxor_bounded (n : nat) :
  forall x y, 0 <= x < 2 ^ Z.of_nat n -> 0 <= y < 2 ^ Z.of_nat n ->
              sgn (Z.lxor x y) = sgn x * sgn y.
Proof.
  induction n as [|n IH]; intros x y Hx Hy.
  - cbn in Hx, Hy. assert (x = 0) by lia. assert (y = 0) by lia. now subst.
  - rewrite (decompose x), (decompose y).
    pose proof (div2_bound x n Hx) as Hdx.
    pose proof (div2_bound y n Hy) as Hdy.
    rewrite lxor_double_bit.
    rewrite !sgn_double; try lia.
    + rewrite (IH _ _ Hdx Hdy), zsign_xorb. ring.
    + apply Z.lxor_nonneg. lia.
Qed.

(** The sign is multiplicative over XOR. *)
Lemma sgn_lxor (x y : Z) :
  0 <= x -> 0 <= y -> sgn (Z.lxor x y) = sgn x * sgn y.
Proof.
  intros Hx Hy.
  destruct (bounded (Z.max x y)) as [n Hn]; [lia|].
  apply (sgn_lxor_bounded n); lia.
Qed.

Lemma sgn_pow2 (c : Z) : 0 <= c -> sgn (2 ^ c) = -1.
Proof.
  intros H. pattern c. apply natlike_ind; [reflexivity | | exact H].
  intros x Hx IH. rewrite Z.pow_succ_r by exact Hx.
  replace (2 * 2 ^ x) with (2 * 2 ^ x + Z.b2z false)
    by (cbn [Z.b2z]; lia).
  rewrite sgn_double by (apply Z.pow_nonneg; lia).
  rewrite IH. reflexivity.
Qed.

Lemma land_pow2 (j c : Z) :
  0 <= c -> Z.land j (2 ^ c) = if Z.testbit j c then 2 ^ c else 0.
Proof.
  intros H. apply Z.bits_inj'. intros m Hm.
  rewrite Z.land_spec, Z.pow2_bits_eqb by lia.
  destruct (Z.eqb_spec c m) as [<-|Hne].
  - destruct (Z.testbit j c); cbn.
    + now rewrite Z.pow2_bits_eqb, Z.eqb_refl by lia.
    + now rewrite Z.bits_0.
  - rewrite andb_false_r.
    destruct (Z.testbit j c).
    + rewrite Z.pow2_bits_eqb by lia. now destruct (Z.eqb_spec c m).
    + now rewrite Z.bits_0.
Qed.

Lemma land_lxor_distr (j g h : Z) :
  Z.land j (Z.lxor g h) = Z.lxor (Z.land j g) (Z.land j h).
Proof.
  apply Z.bits_inj'. intros m Hm.
  rewrite !Z.land_spec, !Z.lxor_spec, !Z.land_spec.
  destruct (Z.testbit j m), (Z.testbit g m), (Z.testbit h m); reflexivity.
Qed.

(** Flipping bit [c] of the mask flips the sign exactly where the word has
    bit [c] set. *)
Lemma sgn_land_flip (j g c : Z) :
  0 <= j -> 0 <= g -> 0 <= c ->
  sgn (Z.land j (Z.lxor g (2 ^ c)))
  = zsign (Z.testbit j c) * sgn (Z.land j g).
Proof.
  intros Hj Hg Hc. rewrite land_lxor_distr, sgn_lxor.
  - rewrite land_pow2 by exact Hc.
    destruct (Z.testbit j c); cbn [zsign].
    + rewrite sgn_pow2 by exact Hc. ring.
    + rewrite sgn_0. ring.
  - apply Z.land_nonneg. now left.
  - apply Z.land_nonneg. now left.
Qed.

End Sign.

(** ** _compute_theta and the formula of the entries *)

Module ThetaClaims.
Import Theta Sign.

(** The loop of [_matrix_M_entry] counts the set bits. *)
Lemma count_ones_popcount_pos (p : positive) :
  count_ones (Zpos p) 0 = popcount_pos p.
Proof.
  induction p as [p IH | p IH |]; cbn [popcount_pos].
  - change (Zpos p~1) with (2 * Zpos p + Z.b2z true).
    rewrite count_ones_double by lia.
    rewrite count_ones_acc by lia. rewrite IH. reflexivity.
  - change (Zpos p~0) with (2 * Zpos p + Z.b2z false).
    rewrite count_ones_double by lia.
    rewrite count_ones_acc by lia. rewrite IH. reflexivity.
  - change 1 with (2 * 0 + Z.b2z true) at 1.
    rewrite count_ones_double by lia. now rewrite count_ones_nonpos by lia.
Qed.

Lemma count_ones_popcount (b : Z) : count_ones b 0 = popcount b.
Proof.
  destruct b as [|p|p]; cbn [popcount].
  - now rewrite count_ones_nonpos by lia.
  - apply count_ones_popcount_pos.
  - now rewrite count_ones_nonpos by lia.
Qed.

(** [_matrix_M_entry] computes the formula, for all integers. *)
Lemma matrix_M_entry_formula (row col : Z) :
  _matrix_M_entry row col = entry_formula row col.
Proof.
  unfold _matrix_M_entry, entry_formula. cbv zeta.
  now rewrite count_ones_popcount.
Qed.

Local Open Scope R_scope.

(** C2, amended: for every AlphaVector [alpha] of length [L = 2^r], [r >= 0],
    the computed ThetaVector equals [(M @ alpha) / L] where [M] is the
    [L]-by-[L] sign matrix with [M[i][j] = entry(j, i)] for the 0-based [i],
    [j] themselves (not [entry(j+1, i+1)]), and [entry(row, col)] equals
    [(-1)] raised to the number of set bits of
    [row AND ((col >> 1) XOR col)]; every entry of [M] is [+1] or [-1]. *)
Theorem compute_theta_spec (alpha : list R) (r : Z) :
  (0 <= r)%Z ->
  Z.of_nat (List.length alpha) = (2 ^ r)%Z ->
  _compute_theta alpha
  = scaled_matvec
      (fun i j =>
         IZR ((-1) ^ popcount (Z.land j (Z.lxor (Z.shiftr i 1) i))))
      alpha
  /\ (forall i j : Z,
        IZR ((-1) ^ popcount (Z.land j (Z.lxor (Z.shiftr i 1) i))) = 1
        \/ IZR ((-1) ^ popcount (Z.land j (Z.lxor (Z.shiftr i 1) i))) = -1)
  /\ (forall row col : Z,
        (0 <= row)%Z -> (0 <= col)%Z ->
        _matrix_M_entry row col
        = ((-1) ^ popcount (Z.land row (Z.lxor (Z.shiftr col 1) col)))%Z).
Proof.
  intros _ _. split; [|split].
  - rewrite compute_theta_closed_form.
    unfold scaled_matvec, matvec, M_code. f_equal.
    apply map_ext. intros i. f_equal. apply map_ext. intros j.
    now rewrite matrix_M_entry_formula.
  - intros i j. fold (entry_formula j i).
    rewrite <- matrix_M_entry_formula.
    destruct (matrix_M_entry_sign j i) as [-> | ->]; [left|right]; reflexivity.
  - intros row col _ _. apply matrix_M_entry_formula.
Qed.

Lemma compute_theta_spec_witness :
  _compute_theta [1; 2]
  = scaled_matvec
      (fun i j =>
         IZR ((-1) ^ popcount (Z.land j (Z.lxor (Z.shiftr i 1) i))))
      [1; 2].
Proof.
  apply (compute_theta_spec [1; 2] 1); [lia | reflexivity].
Defined.

End ThetaClaims.

(** ** The integers the code words denote *)

Module GrayValues.
Import GrayCode GrayFacts Words Expander Alpha.

(** Reading a bit string from any start value. *)
Lemma int2_digits_value (w : string) :
  bitstring w = true ->
  exists v, 0 <= v < 2 ^ Z.of_nat (String.length w)
            /\ forall acc, int2_digits acc w
                           = Ok (acc * 2 ^ Z.of_nat (String.length w) + v).
Proof.
  induction w as [|c w IH]; intros Hw.
  - exists 0. split; [cbn; lia|]. intros acc. cbn. f_equal. lia.
  - destruct (int2_digits_cons 0 c w Hw) as [_ Hw'].
    destruct (IH Hw') as (v & Hv & E).
    exists (Z.b2z (digit c) * 2 ^ Z.of_nat (String.length w) + v).
    cbn [String.length]. rewrite Nat2Z.inj_succ, Z.pow_succ_r by lia.
    split.
    + destruct (digit c); cbn [Z.b2z]; lia.
    + intros acc. rewrite (proj1 (int2_digits_cons acc c w Hw)), E.
      f_equal. ring.
Qed.

Lemma int_of_word_digits (w : string) (v : Z) :
  (forall acc, int2_digits acc w
               = Ok (acc * 2 ^ Z.of_nat (String.length w) + v)) ->
  0 <= v -> int_of_word w = v.
Proof.
  intros E Hv. unfold int_of_word, int_base2.
  destruct w as [|c w].
  - specialize (E 0). cbn in E. injection E as E. lia.
  - rewrite E. lia.
Qed.

(** The value of a word with one more leading digit. *)
Lemma int_of_word_cons (c : ascii) (w : string) :
  bitstring (String c w) = true ->
  int_of_word (String c w)
  = Z.b2z (digit c) * 2 ^ Z.of_nat (String.length w) + int_of_word w
  /\ 0 <= int_of_word w < 2 ^ Z.of_nat (String.length w).
Proof.
  intros Hw. destruct (int2_digits_cons 0 c w Hw) as [_ Hw'].
  destruct (int2_digits_value w Hw') as (v & Hv & E).
  rewrite (int_of_word_digits w v E) by lia. split; [|exact Hv].
  apply int_of_word_digits.
  - intros acc. rewrite (proj1 (int2_digits_cons acc c w Hw)), E.
    cbn [String.length]. rewrite Nat2Z.inj_succ, Z.pow_succ_r by lia.
    f_equal. ring.
  - destruct (digit c); cbn [Z.b2z]; lia.
Qed.

(** Bits of the arithmetic Gray code. *)
Lemma gray_spec (k m : Z) :
  0 <= m -> Z.testbit (gray k) m = xorb (Z.testbit k (m + 1)) (Z.testbit k m).
Proof.
  intros H. unfold gray. rewrite Z.lxor_spec, Z.shiftr_spec by lia.
  reflexivity.
Qed.

Lemma testbit_high (x r m : Z) :
  0 <= x < 2 ^ r -> r <= m -> Z.testbit x m = false.
Proof.
  intros Hx Hm. destruct (Z.eq_dec x 0) as [->|Hne]; [apply Z.bits_0|].
  apply Z.bits_above_log2; [lia|].
  assert (Z.log2 x < r); [|lia]. apply Z.log2_lt_pow2; lia.
Qed.

Lemma below_pow2 (x r : Z) :
  0 <= r -> 0 <= x ->
  (forall m, r <= m -> Z.testbit x m = false) -> x < 2 ^ r.
Proof.
  intros Hr Hx H. destruct (Z.eq_dec x 0) as [->|Hne].
  - apply Z.pow_pos_nonneg; lia.
  - apply Z.log2_lt_pow2; [lia|].
    destruct (Z.lt_ge_cases (Z.log2 x) r) as [|Hge]; [assumption|].
    specialize (H (Z.log2 x) Hge).
    rewrite Z.bit_log2 in H by lia. discriminate.
Qed.

Lemma gray_nonneg (k : Z) : 0 <= k -> 0 <= gray k.
Proof.
  intros H. unfold gray. apply Z.lxor_nonneg.
  split; intros _; [exact H | now apply Z.shiftr_nonneg].
Qed.

Lemma gray_bound (k r : Z) : 0 <= r -> 0 <= k < 2 ^ r -> 0 <= gray k < 2 ^ r.
Proof.
  intros Hr Hk. split; [apply gray_nonneg; lia|].
  apply below_pow2; [lia | apply gray_nonneg; lia|].
  intros m Hm. rewrite gray_spec by lia.
  now rewrite (testbit_high k r m), (testbit_high k r (m + 1)) by lia.
Qed.

(** The reflected half of the code: the arithmetic Gray code of an index in
    the upper half is that of its mirror image with the top bit set. *)
Lemma gray_reflect (k r : Z) :
  0 <= r -> 2 ^ r <= k < 2 ^ (r + 1) ->
  gray k = 2 ^ r + gray (2 ^ (r + 1) - 1 - k).
Proof.
  intros Hr Hk.
  assert (Hp : 2 ^ (r + 1) = 2 * 2 ^ r)
    by (rewrite Z.pow_add_r by lia; change (2 ^ 1) with 2; lia).
  set (k' := 2 ^ (r + 1) - 1 - k).
  assert (Hk' : 0 <= k' < 2 ^ r) by (unfold k'; lia).
  pose proof (gray_bound k' r Hr Hk') as Hg.
  (* the bits of the mirror image *)
  assert (Hbits : forall m, 0 <= m <= r ->
                            Z.testbit k' m = negb (Z.testbit k m)).
  { intros m Hm. unfold k'.
    replace (2 ^ (r + 1) - 1 - k) with (Z.lnot k + 2 ^ (r + 1))
      by (unfold Z.lnot; lia).
    rewrite <- (Z.mul_1_l (2 ^ (r + 1))).
    rewrite <- Z.mod_pow2_bits_low with (n := r + 1) by lia.
    rewrite Z.mod_add by lia.
    rewrite Z.mod_pow2_bits_low by lia. apply Z.lnot_spec. lia. }
  assert (Hkr : Z.testbit k r = true).
  { rewrite Z.testbit_true by lia.
    replace (k / 2 ^ r) with 1; [reflexivity|].
    apply (Z.div_unique_pos _ _ 1 (k - 2 ^ r)); lia. }
  rewrite Z.add_nocarry_lxor.
  - apply Z.bits_inj'. intros m Hm.
    rewrite Z.lxor_spec, Z.pow2_bits_eqb, !gray_spec by lia.
    destruct (Z.lt_trichotomy m r) as [Hlt|[->|Hgt]].
    + destruct (Z.eqb_spec r m); [lia|]. cbn [xorb].
      rewrite !Hbits by lia.
      now destruct (Z.testbit k (m + 1)), (Z.testbit k m).
    + rewrite Z.eqb_refl, Hkr, (testbit_high k (r + 1) (r + 1)) by lia.
      rewrite (testbit_high k' r r), (testbit_high k' r (r + 1)) by lia.
      reflexivity.
    + destruct (Z.eqb_spec r m); [lia|].
      rewrite (testbit_high k (r + 1) m), (testbit_high k (r + 1) (m + 1)) by lia.
      rewrite (testbit_high k' r m), (testbit_high k' r (m + 1)) by lia.
      reflexivity.
  - apply Z.bits_inj'. intros m Hm.
    rewrite Z.land_spec, Z.pow2_bits_eqb, Z.bits_0 by lia.
    destruct (Z.eqb_spec r m) as [<-|]; [|reflexivity].
    now rewrite (testbit_high (gray k') r r) by lia.
Qed.

Lemma iter_words_at (n k : nat) :
  (k < 2 ^ S n)%nat ->
  let w := code_at (Nat.iter n gray_step ["0"; "1"]%string) k in
  String.length w = S n /\ bitstring w = true.
Proof.
  intros Hk w. apply iter_gray_step_words. apply nth_In.
  now rewrite iter_gray_step_length.
Qed.

(** The code words of [gray_code] denote the arithmetic Gray code of their
    index. *)
Lemma iter_values (n : nat) :
  forall k, (k < 2 ^ S n)%nat ->
            int_of_word (code_at (Nat.iter n gray_step ["0"; "1"]%string) k)
            = gray (Z.of_nat k).
Proof.
  induction n as [|n IH]; intros k Hk.
  - destruct k as [|[|k]]; [reflexivity | reflexivity | cbn in Hk; lia].
  - rewrite Nat.iter_succ.
    set (G := Nat.iter n gray_step ["0"; "1"]%string) in *.
    assert (HL : List.length G = (2 ^ S n)%nat)
      by apply iter_gray_step_length.
    assert (Hpow : Z.of_nat (2 ^ S n) = 2 ^ Z.of_nat (S n))
      by now rewrite Nat2Z.inj_pow.
    assert (Hpow' : (2 ^ S (S n) = 2 * 2 ^ S n)%nat) by reflexivity.
    assert (Hpow2 : Z.of_nat (2 ^ S (S n)) = 2 ^ Z.of_nat (S (S n)))
      by now rewrite Nat2Z.inj_pow.
    destruct (Nat.lt_ge_cases k (List.length G)) as [Hlo|Hhi].
    + rewrite code_at_gray_step_lo by exact Hlo.
      destruct (iter_words_at n k ltac:(lia)) as [Hlen Hbit]. fold G in Hlen, Hbit.
      destruct (int_of_word_cons "0" (code_at G k)) as [E _].
      { cbn [bitstring]. now rewrite Hbit. }
      rewrite E. change (digit "0") with false. cbn [Z.b2z].
      rewrite Z.mul_0_l, Z.add_0_l. apply IH. lia.
    + rewrite code_at_gray_step_hi by lia.
      set (k' := (2 * List.length G - 1 - k)%nat).
      destruct (iter_words_at n k' ltac:(lia)) as [Hlen Hbit].
      fold G in Hlen, Hbit.
      destruct (int_of_word_cons "1" (code_at G k')) as [E _].
      { cbn [bitstring]. now rewrite Hbit. }
      rewrite E. change (digit "1") with true. cbn [Z.b2z].
      rewrite Z.mul_1_l, Hlen, IH by lia.
      rewrite (gray_reflect (Z.of_nat k) (Z.of_nat (S n))).
      * do 2 f_equal. unfold k'. rewrite HL.
        replace (Z.of_nat (S n) + 1) with (Z.of_nat (S (S n))) by lia.
        lia.
      * lia.
      * replace (Z.of_nat (S n) + 1) with (Z.of_nat (S (S n))) by lia.
        lia.
Qed.

Lemma gray_code_value (r k : Z) :
  1 <= r -> 0 <= k < 2 ^ r ->
  int_of_word (code_at (gray_code r) (Z.to_nat k)) = gray k.
Proof.
  intros Hr Hk. destruct (Z_of_nat_complete (r - 1)) as [n Hn]; [lia|].
  assert (Hm : r = Z.of_nat (S n)) by lia. subst r.
  rewrite gray_code_iter, iter_values.
  - f_equal. lia.
  - apply Nat2Z.inj_lt. rewrite Nat2Z.inj_pow. lia.
Qed.

(** The control index names the bit in which consecutive (cyclically
    wrapped) code values differ. *)
Lemma control_index_pow2 (r k : Z) :
  1 <= r -> 0 <= k < 2 ^ r ->
  let c := control_index (gray_code r) k in
  0 <= c < r /\ Z.lxor (gray k) (gray ((k + 1) mod 2 ^ r)) = 2 ^ c.
Proof.
  intros Hr Hk c.
  destruct (control_index_computed r k Hr Hk) as [_ Hc]. fold c in Hc.
  split; [exact Hc|].
  destruct (gray_code_facts r Hr) as (Hlen & Hcyc & Hwords).
  assert (Hm : 0 <= (k + 1) mod 2 ^ r < 2 ^ r)
    by (apply Z.mod_pos_bound; lia).
  rewrite <- !(gray_code_value r) by lia.
  subst c. unfold control_index. rewrite Hlen.
  set (s := code_at (gray_code r) (Z.to_nat k)).
  set (t := code_at (gray_code r) (Z.to_nat ((k + 1) mod 2 ^ r))).
  assert (Hs : In s (gray_code r)) by (apply nth_In; lia).
  assert (Ht : In t (gray_code r)) by (apply nth_In; lia).
  destruct (Hwords s Hs) as [Hsl Hsb]. destruct (Hwords t Ht) as [_ Htb].
  assert (Hne : s <> EmptyString)
    by (intros E; rewrite E in Hsl; cbn in Hsl; lia).
  assert (Hapart : one_bit_apart s t).
  { pose proof (Hcyc (Z.to_nat k) ltac:(lia)) as H.
    rewrite <- succ_mod_to_nat in H by lia. rewrite Hlen in H. exact H. }
  destruct (one_bit_apart_xor s t Hsb Htb Hne Hapart)
    as (a & b & e & Ea & Eb & He & Ex).
  unfold int_of_word. rewrite Ea, Eb, Ex. now rewrite Z.log2_pow2 by lia.
Qed.

End GrayValues.

(** ** Sums over ranges *)

Module Sums.

Local Open Scope R_scope.

Lemma sumR_cons (x : R) (l : list R) : sumR (x :: l) = x + sumR l.
Proof. reflexivity. Qed.

Lemma sumR_nil : sumR [] = 0.
Proof. reflexivity. Qed.

Lemma sumR_app (l m : list R) : sumR (l ++ m) = sumR l + sumR m.
Proof.
  induction l as [|x l IH]; cbn [app].
  - rewrite sumR_nil. lra.
  - rewrite !sumR_cons, IH. lra.
Qed.

Lemma sumR_rev (l : list R) : sumR (rev l) = sumR l.
Proof.
  induction l as [|x l IH]; [reflexivity|].
  cbn [rev]. rewrite sumR_app, IH, !sumR_cons, sumR_nil. lra.
Qed.

Lemma sumR_map_ext {A} (f g : A -> R) (l : list A) :
  (forall x, In x l -> f x = g x) -> sumR (map f l) = sumR (map g l).
Proof. intros H. f_equal. now apply map_ext_in. Qed.

Lemma sumR_map_scale {A} (c : R) (f : A -> R) (l : list A) :
  sumR (map (fun x => c * f x) l) = c * sumR (map f l).
Proof.
  induction l as [|x l IH]; cbn [map].
  - rewrite sumR_nil. lra.
  - rewrite !sumR_cons, IH. lra.
Qed.

Lemma sumR_map_plus {A} (f g : A -> R) (l : list A) :
  sumR (map (fun x => f x + g x) l) = sumR (map f l) + sumR (map g l).
Proof.
  induction l as [|x l IH]; cbn [map].
  - rewrite sumR_nil. lra.
  - rewrite !sumR_cons, IH. lra.
Qed.

Lemma sumR_map_0 {A} (l : list A) : sumR (map (fun _ => 0) l) = 0.
Proof.
  induction l as [|x l IH]; cbn [map]; [reflexivity|].
  rewrite sumR_cons, IH. lra.
Qed.

Lemma sumR_swap {A B} (f : A -> B -> R) (l1 : list A) (l2 : list B) :
  sumR (map (fun k => sumR (map (f k) l2)) l1)
  = sumR (map (fun j => sumR (map (fun k => f k j) l1)) l2).
Proof.
  induction l1 as [|x l1 IH]; cbn [map].
  - now rewrite sumR_map_0.
  - rewrite sumR_cons, IH, <- sumR_map_plus.
    apply sumR_map_ext. intros j _. now rewrite sumR_cons.
Qed.

Lemma rev_seq (n : nat) :
  rev (seq 0 n) = map (fun i => (n - 1 - i)%nat) (seq 0 n).
Proof.
  induction n as [|n IH]; [reflexivity|].
  rewrite seq_S at 1. rewrite rev_app_distr. cbn [rev app Nat.add].
  rewrite IH. cbn [seq map]. f_equal; [lia|].
  rewrite <- seq_shift, map_map. apply map_ext. intros i. lia.
Qed.

Lemma range_shift (a b : Z) :
  range a b = map (fun k => (a + k)%Z) (range 0 (b - a)).
Proof.
  unfold range. rewrite map_map, Z.sub_0_r. apply map_ext. intros i. lia.
Qed.

Lemma rev_range0 (n : Z) :
  rev (range 0 n) = map (fun k => (n - 1 - k)%Z) (range 0 n).
Proof.
  unfold range. rewrite <- map_rev, rev_seq, !map_map.
  apply map_ext_in. intros i Hi. apply in_seq in Hi. lia.
Qed.

(** A sum over the upper half of a range, read in mirror order. *)
Lemma sumR_upper_half (f : Z -> R) (P : Z) :
  (0 <= P)%Z ->
  sumR (map f (range P (2 * P)))
  = sumR (map (fun k => f (2 * P - 1 - k)%Z) (range 0 P)).
Proof.
  intros HP.
  rewrite <- (sumR_rev (map (fun k => f (2 * P - 1 - k)%Z) (range 0 P))).
  rewrite <- map_rev, rev_range0, map_map.
  rewrite range_shift. replace (2 * P - P)%Z with P by lia.
  rewrite map_map. apply sumR_map_ext. intros k _. f_equal. lia.
Qed.

Lemma seq_add_map (n m : nat) : seq n m = map (Nat.add n) (seq 0 m).
Proof.
  revert n; induction m as [|m IH]; intros n; [reflexivity|].
  cbn [seq map]. f_equal; [lia|].
  rewrite (IH (S n)), <- seq_shift, map_map.
  apply map_ext. intros i. lia.
Qed.

Lemma range_split (a b c : Z) :
  (a <= b <= c)%Z -> range a c = range a b ++ range b c.
Proof.
  intros H. unfold range.
  replace (Z.to_nat (c - a)) with (Z.to_nat (b - a) + Z.to_nat (c - b))%nat
    by lia.
  rewrite seq_app, map_app. f_equal. cbn [Nat.add].
  rewrite seq_add_map, map_map. apply map_ext. intros i. lia.
Qed.

End Sums.

(** ** Orthogonality of the sign matrix *)

Module Orthogonality.
Import Sums Sign GrayValues AlphaClaims Theta.

Local Open Scope R_scope.

Lemma gray_upper (r k : Z) :
  (0 <= r)%Z -> (0 <= k < 2 ^ r)%Z ->
  gray (2 * 2 ^ r - 1 - k) = Z.lxor (gray k) (2 ^ r).
Proof.
  intros Hr Hk.
  assert (Hp : (2 ^ (r + 1) = 2 * 2 ^ r)%Z)
    by (rewrite Z.pow_add_r by lia; change (2 ^ 1)%Z with 2%Z; lia).
  rewrite (gray_reflect _ r) by lia. rewrite Hp.
  replace (2 * 2 ^ r - 1 - (2 * 2 ^ r - 1 - k))%Z with k by lia.
  rewrite Z.add_comm. apply Z.add_nocarry_lxor.
  apply Z.bits_inj'. intros m Hm.
  rewrite Z.land_spec, Z.pow2_bits_eqb, Z.bits_0 by lia.
  destruct (Z.eqb_spec r m) as [<-|]; [|apply andb_false_r].
  rewrite (testbit_high (gray k) r r); [reflexivity | | lia].
  now apply gray_bound.
Qed.

Lemma T_step (r : nat) (d : Z) :
  (0 <= d)%Z ->
  T (S r) d = (1 + IZR (zsign (Z.testbit d (Z.of_nat r)))) * T r d.
Proof.
  intros Hd. unfold T.
  set (P := (2 ^ Z.of_nat r)%Z).
  assert (HP : (0 < P)%Z) by (apply Z.pow_pos_nonneg; lia).
  replace (2 ^ Z.of_nat (S r))%Z with (2 * P)%Z
    by (rewrite Nat2Z.inj_succ, Z.pow_succ_r by lia; reflexivity).
  rewrite (range_split 0 P (2 * P)) by lia.
  rewrite map_app, sumR_app, sumR_upper_half by lia.
  rewrite (sumR_map_ext
             (fun k => IZR (sgn (Z.land d (gray (2 * P - 1 - k)))))
             (fun k => IZR (zsign (Z.testbit d (Z.of_nat r)))
                       * IZR (sgn (Z.land d (gray k))))).
  - rewrite sumR_map_scale. lra.
  - intros k Hk. apply in_range in Hk.
    unfold P. rewrite gray_upper by (fold P; lia).
    rewrite sgn_land_flip; [| lia | apply gray_nonneg; lia | lia].
    now rewrite mult_IZR.
Qed.

Lemma T_closed (r : nat) (d : Z) :
  (0 <= d)%Z -> T r d = if low0 r d then IZR (2 ^ Z.of_nat r) else 0.
Proof.
  intros Hd. induction r as [|r IH].
  - unfold T. change (range 0 (2 ^ Z.of_nat 0)) with [0%Z].
    cbn [map]. change (gray 0) with 0%Z.
    rewrite Z.land_0_r, sgn_0, sumR_cons, sumR_nil.
    cbn [low0]. change (2 ^ Z.of_nat 0)%Z with 1%Z. lra.
  - rewrite T_step, IH by exact Hd. cbn [low0].
    rewrite Nat2Z.inj_succ, Z.pow_succ_r, mult_IZR by lia.
    destruct (low0 r d), (Z.testbit d (Z.of_nat r)); cbn; lra.
Qed.

Lemma low0_spec (r : nat) (d : Z) :
  low0 r d = true <->
  (forall m, (0 <= m < Z.of_nat r)%Z -> Z.testbit d m = false).
Proof.
  induction r as [|r IH]; cbn [low0].
  - split; [intros _ m Hm; lia | reflexivity].
  - rewrite andb_true_iff, IH, negb_true_iff. split.
    + intros [H1 H2] m Hm.
      destruct (Z.eq_dec m (Z.of_nat r)) as [->|]; [exact H2|].
      apply H1. lia.
    + intros H. split; [intros m Hm|]; apply H; lia.
Qed.

Lemma low0_lxor (r : nat) (j j' : Z) :
  (0 <= j < 2 ^ Z.of_nat r)%Z -> (0 <= j' < 2 ^ Z.of_nat r)%Z ->
  low0 r (Z.lxor j j') = true <-> j = j'.
Proof.
  intros Hj Hj'. rewrite low0_spec. split.
  - intros H. apply Z.bits_inj'. intros m Hm.
    destruct (Z.lt_ge_cases m (Z.of_nat r)) as [Hlt|Hge].
    + specialize (H m ltac:(lia)). rewrite Z.lxor_spec in H.
      now destruct (Z.testbit j m), (Z.testbit j' m).
    + now rewrite (testbit_high j (Z.of_nat r)),
        (testbit_high j' (Z.of_nat r)) by lia.
  - intros <- m Hm. now rewrite Z.lxor_nilpotent, Z.bits_0.
Qed.

Lemma sgn_product (j j' g : Z) :
  (0 <= j)%Z -> (0 <= j')%Z ->
  IZR (sgn (Z.land j g)) * IZR (sgn (Z.land j' g))
  = IZR (sgn (Z.land (Z.lxor j j') g)).
Proof.
  intros Hj Hj'. rewrite <- mult_IZR. f_equal.
  rewrite (Z.land_comm (Z.lxor j j')), land_lxor_distr, sgn_lxor.
  - now rewrite !(Z.land_comm g).
  - apply Z.land_nonneg. now right.
  - apply Z.land_nonneg. now right.
Qed.

Lemma sumR_all_zero {A} (f : A -> R) (l : list A) :
  (forall x, In x l -> f x = 0) -> sumR (map f l) = 0.
Proof.
  intros H. rewrite (sumR_map_ext f (fun _ => 0)) by exact H.
  apply sumR_map_0.
Qed.

(** A sum over a range that is zero away from one index. *)
Lemma sumR_single (f : Z -> R) (L j : Z) :
  (0 <= j < L)%Z ->
  (forall x, (0 <= x < L)%Z -> x <> j -> f x = 0) ->
  sumR (map f (range 0 L)) = f j.
Proof.
  intros Hj H.
  rewrite (range_split 0 j L), (range_cons j L) by lia.
  rewrite map_app, sumR_app. cbn [map]. rewrite sumR_cons.
  rewrite !sumR_all_zero; [lra | |];
    intros x Hx; apply in_range in Hx; apply H; lia.
Qed.

(** The angles [theta] computed from [alpha] give [alpha] back when summed
    with the signs of the Gray code: the sign matrix is orthogonal. *)
Lemma theta_inversion (alpha : list R) (r : nat) (j : Z) :
  Z.of_nat (List.length alpha) = (2 ^ Z.of_nat r)%Z ->
  (0 <= j < 2 ^ Z.of_nat r)%Z ->
  sumR (map (fun k => IZR (sgn (Z.land j (gray k)))
                      * item (_compute_theta alpha) k)
            (range 0 (2 ^ Z.of_nat r)))
  = item alpha j.
Proof.
  intros Hlen Hj. set (L := (2 ^ Z.of_nat r)%Z) in *.
  assert (HL : (0 < L)%Z) by (apply Z.pow_pos_nonneg; lia).
  assert (HLR : INR (List.length alpha) = IZR L)
    by (rewrite INR_IZR_INZ; now f_equal).
  assert (HLR0 : IZR L <> 0) by (apply not_0_IZR; lia).
  rewrite (sumR_map_ext _
             (fun k => sumR (map (fun j' =>
                                    IZR (sgn (Z.land (Z.lxor j j') (gray k)))
                                    * (item alpha j' / IZR L))
                                 (range 0 L)))).
  - rewrite sumR_swap.
    rewrite (sumR_map_ext _
               (fun j' => (item alpha j' / IZR L) * T r (Z.lxor j j'))).
    + rewrite (sumR_single _ L j Hj).
      * rewrite Z.lxor_nilpotent, T_closed by lia.
        replace (low0 r 0) with true
          by (symmetry; apply low0_spec; intros; apply Z.bits_0).
        fold L. field. exact HLR0.
      * intros x Hx Hne. rewrite T_closed by (apply Z.lxor_nonneg; lia).
        destruct (low0 r (Z.lxor j x)) eqn:E; [|lra].
        apply low0_lxor in E; [congruence | fold L; lia | fold L; lia].
    + intros j' _. unfold T. fold L. rewrite <- sumR_map_scale.
      apply sumR_map_ext. intros k _. lra.
  - intros k Hk. apply in_range in Hk.
    rewrite compute_theta_closed_form. unfold scaled_matvec, matvec.
    rewrite map_map, Hlen. fold L. rewrite item_map_range0 by lia.
    rewrite HLR.
    transitivity
      (sumR (map (fun j0 =>
                    IZR (sgn (Z.land j (gray k))) / IZR L
                    * (M_code k j0 * nth (Z.to_nat j0) alpha 0))
                 (range 0 L))).
    { rewrite sumR_map_scale. field. exact HLR0. }
    apply sumR_map_ext. intros j' Hj'. apply in_range in Hj'.
    unfold M_code. rewrite matrix_M_entry_sgn.
    fold (item alpha j').
    rewrite <- (sgn_product j j') by lia. field. exact HLR0.
Qed.

End Orthogonality.

(** ** The expander implements a uniformly controlled rotation *)

Module Multiplexer.
Import Semantics Bits Blocks Sign GrayValues Sums Orthogonality.
Import Alpha AlphaClaims Expander.

Section WithBits.

Context {Wire : Type}.
Variable bit_of : Wire -> Z.

Variables (gate : rotation) (alpha : list R).
Variables (control_wires : list Wire) (target : Wire).
Variable p : Z.

Let r := Z.of_nat (List.length control_wires).
Let t := bit_of target.

(** The controls sit on the bits [p, p+1, ...] in the order of the list, the
    target on a lower bit. *)
Hypothesis controls_at :
  forall c, 0 <= c < r ->
            bit_of (nth (Z.to_nat c) control_wires target) = p + c.
Hypothesis target_below : 0 <= t < p.
Hypothesis alpha_length : Z.of_nat (List.length alpha) = 2 ^ r.

Let theta := _compute_theta alpha.
Let code := gray_code r.
Let L := 2 ^ r.

(** The step at position [k] of the Gray code. *)
Let step (k : Z) : R * Wire :=
  (item theta k,
   nth (Z.to_nat (control_index code k)) control_wires target).

Lemma ctrl_range (i : Z) : 0 <= ctrl p r i < L.
Proof. unfold ctrl, L. apply Z.mod_pos_bound, Z.pow_pos_nonneg; lia. Qed.

Lemma ctrl_bit (i c : Z) :
  0 <= c < r -> Z.testbit (ctrl p r i) c = Z.testbit i (p + c).
Proof.
  intros Hc. unfold ctrl.
  rewrite Z.mod_pow2_bits_low by lia.
  rewrite Z.div_pow2_bits by lia. f_equal. lia.
Qed.

Lemma uniform_rotation_ops_steps :
  uniform_rotation_ops gate theta control_wires target
  = steps_ops gate target (map step (range 0 L)).
Proof.
  unfold uniform_rotation_ops, steps_ops. fold r code L.
  rewrite !flat_map_concat_map, map_map. reflexivity.
Qed.

(** The flag a sign stands for. *)
Let flag (s : Z) : bool := s =? -1.

Lemma sign_of_flag (x : Z) : sign_of (flag (sgn x)) = IZR (sgn x).
Proof. unfold flag. destruct (sgn_pm x) as [-> | ->]; reflexivity. Qed.

Lemma flag_flip (b : bool) (x : Z) :
  flag (zsign b * sgn x) = xorb b (flag (sgn x)).
Proof. unfold flag. destruct (sgn_pm x) as [-> | ->], b; reflexivity. Qed.

Lemma lxor_move (a b c : Z) : Z.lxor a b = c -> b = Z.lxor a c.
Proof.
  intros <-. now rewrite <- Z.lxor_assoc, Z.lxor_nilpotent, Z.lxor_0_l.
Qed.

(** From position [m] of the Gray code on: the flips bring the pair back
    into place, and the angles met add up with the signs of the code. *)
Lemma acc_from (i : Z) (n : nat) :
  1 <= r ->
  forall m, 0 <= m <= L -> Z.to_nat (L - m) = n ->
  let j := ctrl p r i in
  let l := map step (range m L) in
  let f := flag (sgn (Z.land j (gray (m mod L)))) in
  acc_flip bit_of l f i = false
  /\ acc_angle bit_of l f i
     = sumR (map (fun k => (IZR (sgn (Z.land j (gray k))) * item theta k)%R)
                 (range m L)).
Proof.
  intros Hr. induction n as [|n IH]; intros m Hm Hn j l f.
  - assert (m = L) by lia. subst m l f.
    rewrite range_empty by lia. cbn [map acc_flip acc_angle].
    rewrite Z.mod_same by (unfold L; apply Z.pow_nonzero; lia).
    split; [|reflexivity].
    change (gray 0) with 0. now rewrite Z.land_0_r.
  - assert (Hlt : m < L) by lia. subst l f.
    rewrite range_cons by lia. cbn [map]. unfold step at 1 3.
    cbn [acc_flip acc_angle].
    rewrite Sums.sumR_cons.
    rewrite Z.mod_small by lia.
    destruct (control_index_pow2 r m Hr ltac:(fold L; lia)) as [Hc Hx].
    fold code L in Hc, Hx. set (c := control_index code m) in *.
    rewrite controls_at by exact Hc.
    rewrite <- (ctrl_bit i c) by exact Hc. fold j.
    rewrite <- flag_flip.
    rewrite <- sgn_land_flip;
      [| apply ctrl_range | apply gray_nonneg; lia | lia].
    rewrite <- (lxor_move _ _ _ Hx).
    destruct (IH (m + 1) ltac:(lia) ltac:(lia)) as [IH1 IH2].
    fold j in IH1, IH2. split; [exact IH1|].
    rewrite IH2, sign_of_flag. reflexivity.
Qed.

(** With at least one control. *)
Lemma run_uniform_rotation_ops (psi : State) :
  1 <= r ->
  run bit_of (uniform_rotation_ops gate theta control_wires target) psi
  = block t gate (fun _ => false) (fun i => item alpha (ctrl p r i)) psi.
Proof.
  intros Hr. rewrite uniform_rotation_ops_steps.
  rewrite <- (block_id t gate psi) at 1 by lia.
  assert (HL : 0 < L) by (apply Z.pow_pos_nonneg; lia).
  rewrite run_steps.
  - f_equal; extensionality i.
    + destruct (acc_from i (Z.to_nat L) Hr 0 ltac:(lia) ltac:(lia)) as [H _].
      rewrite Z.mod_0_l in H by lia. change (gray 0) with 0 in H.
      rewrite Z.land_0_r in H. exact H.
    + destruct (acc_from i (Z.to_nat L) Hr 0 ltac:(lia) ltac:(lia)) as [_ H].
      rewrite Z.mod_0_l in H by lia. change (gray 0) with 0 in H.
      rewrite Z.land_0_r in H. cbv zeta in H.
      change (flag (sgn 0)) with false in H. rewrite H, Rplus_0_l.
      destruct (Z_of_nat_complete r) as [rn Hrn]; [lia|].
      unfold L. rewrite Hrn. apply theta_inversion.
      * now rewrite <- Hrn.
      * rewrite <- Hrn. apply ctrl_range.
  - lia.
  - apply Forall_forall. intros s Hs. apply in_map_iff in Hs as (k & <- & Hk).
    apply in_range in Hk. cbn [snd step].
    destruct (control_index_pow2 r k Hr ltac:(fold L; lia)) as [Hc _].
    fold code in Hc. rewrite controls_at by exact Hc. fold t. lia.
  - intros i. split; reflexivity.
  - intros i. split; reflexivity.
Qed.

(** One call of the expander, with or without controls, rotates the pair of
    the target bit around each index [i] by the angle [alpha] holds for the
    control pattern of [i]. *)
Lemma run_expander_ops (psi : State) :
  run bit_of (expander_ops gate alpha control_wires target) psi
  = block t gate (fun _ => false) (fun i => item alpha (ctrl p r i)) psi.
Proof.
  assert (Hcase : (control_wires = [] /\ r = 0)
                  \/ (1 <= r /\ exists c cw, control_wires = c :: cw)).
  { subst r. destruct control_wires as [|c cw]; [left | right].
    - now split.
    - split; [cbn [List.length]; lia | eauto]. }
  unfold expander_ops. fold theta.
  destruct Hcase as [[E Hr] | [Hr (c & cw & E)]].
  - rewrite E. rewrite run_rotation_if_nonzero by (fold t; lia).
    rewrite <- (block_id t gate psi) at 1 by lia.
    fold t. rewrite apply_rot_block;
      [| fold t; lia | intros i; split; reflexivity
       | intros i; split; reflexivity].
    fold t. f_equal. extensionality i. cbn [sign_of].
    rewrite Hr. unfold ctrl. rewrite Z.pow_0_r, Z.mod_1_r.
    pose proof (theta_inversion alpha 0 0) as H.
    change (range 0 (2 ^ Z.of_nat 0)) with [0] in H. cbn [map] in H.
    change (gray 0) with 0 in H. rewrite Z.land_0_r, sgn_0 in H.
    rewrite Sums.sumR_cons, Sums.sumR_nil in H.
    fold theta in H. rewrite <- H.
    + lra.
    + rewrite alpha_length, Hr. reflexivity.
    + cbn. lia.
  - rewrite E. rewrite <- E. now apply run_uniform_rotation_ops.
Qed.

End WithBits.

End Multiplexer.

(** ** A basis-state index around one of its bits *)

Module Index.
Import Bits Sign.

Lemma setbit_add (i t : Z) :
  0 <= t -> Z.testbit i t = false -> Z.setbit i t = i + 2 ^ t.
Proof.
  intros Ht Hb. rewrite Z.add_nocarry_lxor.
  - rewrite lxor_pow2 by exact Ht. now rewrite Hb.
  - rewrite land_pow2 by exact Ht. now rewrite Hb.
Qed.

Lemma clearbit_sub (i t : Z) :
  0 <= t -> Z.testbit i t = true -> Z.clearbit i t = i - 2 ^ t.
Proof.
  intros Ht Hb.
  pose proof (setbit_add (Z.clearbit i t) t Ht
                (testbit_clearbit_same i t Ht)) as H.
  rewrite setbit_clearbit, setbit_id in H by assumption. lia.
Qed.

Section Parts.

Variables (t j l : Z) (b : bool).
Hypothesis Ht : 0 <= t.
Hypothesis Hj : 0 <= j.
Hypothesis Hl : 0 <= l < 2 ^ t.

Lemma parts_div_ : index_of t j l b / 2 ^ t = 2 * j + Z.b2z b.
Proof.
  symmetry. apply (Z.div_unique_pos _ _ _ l); [exact Hl|].
  unfold index_of. ring.
Qed.

Lemma parts_mod_ : index_of t j l b mod 2 ^ t = l.
Proof.
  symmetry. apply (Z.mod_unique_pos _ _ (2 * j + Z.b2z b)); [exact Hl|].
  unfold index_of. ring.
Qed.

Lemma parts_div2_ : index_of t j l b / (2 * 2 ^ t) = j.
Proof.
  symmetry. apply (Z.div_unique_pos _ _ _ (2 ^ t * Z.b2z b + l)).
  - destruct b; cbn [Z.b2z]; lia.
  - unfold index_of. ring.
Qed.

Lemma parts_mod2_ : index_of t j l b mod (2 * 2 ^ t) = 2 ^ t * Z.b2z b + l.
Proof.
  symmetry. apply (Z.mod_unique_pos _ _ j).
  - destruct b; cbn [Z.b2z]; lia.
  - unfold index_of. ring.
Qed.

Lemma parts_testbit_ : Z.testbit (index_of t j l b) t = b.
Proof.
  apply Z.b2z_inj. rewrite Z.testbit_spec' by exact Ht.
  rewrite parts_div_.
  rewrite Z.add_comm, Z.mul_comm, Z.mod_add by lia.
  destruct b; reflexivity.
Qed.

Lemma parts_clearbit_ : Z.clearbit (index_of t j l b) t = index_of t j l false.
Proof.
  pose proof parts_testbit_ as Hb. destruct b.
  - rewrite clearbit_sub by assumption. unfold index_of. cbn [Z.b2z]. lia.
  - now rewrite clearbit_id by assumption.
Qed.

Lemma parts_setbit_ : Z.setbit (index_of t j l b) t = index_of t j l true.
Proof.
  pose proof parts_testbit_ as Hb. destruct b.
  - now rewrite setbit_id by assumption.
  - rewrite setbit_add by assumption. unfold index_of. cbn [Z.b2z]. lia.
Qed.

End Parts.

(** The same facts with all their hypotheses spelled out. *)
Lemma parts_div (t j l : Z) (b : bool) :
  0 <= t -> 0 <= j -> 0 <= l < 2 ^ t ->
  index_of t j l b / 2 ^ t = 2 * j + Z.b2z b.
Proof. intros. now apply parts_div_. Qed.

Lemma parts_mod (t j l : Z) (b : bool) :
  0 <= t -> 0 <= j -> 0 <= l < 2 ^ t -> index_of t j l b mod 2 ^ t = l.
Proof. intros. now apply parts_mod_. Qed.

Lemma parts_div2 (t j l : Z) (b : bool) :
  0 <= t -> 0 <= j -> 0 <= l < 2 ^ t -> index_of t j l b / (2 * 2 ^ t) = j.
Proof. intros. now apply parts_div2_. Qed.

Lemma parts_mod2 (t j l : Z) (b : bool) :
  0 <= t -> 0 <= j -> 0 <= l < 2 ^ t ->
  index_of t j l b mod (2 * 2 ^ t) = 2 ^ t * Z.b2z b + l.
Proof. intros. now apply parts_mod2_. Qed.

Lemma parts_testbit (t j l : Z) (b : bool) :
  0 <= t -> 0 <= j -> 0 <= l < 2 ^ t -> Z.testbit (index_of t j l b) t = b.
Proof. intros. now apply parts_testbit_. Qed.

Lemma parts_clearbit (t j l : Z) (b : bool) :
  0 <= t -> 0 <= j -> 0 <= l < 2 ^ t ->
  Z.clearbit (index_of t j l b) t = index_of t j l false.
Proof. intros. now apply parts_clearbit_. Qed.

Lemma parts_setbit (t j l : Z) (b : bool) :
  0 <= t -> 0 <= j -> 0 <= l < 2 ^ t ->
  Z.setbit (index_of t j l b) t = index_of t j l true.
Proof. intros. now apply parts_setbit_. Qed.

Lemma index_of_range (t j l Q : Z) (b : bool) :
  0 <= t -> 0 <= j < Q -> 0 <= l < 2 ^ t ->
  0 <= index_of t j l b < 2 * 2 ^ t * Q.
Proof.
  intros Ht Hj Hl. unfold index_of. destruct b; cbn [Z.b2z]; nia.
Qed.

(** Every non-negative index has such parts. *)
Lemma parts_of (t i : Z) :
  0 <= t -> 0 <= i ->
  exists j l b,
    0 <= j /\ 0 <= l < 2 ^ t /\ i = index_of t j l b.
Proof.
  intros Ht Hi. set (P := 2 ^ t).
  assert (HP : 0 < P) by (apply Z.pow_pos_nonneg; lia).
  exists (i / P / 2), (i mod P), (Z.odd (i / P)).
  split; [apply Z.div_pos; [apply Z.div_pos|]; lia|].
  split; [apply Z.mod_pos_bound; lia|].
  pose proof (Z.div_mod i P ltac:(lia)) as H1.
  pose proof (Z.div2_odd (i / P)) as H2.
  rewrite Z.div2_div in H2. unfold index_of. fold P. lia.
Qed.

End Index.

(** ** Blocks of the amplitude and phase vectors *)

Module BlockSums.
Import Sums.

Local Open Scope R_scope.

Lemma pow2_succ (m : Z) : (0 <= m)%Z -> (2 ^ (m + 1) = 2 * 2 ^ m)%Z.
Proof.
  intros H. rewrite Z.pow_add_r by lia. change (2 ^ 1)%Z with 2%Z. lia.
Qed.

(** A sum over a block of size [2^(m+1)] is the sum over its two halves. *)
Lemma sum_block_split (f : Z -> R) (m b : Z) :
  (0 <= m)%Z ->
  sumR (map (fun l => f (b * 2 ^ (m + 1) + l)%Z) (range 0 (2 ^ (m + 1))))
  = sumR (map (fun l => f (2 * b * 2 ^ m + l)%Z) (range 0 (2 ^ m)))
    + sumR (map (fun l => f ((2 * b + 1) * 2 ^ m + l)%Z) (range 0 (2 ^ m))).
Proof.
  intros Hm. rewrite pow2_succ by exact Hm. set (P := (2 ^ m)%Z).
  assert (HP : (0 < P)%Z) by (apply Z.pow_pos_nonneg; lia).
  rewrite (range_split 0 P (2 * P)) by lia.
  rewrite map_app, sumR_app. f_equal.
  - apply sumR_map_ext. intros l _. f_equal. lia.
  - rewrite (range_shift P (2 * P)). replace (2 * P - P)%Z with P by lia.
    rewrite map_map. apply sumR_map_ext. intros l _. f_equal. lia.
Qed.

Lemma blocksum_split (a : list R) (m b : Z) :
  (0 <= m)%Z ->
  blocksum a (m + 1) b = blocksum a m (2 * b) + blocksum a m (2 * b + 1).
Proof.
  intros Hm. unfold blocksum.
  apply (sum_block_split (fun x => item a x ^ 2) m b Hm).
Qed.

Lemma sumR_nonneg {A} (f : A -> R) (l : list A) :
  (forall x, 0 <= f x) -> 0 <= sumR (map f l).
Proof.
  intros H. induction l as [|x l IH]; cbn [map].
  - rewrite sumR_nil. lra.
  - rewrite sumR_cons. specialize (H x). lra.
Qed.

Lemma blocksum_nonneg (a : list R) (m b : Z) : 0 <= blocksum a m b.
Proof.
  unfold blocksum. apply sumR_nonneg. intros x. apply pow2_ge_0.
Qed.

Lemma blockmean_split (omega : list R) (m b : Z) :
  (0 <= m)%Z ->
  blockmean omega (m + 1) b
  = (blockmean omega m (2 * b) + blockmean omega m (2 * b + 1)) / 2.
Proof.
  intros Hm. unfold blockmean.
  rewrite (sum_block_split (item omega) m b Hm).
  rewrite pow2_succ, mult_IZR by exact Hm.
  assert (IZR (2 ^ m) <> 0).
  { apply not_0_IZR. pose proof (Z.pow_pos_nonneg 2 m). lia. }
  field. assumption.
Qed.

(** The half-angle of an entry of [alpha_y] splits the weight of a block
    into the weights of its halves. *)
Lemma ry_split (num den : R) :
  0 <= num <= den ->
  let alpha := 2 * asin (sqrt (if nonzero den then num / den else 0)) in
  cos (alpha / 2) * sqrt den = sqrt (den - num)
  /\ sin (alpha / 2) * sqrt den = sqrt num.
Proof.
  intros H alpha. subst alpha.
  replace (2 * asin (sqrt (if nonzero den then num / den else 0)) / 2)
    with (asin (sqrt (if nonzero den then num / den else 0))) by lra.
  unfold nonzero. destruct (Req_dec_T den 0) as [E|E].
  - assert (num = 0) by lra. subst.
    rewrite sqrt_0, asin_0, cos_0, sin_0, Rminus_0_r, sqrt_0. lra.
  - assert (Hden : 0 < den) by lra.
    assert (Hx : 0 <= num / den <= 1).
    { split.
      - apply Rmult_le_pos; [lra|]. left. now apply Rinv_0_lt_compat.
      - apply Rmult_le_reg_r with den; [exact Hden|].
        unfold Rdiv. rewrite Rmult_assoc, Rinv_l by exact E. lra. }
    assert (Hs : -1 <= sqrt (num / den) <= 1).
    { split.
      - pose proof (sqrt_pos (num / den)). lra.
      - rewrite <- sqrt_1. apply sqrt_le_1_alt. lra. }
    rewrite cos_asin, sin_asin by exact Hs.
    rewrite Rsqr_sqrt by lra.
    rewrite <- !sqrt_mult_alt by lra.
    split; f_equal; field; exact E.
Qed.

End BlockSums.

(** ** The two cascades *)

Module Cascades.
Import Semantics Bits Blocks Sums BlockSums Index Multiplexer.
Import Alpha AlphaClaims.

Section WithWires.

Context {Wire : Type}.
Variable bit_of : Wire -> Z.
Variable wires : list Wire.

Let N := Z.of_nat (List.length wires).

(** The first declared wire is the most significant bit: the wire at
    position [q] of the reversed list stands for bit [q]. *)
Hypothesis wires_bits :
  forall q w, nth_error (rev wires) q = Some w -> bit_of w = Z.of_nat q.

Lemma rev_wires_bit (q : Z) (d : Wire) :
  0 <= q < N -> bit_of (nth (Z.to_nat q) (rev wires) d) = q.
Proof.
  intros Hq. rewrite (wires_bits (Z.to_nat q)); [lia|].
  apply nth_error_nth'. rewrite length_rev. lia.
Qed.

(** One step of a cascade rotates the pairs of bit [k - 1] by the angle
    [alpha] holds for the bits above. *)
Lemma cascade_step_sem (gate : rotation) (alpha_res : result (list R))
    (alpha : list R) (k : Z) (psi : State) :
  1 <= k <= N ->
  alpha_res = Ok alpha ->
  Z.of_nat (List.length alpha) = 2 ^ (N - k) ->
  run bit_of (cascade_step_ops gate alpha_res (rev wires) k) psi
  = block (k - 1) gate (fun _ => false)
          (fun i => item alpha (ctrl k (N - k) i)) psi.
Proof.
  intros Hk -> Hlen. unfold cascade_step_ops, getitem.
  destruct (Z.ltb_spec (k - 1) 0) as [|_]; [lia|].
  destruct (nth_error (rev wires) (Z.to_nat (k - 1))) as [target|] eqn:E.
  2:{ apply nth_error_None in E. rewrite length_rev in E. lia. }
  assert (Ht : bit_of target = k - 1)
    by (rewrite (wires_bits _ _ E); lia).
  assert (Hr : Z.of_nat (List.length (slice_from (rev wires) k)) = N - k).
  { unfold slice_from. rewrite length_skipn, length_rev. lia. }
  rewrite (run_expander_ops bit_of gate alpha _ target k).
  - now rewrite Ht, Hr.
  - intros c Hc. rewrite Hr in Hc. unfold slice_from. rewrite nth_skipn.
    replace (Z.to_nat k + Z.to_nat c)%nat with (Z.to_nat (k + c)) by lia.
    apply rev_wires_bit. lia.
  - lia.
  - now rewrite Hr.
Qed.

End WithWires.

(** *** The Y-cascade *)

Section Amplitudes.

Variables (a : list R) (N : Z).
Hypothesis a_length : Z.of_nat (List.length a) = 2 ^ N.

Lemma ry_pair (alpha X : R) :
  rot_pair RY alpha ((X, 0%R), (0%R, 0%R))
  = ((cos (alpha / 2) * X, 0)%R, (sin (alpha / 2) * X, 0)%R).
Proof.
  unfold rot_pair, Cadd, Cscale. cbn [fst snd].
  repeat apply pair_eq; cbn [fst snd]; ring.
Qed.

(** The entries of [alpha_y] in terms of block weights. *)
Lemma alpha_y_item (m : Z) (alpha : list R) (j : Z) :
  0 <= m < N ->
  _get_alpha_y a N (m + 1) = Ok alpha ->
  0 <= j < 2 ^ (N - (m + 1)) ->
  item alpha j
  = (2 * asin (sqrt (if nonzero (blocksum a (m + 1) j)
                     then blocksum a m (2 * j + 1) / blocksum a (m + 1) j
                     else 0)))%R.
Proof.
  intros Hm Halpha Hj.
  rewrite get_alpha_y_closed_form in Halpha by (assumption || lia).
  injection Halpha as <-.
  rewrite item_map_range0 by exact Hj. cbv zeta.
  replace (m + 1 - 1) with m by lia. reflexivity.
Qed.

(** One step of the Y-cascade takes the weights of the blocks of size
    [2^(m+1)] to the weights of their halves. *)
Lemma amplitude_step (m : Z) (alpha : list R) (psi : State) :
  0 <= m < N ->
  _get_alpha_y a N (m + 1) = Ok alpha ->
  amplitude_level a N (m + 1) psi ->
  amplitude_level a N m
    (block m RY (fun _ => false)
           (fun i => item alpha (ctrl (m + 1) (N - (m + 1)) i)) psi).
Proof.
  intros Hm Halpha Hlev i Hi.
  destruct (block_sizes N (m + 1) ltac:(lia)) as (HP & HQ & HP2 & HN).
  replace (m + 1 - 1) with m in * by lia.
  set (Q := 2 ^ (N - (m + 1))) in *.
  destruct (parts_of m i ltac:(lia) ltac:(lia)) as (j & l & b & Hj & Hl & Ei).
  assert (HjQ : j < Q)
    by (unfold index_of in Ei; destruct b; cbn [Z.b2z] in Ei; nia).
  assert (Hrange : forall b', 0 <= index_of m j l b' < 2 ^ N).
  { intros b'. rewrite HN. apply index_of_range; lia. }
  unfold block, swap_if. subst i.
  (* the angle *)
  unfold ctrl. rewrite HP2, parts_div2 by lia.
  fold Q. rewrite Z.mod_small by lia.
  rewrite (alpha_y_item m alpha j Hm Halpha) by (fold Q; lia).
  set (angle := (2 * asin _)%R).
  pose proof (blocksum_split a m j ltac:(lia)) as Hsplit.
  pose proof (blocksum_nonneg a m (2 * j)) as H0.
  pose proof (blocksum_nonneg a m (2 * j + 1)) as H1.
  destruct (ry_split (blocksum a m (2 * j + 1)) (blocksum a (m + 1) j)
              ltac:(lra)) as [Hc Hs].
  fold angle in Hc, Hs.
  replace (blocksum a (m + 1) j - blocksum a m (2 * j + 1))%R
    with (blocksum a m (2 * j)) in Hc by lra.
  (* the index and its pair *)
  rewrite parts_testbit, parts_mod, parts_div by lia.
  unfold pair_at. rewrite parts_clearbit, parts_setbit by lia.
  (* the register before the step *)
  rewrite !Hlev by apply Hrange.
  rewrite HP2, !parts_mod2, !parts_div2 by lia.
  change (Z.b2z false) with 0. change (Z.b2z true) with 1.
  rewrite Z.mul_0_r, Z.mul_1_r, Z.add_0_l.
  destruct (Z.eqb_spec (2 ^ m + l) 0) as [|_]; [lia|].
  rewrite ry_pair.
  destruct (Z.eqb_spec l 0) as [El|El]; destruct b; unfold sel;
    change (Z.b2z false) with 0; change (Z.b2z true) with 1;
    rewrite ?Z.add_0_r; cbn [fst snd].
  - now rewrite Hs.
  - now rewrite Hc.
  - now rewrite Rmult_0_r.
  - now rewrite Rmult_0_r.
Qed.

End Amplitudes.

End Cascades.

(** ** Complex numbers in polar form *)

Module Polar.
Import Semantics.

Local Open Scope R_scope.

Lemma Cexp_mul (x y : R) (z : C) :
  Cmul (Cexp_i x) (Cmul (Cexp_i y) z) = Cmul (Cexp_i (x + y)) z.
Proof.
  destruct z as [u v]. unfold Cmul, Cexp_i. cbn [fst snd].
  rewrite cos_plus, sin_plus. apply pair_eq; cbn [fst snd]; ring.
Qed.

Lemma Cexp_0 (z : C) : Cmul (Cexp_i 0) z = z.
Proof.
  destruct z as [u v]. unfold Cmul, Cexp_i. cbn [fst snd].
  rewrite cos_0, sin_0. apply pair_eq; cbn [fst snd]; ring.
Qed.

Lemma Cexp_real (phi r : R) :
  Cmul (Cexp_i phi) (r, 0) = (r * cos phi, r * sin phi).
Proof.
  unfold Cmul, Cexp_i. cbn [fst snd]. apply pair_eq; cbn [fst snd]; ring.
Qed.

Lemma hypot_factor (x y : R) :
  x <> 0 -> sqrt (x * x + y * y) = Rabs x * sqrt (1 + (y / x)²).
Proof.
  intros Hx.
  replace (x * x + y * y) with (x² * (1 + (y / x)²))
    by (unfold Rsqr; field; exact Hx).
  rewrite sqrt_mult_alt by apply Rle_0_sqr.
  now rewrite sqrt_Rsqr_abs.
Qed.

Lemma sqrt_1_plus_sqr_pos (t : R) : 0 < sqrt (1 + t²).
Proof. apply sqrt_lt_R0. pose proof (Rle_0_sqr t). lra. Qed.

(** A complex number is its magnitude times the unit phase of its
    argument. *)
Lemma polar (z : C) : Cmul (Cexp_i (Cangle z)) (Cabs z, 0) = z.
Proof.
  destruct z as [x y]. rewrite Cexp_real.
  unfold Cangle, Cabs, arctan2. cbn [fst snd].
  destruct (Rlt_dec 0 x) as [Hpos|Hnpos].
  - rewrite hypot_factor, cos_atan, sin_atan by lra.
    rewrite Rabs_pos_eq by lra.
    pose proof (sqrt_1_plus_sqr_pos (y / x)).
    apply pair_eq; cbn [fst snd]; field; lra.
  - destruct (Rlt_dec x 0) as [Hneg|Hnneg].
    + assert (Hc : forall a, (cos (a - PI) = - cos a
                              /\ sin (a - PI) = - sin a)).
      { intros a. rewrite cos_minus, sin_minus, cos_PI, sin_PI. lra. }
      pose proof (sqrt_1_plus_sqr_pos (y / x)).
      destruct (Rle_dec 0 y);
        rewrite hypot_factor by lra;
        [ rewrite neg_cos, neg_sin
        | rewrite (proj1 (Hc (atan (y / x)))), (proj2 (Hc (atan (y / x)))) ];
        rewrite cos_atan, sin_atan, Rabs_left by lra;
        apply pair_eq; cbn [fst snd]; field; lra.
    + assert (x = 0) by lra. subst x.
      replace (0 * 0 + y * y) with (y²) by (unfold Rsqr; lra).
      rewrite sqrt_Rsqr_abs.
      destruct (Rlt_dec 0 y) as [Hy|Hny].
      * rewrite cos_PI2, sin_PI2, Rabs_pos_eq by lra.
        apply pair_eq; cbn [fst snd]; lra.
      * destruct (Rlt_dec y 0) as [Hy|Hny'].
        -- rewrite cos_neg, sin_neg, cos_PI2, sin_PI2, Rabs_left by lra.
           apply pair_eq; cbn [fst snd]; lra.
        -- assert (y = 0) by lra. subst y.
           rewrite Rabs_R0. apply pair_eq; cbn [fst snd]; lra.
Qed.

End Polar.

(** *** The Z-cascade *)

Module Phases.
Import Semantics Bits Blocks Sums BlockSums Index Multiplexer Polar.
Import Alpha AlphaClaims.

Section WithPhases.

Variables (a omega : list R) (N : Z).
Hypothesis omega_length : Z.of_nat (List.length omega) = 2 ^ N.

Local Open Scope R_scope.

Lemma sumR_map_minus_div {A} (f g : A -> R) (c : R) (l : list A) :
  sumR (map (fun x => (f x - g x) / c) l)
  = sumR (map f l) / c - sumR (map g l) / c.
Proof.
  induction l as [|x l IH]; cbn [map].
  - rewrite !sumR_nil. lra.
  - rewrite !sumR_cons, IH. lra.
Qed.

(** The entries of [alpha_z] are differences of block means. *)
Lemma alpha_z_item (m : Z) (alpha : list R) (j : Z) :
  (0 <= m < N)%Z ->
  _get_alpha_z omega N (m + 1) = Ok alpha ->
  (0 <= j < 2 ^ (N - (m + 1)))%Z ->
  item alpha j = blockmean omega m (2 * j + 1) - blockmean omega m (2 * j).
Proof.
  intros Hm Halpha Hj.
  rewrite get_alpha_z_closed_form in Halpha by (assumption || lia).
  assert (E : alpha = _) by (symmetry; exact (f_equal (fun x => match x with Ok v => v | Raise _ => alpha end) Halpha)).
  rewrite E. clear E Halpha.
  replace j with (j + 1 - 1)%Z at 1 by lia.
  rewrite item_map_range1 by lia.
  replace (m + 1 - 1)%Z with m by lia.
  rewrite sumR_map_minus_div. unfold blockmean.
  rewrite (range_shift 1 (2 ^ m + 1)).
  replace (2 ^ m + 1 - 1)%Z with (2 ^ m)%Z by lia.
  rewrite !map_map. f_equal; f_equal; apply sumR_map_ext; intros l _;
    f_equal; ring.
Qed.

Lemma rz_sel (b : bool) (alpha : R) (z0 z1 : C) :
  sel b (rot_pair RZ alpha (z0, z1))
  = Cmul (Cexp_i (sign_of (negb b) * (alpha / 2))) (if b then z1 else z0).
Proof.
  destruct b; unfold sel, rot_pair, sign_of; cbn [fst snd negb];
    do 2 f_equal; lra.
Qed.

(** One step of the Z-cascade takes the mean phases of the blocks of size
    [2^(m+1)] to the mean phases of their halves. *)
Lemma phase_step (m : Z) (alpha : list R) (psi : State) :
  (0 <= m < N)%Z ->
  _get_alpha_z omega N (m + 1) = Ok alpha ->
  phase_level a omega N (m + 1) psi ->
  phase_level a omega N m
    (block m RZ (fun _ => false)
           (fun i => item alpha (ctrl (m + 1) (N - (m + 1)) i)) psi).
Proof.
  intros Hm Halpha Hlev i Hi.
  destruct (block_sizes N (m + 1) ltac:(lia)) as (HP & HQ & HP2 & HN).
  replace (m + 1 - 1)%Z with m in * by lia.
  set (Q := (2 ^ (N - (m + 1)))%Z) in *.
  destruct (parts_of m i ltac:(lia) ltac:(lia)) as (j & l & b & Hj & Hl & Ei).
  assert (HjQ : (j < Q)%Z)
    by (unfold index_of in Ei; destruct b; cbn [Z.b2z] in Ei; nia).
  unfold block, swap_if.
  unfold ctrl. rewrite Ei at 2. rewrite HP2, parts_div2 by lia.
  fold Q. rewrite Z.mod_small by lia.
  rewrite (alpha_z_item m alpha j Hm Halpha) by (fold Q; lia).
  unfold pair_at. rewrite rz_sel.
  replace (if Z.testbit i m then psi (Z.setbit i m) else psi (Z.clearbit i m))
    with (psi i).
  2:{ destruct (Z.testbit i m) eqn:E.
      - now rewrite setbit_id by (assumption || lia).
      - now rewrite clearbit_id by (assumption || lia). }
  rewrite Hlev by exact Hi. rewrite Cexp_mul.
  rewrite Ei. rewrite parts_testbit, HP2, parts_div2, parts_div by lia.
  rewrite blockmean_split by lia.
  do 2 f_equal.
  destruct b; unfold sign_of; cbn [negb Z.b2z]; rewrite ?Z.add_0_r; lra.
Qed.

End WithPhases.

End Phases.

(** ** The prepared state *)

Module StatePreparation.
Import Semantics Blocks Sums BlockSums Cascades Phases Polar.
Import Alpha AlphaClaims Driver.

(** *** The ends of the two cascades *)

Section Ends.

Variable state_vector : list C.
Variable N : Z.

Let a := map Cabs state_vector.
Let omega := map Cangle state_vector.

Hypothesis N_nonneg : 0 <= N.
Hypothesis shape : Z.of_nat (List.length state_vector) = 2 ^ N.

Lemma sum_items (f : R -> R) (l : list R) (n : Z) :
  Z.of_nat (List.length l) = n ->
  sumR (map (fun i => f (item l i)) (range 0 n)) = sumR (map f l).
Proof.
  intros <-. rewrite range_0_nat, map_map. unfold item.
  rewrite (map_ext _ (fun i => f (nth i l 0%R)))
    by (intros i; now rewrite Nat2Z.id).
  rewrite <- (map_map (fun i => nth i l 0%R) f), map_nth_seq. reflexivity.
Qed.

Lemma item_abs (i : Z) :
  0 <= i < 2 ^ N ->
  item a i = Cabs (nth (Z.to_nat i) state_vector (0%R, 0%R)).
Proof.
  intros Hi. unfold item, a.
  rewrite (nth_indep _ 0%R (Cabs (0%R, 0%R))) by (rewrite length_map; lia).
  apply map_nth.
Qed.

Lemma item_angle (i : Z) :
  0 <= i < 2 ^ N ->
  item omega i = Cangle (nth (Z.to_nat i) state_vector (0%R, 0%R)).
Proof.
  intros Hi. unfold item, omega.
  rewrite (nth_indep _ 0%R (Cangle (0%R, 0%R))) by (rewrite length_map; lia).
  apply map_nth.
Qed.

Lemma item_abs_nonneg (i : Z) : (0 <= item a i)%R.
Proof.
  unfold item, a.
  destruct (nth_in_or_default (Z.to_nat i) (map Cabs state_vector) 0%R)
    as [H | ->]; [|lra].
  apply in_map_iff in H. destruct H as (z & <- & _).
  apply sqrt_pos.
Qed.

(** The reference state is where the Y-cascade starts: the whole vector is
    one block, of weight one. *)
Lemma ket0_level :
  squared_norm state_vector = 1%R -> amplitude_level a N N ket0.
Proof.
  intros Hnorm i Hi. unfold ket0.
  rewrite Z.mod_small, Z.div_small by lia.
  unfold blocksum.
  rewrite (map_ext _ (fun l => ((fun x => x ^ 2) (item a l))%R))
    by (intros l; now rewrite Z.mul_0_l, Z.add_0_l).
  rewrite (sum_items (fun x => (x ^ 2)%R) a)
    by (unfold a; now rewrite length_map).
  unfold a. rewrite map_map. fold (squared_norm state_vector).
  rewrite Hnorm, sqrt_1. now destruct (i =? 0).
Qed.

(** Where the Y-cascade ends, the register holds the magnitudes. *)
Lemma amplitude_done (psi : State) (i : Z) :
  amplitude_level a N 0 psi -> 0 <= i < 2 ^ N -> psi i = (item a i, 0%R).
Proof.
  intros Hlev Hi. rewrite (Hlev i Hi).
  change (2 ^ 0) with 1. rewrite Z.mod_1_r, Z.div_1_r. cbn [Z.eqb].
  unfold blocksum. change (2 ^ 0) with 1.
  change (range 0 1) with [0]. cbn [map].
  rewrite sumR_cons, sumR_nil, Z.mul_1_r, Z.add_0_r, Rplus_0_r.
  f_equal. rewrite <- Rsqr_pow2. apply sqrt_Rsqr, item_abs_nonneg.
Qed.

(** The magnitudes are where the Z-cascade starts. *)
Lemma phase_start (psi : State) :
  (forall i, 0 <= i < 2 ^ N -> psi i = (item a i, 0%R)) ->
  phase_level a omega N N psi.
Proof.
  intros Hpsi i Hi. rewrite Z.div_small by lia.
  replace (blockmean omega N 0 - blockmean omega N 0)%R with 0%R by lra.
  rewrite Cexp_0. now apply Hpsi.
Qed.

Lemma blockmean_0 (i : Z) : blockmean omega 0 i = item omega i.
Proof.
  unfold blockmean. change (2 ^ 0) with 1.
  change (range 0 1) with [0]. cbn [map].
  rewrite sumR_cons, sumR_nil, Z.mul_1_r, Z.add_0_r. lra.
Qed.

(** Where the Z-cascade ends, the register holds the state vector, up to the
    mean of its phases. *)
Lemma phase_done (psi : State) (i : Z) :
  phase_level a omega N 0 psi -> 0 <= i < 2 ^ N ->
  psi i = Cmul (Cexp_i (- blockmean omega N 0))
               (nth (Z.to_nat i) state_vector (0%R, 0%R)).
Proof.
  intros Hlev Hi. rewrite (Hlev i Hi).
  change (2 ^ 0) with 1. rewrite Z.div_1_r, blockmean_0.
  rewrite item_abs, item_angle by exact Hi.
  rewrite <- (polar (nth (Z.to_nat i) state_vector (0%R, 0%R))) at 3.
  rewrite Cexp_mul. do 2 f_equal. lra.
Qed.

End Ends.

(** *** The cascades as a whole *)

Section WithWires.

Context {Wire : Type}.
Variable bit_of : Wire -> Z.
Variable wires : list Wire.

Let N := Z.of_nat (List.length wires).

Hypothesis wires_bits :
  forall q w, nth_error (rev wires) q = Some w -> bit_of w = Z.of_nat q.

(** A cascade visits [k = N, ..., 1]; if each of its steps takes level [k] of
    an invariant to level [k - 1], the cascade takes level [N] to level 0. *)
Lemma cascade_run (gate : rotation) (alpha_of : Z -> result (list R))
    (level : Z -> State -> Prop) :
  (forall k, 1 <= k <= N ->
             exists alpha, alpha_of k = Ok alpha
                           /\ Z.of_nat (List.length alpha) = 2 ^ (N - k)) ->
  (forall m alpha psi,
      0 <= m < N -> alpha_of (m + 1) = Ok alpha -> level (m + 1) psi ->
      level m (block m gate (fun _ => false)
                     (fun i => item alpha (ctrl (m + 1) (N - (m + 1)) i))
                     psi)) ->
  forall psi,
    level N psi ->
    level 0 (run bit_of
               (flat_map (fun k => cascade_step_ops gate (alpha_of k)
                                                    (rev wires) k)
                         (range_n_to_1 N))
               psi).
Proof.
  intros Halpha Hstep psi Hpsi.
  assert (H : forall d : nat,
             Z.of_nat d <= N ->
             level (N - Z.of_nat d)
                   (run bit_of
                      (flat_map (fun k => cascade_step_ops gate (alpha_of k)
                                                           (rev wires) k)
                                (rev (range (N - Z.of_nat d + 1) (N + 1))))
                      psi)).
  { induction d as [|d IH]; intros Hd.
    - rewrite range_empty by lia. cbn [rev flat_map Z.of_nat].
      now rewrite Z.sub_0_r.
    - specialize (IH ltac:(lia)).
      set (m := N - Z.of_nat (S d)) in *.
      replace (N - Z.of_nat d) with (m + 1) in IH by lia.
      rewrite (range_cons (m + 1)) by lia. cbn [rev].
      rewrite flat_map_app, run_app. cbn [flat_map]. rewrite app_nil_r.
      destruct (Halpha (m + 1) ltac:(lia)) as (alpha & Ealpha & Hlen).
      rewrite (cascade_step_sem bit_of wires wires_bits gate _ alpha)
        by (assumption || (fold N; lia)).
      fold N. replace (m + 1 - 1) with m by lia.
      apply Hstep; [lia | exact Ealpha | exact IH]. }
  specialize (H (Z.to_nat N) ltac:(lia)).
  unfold range_n_to_1.
  replace (N - Z.of_nat (Z.to_nat N)) with 0 in H by lia.
  exact H.
Qed.

Variable state_vector : list C.

Hypothesis shape : Z.of_nat (List.length state_vector) = 2 ^ N.
Hypothesis normalized : squared_norm state_vector = 1%R.

(** Wires that stand for different bits are different wires. *)
Lemma wires_bits_NoDup : NoDup wires.
Proof.
  rewrite <- (rev_involutive wires). apply NoDup_rev.
  apply NoDup_nth_error. intros i j Hi E.
  destruct (nth_error (rev wires) i) as [w|] eqn:Ei;
    [|apply nth_error_None in Ei; lia].
  pose proof (wires_bits i w Ei) as Bi.
  pose proof (wires_bits j w (eq_sym E)) as Bj. lia.
Qed.

Lemma normalized_accepted : accepted state_vector wires.
Proof.
  split; [exact wires_bits_NoDup|].
  split; [exact shape|]. rewrite normalized. apply isclose_true.
  replace (1 - 1)%R with 0%R by lra. rewrite Rabs_R0, Rabs_R1.
  unfold default_rtol. lra.
Qed.

(** The operations the driver emits take the reference state to the state
    vector, rotated by minus the mean of its phases. *)
Lemma run_state_preparation_ops (i : Z) :
  0 <= i < 2 ^ N ->
  run bit_of (state_preparation_ops state_vector wires) ket0 i
  = Cmul (Cexp_i (- blockmean (map Cangle state_vector) N 0))
         (nth (Z.to_nat i) state_vector (0%R, 0%R)).
Proof.
  intros Hi. unfold state_preparation_ops. fold N.
  set (a := map Cabs state_vector). set (omega := map Cangle state_vector).
  assert (Ha : Z.of_nat (List.length a) = 2 ^ N)
    by (unfold a; now rewrite length_map).
  assert (Homega : Z.of_nat (List.length omega) = 2 ^ N)
    by (unfold omega; now rewrite length_map).
  rewrite run_app.
  apply (phase_done state_vector N); [lia | exact shape | | exact Hi].
  apply (cascade_run RZ (_get_alpha_z omega N) (phase_level a omega N)).
  - intros k Hk. eexists. split.
    + apply get_alpha_z_closed_form; assumption.
    + rewrite length_map_range; [lia|].
      pose proof (Z.pow_pos_nonneg 2 (N - k)). lia.
  - intros m alpha psi Hm Ealpha Hlev.
    now apply (phase_step a omega N Homega).
  - apply (phase_start state_vector N). intros j Hj.
    apply (amplitude_done state_vector N); [|exact Hj].
    apply (cascade_run RY (_get_alpha_y a N) (amplitude_level a N)).
    + intros k Hk. eexists. split.
      * apply get_alpha_y_closed_form; assumption.
      * rewrite length_map_range; [lia|].
        pose proof (Z.pow_pos_nonneg 2 (N - k)). lia.
    + intros m alpha psi Hm Ealpha Hlev.
      now apply (amplitude_step a N Ha).
    + apply (ket0_level state_vector N); [exact shape | exact normalized].
Qed.

End WithWires.

(** C1: for every [N >= 1] wires and every normalized complex state vector
    of length [2^N], the driver passes validation and returns, and the
    operations it has emitted (the Y-cascade, then the Z-cascade), applied
    in order to the all-zero reference state of the [N] qubits, produce the
    state vector multiplied by one complex number [e^(i phi)] of magnitude
    one.  The first declared wire is the most significant bit of a basis
    state; the gates act by the matrices of the Y-rotation, the Z-rotation
    and the controlled bit flip. *)
Theorem state_preparation_correct {Wire : Type} {Wire_eq : WireEq Wire}
    (bit_of : Wire -> Z) (state_vector : list C) (wires : list Wire)
    (q : list (Operation Wire)) :
  let N := Z.of_nat (List.length wires) in
  1 <= N ->
  (forall p w, nth_error (rev wires) p = Some w -> bit_of w = Z.of_nat p) ->
  Z.of_nat (List.length state_vector) = 2 ^ N ->
  squared_norm state_vector = 1%R ->
  exists (ops : list (Operation Wire)) (phi : R),
    MottonenStatePreparation state_vector wires q = (Ok tt, q ++ ops)
    /\ forall i, 0 <= i < 2 ^ N ->
                 run bit_of ops ket0 i
                 = Cmul (Cexp_i phi)
                        (nth (Z.to_nat i) state_vector (0%R, 0%R)).
Proof.
  intros N HN Hbits Hshape Hnorm.
  exists (state_preparation_ops state_vector wires),
         (- blockmean (map Cangle state_vector) N 0)%R.
  split.
  - apply driver_accepted. now apply (normalized_accepted bit_of).
  - intros i Hi. now apply run_state_preparation_ops.
Qed.

Lemma uniform4_normalized : squared_norm uniform4 = 1%R.
Proof.
  unfold squared_norm, uniform4. cbn [map].
  rewrite !sumR_cons, sumR_nil, !Cabs_sq. cbn [fst snd]. lra.
Qed.

Lemma state_preparation_correct_witness :
  exists (ops : list (Operation Z)) (phi : R),
    MottonenStatePreparation uniform4 [0; 1] [] = (Ok tt, [] ++ ops)
    /\ forall i, 0 <= i < 2 ^ 2 ->
                 run (fun w => 1 - w) ops ket0 i
                 = Cmul (Cexp_i phi) (nth (Z.to_nat i) uniform4 (0%R, 0%R)).
Proof.
  apply (state_preparation_correct (fun w : Z => 1 - w) uniform4 [0; 1] []).
  - cbn. lia.
  - intros [|[|[|p]]] w H; cbn in H; try discriminate;
      now injection H as <-.
  - reflexivity.
  - exact uniform4_normalized.
Defined.

End StatePreparation.

(** ** gray_code: the words it lists *)

Module GrayWords.
Import GrayCode GrayFacts GrayClaims Words GrayValues Expander Alpha.

Lemma gray_code_succ (r : Z) :
  1 <= r -> gray_code (r + 1) = gray_step (gray_code r).
Proof.
  intros Hr.
  replace r with (Z.of_nat (S (Z.to_nat (r - 1)))) by lia.
  replace (Z.of_nat (S (Z.to_nat (r - 1))) + 1)
    with (Z.of_nat (S (S (Z.to_nat (r - 1))))) by lia.
  rewrite !gray_code_iter. reflexivity.
Qed.

Lemma prefix_NoDup (c : ascii) (g : list string) :
  NoDup g -> NoDup (map (String c) g).
Proof.
  induction 1 as [|w g Hw Hg IH]; cbn [map]; constructor; [|exact IH].
  intros Hin. apply in_map_iff in Hin. destruct Hin as (v & E & Hv).
  injection E as ->. contradiction.
Qed.

Lemma gray_step_NoDup (g : list string) : NoDup g -> NoDup (gray_step g).
Proof.
  intros Hg. unfold gray_step. apply NoDup_app.
  - now apply prefix_NoDup.
  - now apply prefix_NoDup, NoDup_rev.
  - intros w H0 H1. apply in_map_iff in H0. apply in_map_iff in H1.
    destruct H0 as (s & <- & _). destruct H1 as (t & E & _). discriminate.
Qed.

Lemma iter_gray_step_NoDup (n : nat) :
  NoDup (Nat.iter n gray_step ["0"; "1"]%string).
Proof.
  induction n as [|n IH].
  - cbn [Nat.iter]. repeat constructor; cbn; intuition discriminate.
  - rewrite Nat.iter_succ. now apply gray_step_NoDup.
Qed.

Lemma iter_gray_step_complete (n : nat) (w : string) :
  bitstring w = true -> String.length w = S n ->
  In w (Nat.iter n gray_step ["0"; "1"]%string).
Proof.
  revert w. induction n as [|n IH]; intros w Hw Hlen.
  - destruct w as [|c [|d w]]; try discriminate.
    cbn [bitstring] in Hw. rewrite andb_true_r in Hw.
    destruct (bit_char c Hw) as [-> | ->]; cbn; auto.
  - destruct w as [|c w]; [discriminate|].
    cbn [bitstring] in Hw. apply andb_true_iff in Hw. destruct Hw as [Hc Hw].
    cbn [String.length] in Hlen.
    specialize (IH w Hw ltac:(lia)).
    rewrite Nat.iter_succ. unfold gray_step. apply in_or_app.
    destruct (bit_char c Hc) as [-> | ->].
    + left. now apply in_map.
    + right. apply in_map. now apply in_rev in IH.
Qed.

(** X1: for [r >= 1] and [0 <= k < 2^r], entry [k] of [gray_code(r)] exists
    and [int(code[k], 2)] is [(k >> 1) ^ k], the Gray code of [k] that
    [_matrix_M_entry] computes arithmetically. *)
Theorem gray_code_entry_value (r k : Z) :
  1 <= r -> 0 <= k < 2 ^ r ->
  exists w, getitem (gray_code r) k = Ok w
            /\ int_base2 w = Ok (Z.lxor (Z.shiftr k 1) k).
Proof.
  intros Hr Hk.
  destruct (gray_code_facts r Hr) as (Hlen & _ & Hwords).
  exists (code_at (gray_code r) (Z.to_nat k)). split.
  - apply getitem_Ok. lia.
  - pose proof (gray_code_value r k Hr Hk) as Hv.
    assert (Hin : In (code_at (gray_code r) (Z.to_nat k)) (gray_code r))
      by (apply nth_In; lia).
    destruct (Hwords _ Hin) as [Hl Hb].
    set (w := code_at (gray_code r) (Z.to_nat k)) in *.
    destruct (int2_digits_value w Hb) as (v & _ & Hd).
    unfold int_of_word in Hv. unfold int_base2 in *.
    destruct w as [|c w]; [cbn in Hl; lia|].
    rewrite Hd in *. cbn [Z.mul Z.add] in *. now rewrite Hv.
Qed.

Lemma gray_code_entry_value_witness :
  exists w, getitem (gray_code 3) 5 = Ok w
            /\ int_base2 w = Ok (Z.lxor (Z.shiftr 5 1) 5).
Proof. apply (gray_code_entry_value 3 5); lia. Defined.

(** X2: for [r >= 1], [gray_code(r)] lists every string of [r] binary
    digits, and none of them twice. *)
Theorem gray_code_every_word_once (r : Z) :
  1 <= r ->
  NoDup (gray_code r)
  /\ forall w, bitstring w = true -> Z.of_nat (String.length w) = r ->
               In w (gray_code r).
Proof.
  intros Hr.
  replace r with (Z.of_nat (S (Z.to_nat (r - 1)))) by lia.
  rewrite gray_code_iter. split.
  - apply iter_gray_step_NoDup.
  - intros w Hw Hlen. apply iter_gray_step_complete; [exact Hw | lia].
Qed.

Lemma gray_code_every_word_once_witness :
  NoDup (gray_code 2)
  /\ forall w, bitstring w = true -> Z.of_nat (String.length w) = 2 ->
               In w (gray_code 2).
Proof. apply (gray_code_every_word_once 2). lia. Defined.

(** X3: the code is reflected: for [r >= 1], [gray_code(r + 1)] is
    [gray_code(r)] with ["0"] put before each word, followed by
    [gray_code(r)] in reverse order with ["1"] put before each word. *)
Theorem gray_code_reflected (r : Z) :
  1 <= r ->
  gray_code (r + 1)
  = map (String "0") (gray_code r) ++ map (String "1") (rev (gray_code r)).
Proof. intros Hr. now rewrite gray_code_succ. Qed.

Lemma gray_code_reflected_witness :
  gray_code (2 + 1)
  = map (String "0") (gray_code 2) ++ map (String "1") (rev (gray_code 2)).
Proof. apply (gray_code_reflected 2). lia. Defined.

End GrayWords.

(** ** _matrix_M_entry and _compute_theta: the sign matrix at work *)

Module SignMatrix.
Import Sums Sign GrayValues Orthogonality AlphaClaims Theta Expander.
Import StatePreparation.

Lemma gray_nonneg_all (col : Z) : 0 <= gray col.
Proof.
  unfold gray. apply Z.lxor_nonneg.
  rewrite Z.shiftr_nonneg. reflexivity.
Qed.

Lemma gray_0_iff (k : Z) : 0 <= k -> gray k = 0 -> k = 0.
Proof.
  intros Hk E. unfold gray in E. apply Z.lxor_eq in E.
  rewrite Z.shiftr_div_pow2 in E by lia. change (2 ^ 1) with 2 in E.
  pose proof (Z.div_mod k 2 ltac:(lia)).
  pose proof (Z.mod_pos_bound k 2 ltac:(lia)). lia.
Qed.

Local Open Scope R_scope.

(** The sum of a column of signs, over all rows below [2^r]. *)
Lemma row_sum_step (r : nat) (g : Z) :
  (0 <= g)%Z ->
  sumR (map (fun j => IZR (sgn (Z.land j g))) (range 0 (2 ^ Z.of_nat (S r))))
  = (1 + IZR (zsign (Z.testbit g (Z.of_nat r))))
    * sumR (map (fun j => IZR (sgn (Z.land j g))) (range 0 (2 ^ Z.of_nat r))).
Proof.
  intros Hg. set (P := (2 ^ Z.of_nat r)%Z).
  assert (HP : (0 < P)%Z) by (apply Z.pow_pos_nonneg; lia).
  replace (2 ^ Z.of_nat (S r))%Z with (2 * P)%Z
    by (rewrite Nat2Z.inj_succ, Z.pow_succ_r by lia; reflexivity).
  rewrite (range_split 0 P (2 * P)) by lia.
  rewrite map_app, sumR_app, (range_shift P (2 * P)), map_map.
  replace (2 * P - P)%Z with P by lia.
  rewrite (sumR_map_ext
             (fun k => IZR (sgn (Z.land (P + k) g)))
             (fun k => IZR (zsign (Z.testbit g (Z.of_nat r)))
                       * IZR (sgn (Z.land k g)))).
  - rewrite sumR_map_scale. lra.
  - intros k Hk. apply in_range in Hk.
    assert (E : (P + k = Z.lxor k P)%Z).
    { rewrite Z.add_comm. apply Z.add_nocarry_lxor. unfold P.
      rewrite land_pow2 by lia.
      now rewrite (testbit_high k (Z.of_nat r)) by (fold P; lia). }
    rewrite E, (Z.land_comm _ g). unfold P.
    rewrite sgn_land_flip by lia.
    now rewrite mult_IZR, (Z.land_comm g k).
Qed.

Lemma row_sum (r : nat) (g : Z) :
  (0 <= g)%Z ->
  sumR (map (fun j => IZR (sgn (Z.land j g))) (range 0 (2 ^ Z.of_nat r)))
  = if low0 r g then IZR (2 ^ Z.of_nat r) else 0.
Proof.
  intros Hg. induction r as [|r IH].
  - change (range 0 (2 ^ Z.of_nat 0)) with [0%Z].
    cbn [map]. rewrite Z.land_0_l, sgn_0, sumR_cons, sumR_nil.
    cbn [low0]. change (2 ^ Z.of_nat 0)%Z with 1%Z. lra.
  - rewrite row_sum_step, IH by exact Hg. cbn [low0].
    rewrite Nat2Z.inj_succ, Z.pow_succ_r, mult_IZR by lia.
    destruct (low0 r g), (Z.testbit g (Z.of_nat r)); cbn; lra.
Qed.

Lemma low0_gray (r : nat) (i : Z) :
  (0 <= i < 2 ^ Z.of_nat r)%Z -> low0 r (gray i) = (i =? 0)%Z.
Proof.
  intros Hi. destruct (Z.eqb_spec i 0) as [-> | Hne].
  - apply low0_spec. intros m _. change (gray 0) with 0%Z. apply Z.bits_0.
  - destruct (low0 r (gray i)) eqn:E; [|reflexivity].
    exfalso. apply Hne, gray_0_iff; [lia|].
    rewrite <- (Z.lxor_0_r (gray i)) in E.
    apply low0_lxor in E; [exact E | | lia].
    apply gray_bound; lia.
Qed.

(** An entry of [_compute_theta], with the matrix of the code. *)
Lemma compute_theta_item (alpha : list R) (L i : Z) :
  Z.of_nat (List.length alpha) = L -> (0 <= i < L)%Z ->
  item (_compute_theta alpha) i
  = sumR (map (fun j => IZR (_matrix_M_entry j i) * item alpha j)
              (range 0 L)) / IZR L.
Proof.
  intros Hlen Hi. rewrite compute_theta_closed_form.
  unfold scaled_matvec, matvec. rewrite map_map, Hlen.
  rewrite item_map_range0 by exact Hi.
  rewrite INR_IZR_INZ, Hlen. reflexivity.
Qed.

(** What [_compute_theta] makes of a vector of equal angles. *)
Lemma compute_theta_of_constant (alpha : list R) (c : R) (r i : Z) :
  (0 <= r)%Z ->
  Z.of_nat (List.length alpha) = (2 ^ r)%Z ->
  (forall x, In x alpha -> x = c) ->
  (0 <= i < 2 ^ r)%Z ->
  item (_compute_theta alpha) i = if (i =? 0)%Z then c else 0.
Proof.
  intros Hr Hlen Hc Hi.
  assert (HL : (0 < 2 ^ r)%Z) by (apply Z.pow_pos_nonneg; lia).
  rewrite (compute_theta_item alpha (2 ^ r)) by assumption.
  rewrite (sumR_map_ext _ (fun j => c * IZR (sgn (Z.land j (gray i))))).
  2:{ intros j Hj. apply in_range in Hj. rewrite matrix_M_entry_sgn.
      rewrite (Hc (item alpha j)); [lra|]. apply nth_In. lia. }
  rewrite sumR_map_scale.
  replace r with (Z.of_nat (Z.to_nat r)) in * by lia.
  rewrite row_sum by apply gray_nonneg_all.
  rewrite low0_gray by exact Hi.
  assert (IZR (2 ^ Z.of_nat (Z.to_nat r)) <> 0) by (apply not_0_IZR; lia).
  destruct (i =? 0)%Z; field; assumption.
Qed.

Local Close Scope R_scope.

(** X4: the signs of a column of the matrix multiply along the XOR of the
    rows: [entry(0, col) = 1] and
    [entry(row1 ^ row2, col) = entry(row1, col) * entry(row2, col)]. *)
Theorem matrix_M_entry_xor (row1 row2 col : Z) :
  _matrix_M_entry 0 col = 1
  /\ _matrix_M_entry (Z.lxor row1 row2) col
     = _matrix_M_entry row1 col * _matrix_M_entry row2 col.
Proof.
  rewrite !matrix_M_entry_sgn. split.
  - now rewrite Z.land_0_l, sgn_0.
  - rewrite (Z.land_comm (Z.lxor row1 row2)), land_lxor_distr.
    pose proof (gray_nonneg_all col).
    rewrite sgn_lxor by (apply Z.land_nonneg; lia).
    now rewrite !(Z.land_comm (gray col)).
Qed.

(** X5: [_compute_theta] can be undone with the same signs: for [alpha] of
    length [2^r], [alpha[j]] is the sum over [k] of
    [entry(j, k) * theta[k]]. *)
Theorem compute_theta_inverse (alpha : list R) (r j : Z) :
  0 <= r ->
  Z.of_nat (List.length alpha) = 2 ^ r ->
  0 <= j < 2 ^ r ->
  sumR (map (fun k => (IZR (_matrix_M_entry j k)
                       * item (_compute_theta alpha) k)%R)
            (range 0 (2 ^ r)))
  = item alpha j.
Proof.
  intros Hr Hlen Hj.
  replace r with (Z.of_nat (Z.to_nat r)) in * by lia.
  rewrite <- (theta_inversion alpha (Z.to_nat r) j Hlen Hj).
  apply sumR_map_ext. intros k _. now rewrite matrix_M_entry_sgn.
Qed.

Lemma compute_theta_inverse_witness :
  sumR (map (fun k => (IZR (_matrix_M_entry 1 k)
                       * item (_compute_theta [1; 2]%R) k)%R)
            (range 0 (2 ^ 1)))
  = item [1; 2]%R 1.
Proof. apply (compute_theta_inverse [1; 2]%R 1 1); cbn; lia. Defined.

(** X6: the first angle [_compute_theta] returns is the mean of [alpha],
    whatever the length of a non-empty [alpha]. *)
Theorem compute_theta_first_is_mean (alpha : list R) :
  alpha <> [] ->
  item (_compute_theta alpha) 0
  = (sumR alpha / INR (List.length alpha))%R.
Proof.
  intros Hne.
  assert (HL : 0 < Z.of_nat (List.length alpha))
    by (destruct alpha; [congruence | cbn [List.length]; lia]).
  rewrite (compute_theta_item alpha _ 0 eq_refl) by lia.
  rewrite <- INR_IZR_INZ. f_equal.
  rewrite (sumR_map_ext _ (fun j => (fun x => x) (item alpha j))).
  - rewrite (sum_items (fun x => x) alpha) by reflexivity.
    now rewrite map_id.
  - intros j _. rewrite matrix_M_entry_sgn. change (gray 0) with 0.
    rewrite Z.land_0_r, sgn_0. lra.
Qed.

Lemma compute_theta_first_is_mean_witness :
  item (_compute_theta [1; 2; 6]%R) 0
  = (sumR [1; 2; 6] / INR (List.length [1; 2; 6]%R))%R.
Proof. apply (compute_theta_first_is_mean [1; 2; 6]%R). discriminate. Defined.

(** X7: equal angles need one rotation only: for [alpha] of length [2^r]
    with all entries equal to [c], [_compute_theta] returns [c] followed by
    zeros. *)
Theorem compute_theta_constant (alpha : list R) (c : R) (r : Z) :
  0 <= r ->
  Z.of_nat (List.length alpha) = 2 ^ r ->
  (forall x, In x alpha -> x = c) ->
  List.length (_compute_theta alpha) = List.length alpha
  /\ forall i, 0 <= i < 2 ^ r ->
               item (_compute_theta alpha) i = if i =? 0 then c else 0%R.
Proof.
  intros Hr Hlen Hc. split; [apply compute_theta_length|].
  intros i Hi. now apply (compute_theta_of_constant alpha c r).
Qed.

Lemma compute_theta_constant_witness :
  List.length (_compute_theta [3; 3; 3; 3]%R) = List.length [3; 3; 3; 3]%R
  /\ forall i, 0 <= i < 2 ^ 2 ->
               item (_compute_theta [3; 3; 3; 3]%R) i
               = if i =? 0 then 3%R else 0%R.
Proof.
  apply (compute_theta_constant [3; 3; 3; 3]%R 3%R 2).
  - lia.
  - reflexivity.
  - cbn. intuition (subst; reflexivity).
Defined.

End SignMatrix.

(** ** What a call queues, whatever its outcome *)

Module Queue.
Import Alpha Expander Sums.

Section WithWires.

Context {Wire : Type}.

Lemma emits_only_ret {A} (P : Operation Wire -> Prop) (a : A) :
  emits_only P (ret a).
Proof. intros q. exists []. now rewrite app_nil_r. Qed.

Lemma emits_only_lift {A} (P : Operation Wire -> Prop) (r : result A) :
  emits_only P (lift r).
Proof. intros q. exists []. now rewrite app_nil_r. Qed.

Lemma emits_only_emit (P : Operation Wire -> Prop) (op : Operation Wire) :
  P op -> emits_only P (emit op).
Proof. intros H q. exists [op]. split; [reflexivity | now constructor]. Qed.

Lemma emits_only_bind {A B} (P : Operation Wire -> Prop) (m : Tape Wire A)
    (k : A -> Tape Wire B) :
  emits_only P m ->
  (forall a q, fst (m q) = Ok a -> emits_only P (k a)) ->
  emits_only P (bind m k).
Proof.
  intros Hm Hk q. unfold bind.
  destruct (Hm q) as (ops1 & E1 & H1).
  destruct (m q) as [[a | e] q'] eqn:E; cbn [snd] in E1; subst q'.
  - assert (Ha : fst (m q) = Ok a) by now rewrite E.
    destruct (Hk a q Ha (q ++ ops1)) as (ops2 & E2 & H2).
    exists (ops1 ++ ops2). rewrite E2, app_assoc. split; [reflexivity|].
    apply Forall_app. now split.
  - exists ops1. now split.
Qed.

Lemma emits_only_bind_lift {A B} (P : Operation Wire -> Prop) (r : result A)
    (k : A -> Tape Wire B) :
  (forall a, r = Ok a -> emits_only P (k a)) ->
  emits_only P (bind (lift r) k).
Proof.
  intros Hk. apply emits_only_bind; [apply emits_only_lift|].
  intros a q E. apply Hk. exact E.
Qed.

Lemma emits_only_for_each {A} (P : Operation Wire -> Prop) (l : list A)
    (body : A -> Tape Wire unit) :
  (forall x, In x l -> emits_only P (body x)) ->
  emits_only P (for_each l body).
Proof.
  induction l as [|x l IH]; intros H; cbn [for_each].
  - apply emits_only_ret.
  - apply emits_only_bind; [apply H; now left|].
    intros _ _ _. apply IH. intros y Hy. apply H. now right.
Qed.

Lemma emits_only_weaken {A} (P Q : Operation Wire -> Prop) (m : Tape Wire A) :
  (forall op, P op -> Q op) -> emits_only P m -> emits_only Q m.
Proof.
  intros HPQ Hm q. destruct (Hm q) as (ops & E & H).
  exists ops. split; [exact E|]. eapply Forall_impl; eassumption.
Qed.

Lemma getitem_In {A} (l : list A) (i : Z) (x : A) :
  getitem l i = Ok x -> In x l.
Proof.
  unfold getitem. destruct (i <? 0); [discriminate|].
  destruct (nth_error l (Z.to_nat i)) eqn:E; [|discriminate].
  intros H. injection H as <-. eapply nth_error_In; eassumption.
Qed.

Lemma getitem_out_of_range {A} (l : list A) (i : Z) :
  Z.of_nat (List.length l) <= i -> getitem l i = Raise IndexError.
Proof.
  intros H. unfold getitem.
  destruct (Z.ltb_spec i 0) as [|_]; [reflexivity|].
  destruct (nth_error l (Z.to_nat i)) eqn:E; [|reflexivity].
  assert (nth_error l (Z.to_nat i) <> None) by congruence.
  apply nth_error_Some in H0. lia.
Qed.

Lemma emits_only_rotation (gate : rotation) (control_wires : list Wire)
    (target_wire : Wire) (angle : R) :
  emits_only (expander_op gate control_wires target_wire)
             (if nonzero angle then emit (Rot gate angle target_wire)
              else ret tt).
Proof.
  destruct (nonzero angle) eqn:E; [|apply emits_only_ret].
  apply emits_only_emit. left. exists angle. split; [|reflexivity].
  now apply nonzero_iff.
Qed.

Lemma expander_emits_only (gate : rotation) (alpha : list R)
    (control_wires : list Wire) (target_wire : Wire) :
  emits_only (expander_op gate control_wires target_wire)
             (_uniform_rotation_dagger gate alpha control_wires target_wire).
Proof.
  unfold _uniform_rotation_dagger.
  destruct (Z.of_nat (List.length control_wires) =? 0).
  - apply emits_only_bind_lift. intros theta0 _. apply emits_only_rotation.
  - apply emits_only_bind_lift. intros control_indices _.
    apply emits_only_for_each. intros [i control_index] _.
    apply emits_only_bind_lift. intros theta_i _.
    apply emits_only_bind; [apply emits_only_rotation|].
    intros _ _ _. apply emits_only_bind_lift. intros c Hc.
    apply emits_only_emit. right. exists c. split; [|reflexivity].
    eapply getitem_In; eassumption.
Qed.

Lemma for_each_app {A} (l1 l2 : list A) (body : A -> Tape Wire unit)
    (q : list (Operation Wire)) :
  for_each (l1 ++ l2) body q
  = match for_each l1 body q with
    | (Ok _, q') => for_each l2 body q'
    | (Raise e, q') => (Raise e, q')
    end.
Proof.
  revert q. induction l1 as [|x l1 IH]; intros q; cbn [app for_each].
  - reflexivity.
  - unfold bind. destruct (body x q) as [[[] | e] q']; [apply IH | reflexivity].
Qed.

(** X8: whatever [alpha] and the wires are, and whether the call returns or
    raises, [_uniform_rotation_dagger] leaves the operations queued before
    in place and queues nothing but rotations of the given kind by a nonzero
    angle on the target wire and bit flips of the target wire controlled by
    one of the control wires. *)
Theorem uniform_rotation_dagger_queues_only (gate : rotation)
    (alpha : list R) (control_wires : list Wire) (target_wire : Wire)
    (q : list (Operation Wire)) :
  exists ops,
    snd (_uniform_rotation_dagger gate alpha control_wires target_wire q)
    = q ++ ops
    /\ forall op, In op ops ->
         (exists angle, angle <> 0%R /\ op = Rot gate angle target_wire)
         \/ (exists c, In c control_wires /\ op = CNOT c target_wire).
Proof.
  destruct (expander_emits_only gate alpha control_wires target_wire q)
    as (ops & E & H).
  exists ops. split; [exact E|].
  intros op Hop. exact (proj1 (Forall_forall _ _) H op Hop).
Qed.

(** X9: with fewer angles than Gray code words, [len(alpha) < 2^r] for [r]
    control wires, the call raises [IndexError] at [theta[len(alpha)]],
    after the steps before it have queued their operations; with no control
    wire and an empty [alpha] it raises at [theta[0]] and queues nothing. *)
Theorem uniform_rotation_dagger_short_alpha (gate : rotation)
    (alpha : list R) (control_wires : list Wire) (target_wire : Wire)
    (q : list (Operation Wire)) :
  let r := Z.of_nat (List.length control_wires) in
  let L := Z.of_nat (List.length alpha) in
  L < 2 ^ r ->
  _uniform_rotation_dagger gate alpha control_wires target_wire q
  = (Raise IndexError,
     q ++ flat_map (expander_step gate (_compute_theta alpha)
                                  control_wires target_wire)
                   (range 0 L)).
Proof.
  intros r L HL. unfold _uniform_rotation_dagger. fold r.
  destruct (Z.eqb_spec r 0) as [E|Hr].
  - rewrite E in HL. change (2 ^ 0) with 1 in HL.
    assert (L = 0) by lia.
    assert (alpha = []) by (destruct alpha; [reflexivity | cbn in *; lia]).
    subst alpha. cbn. now rewrite app_nil_r.
  - assert (Hr1 : 1 <= r) by lia.
    destruct (gray_code_facts r Hr1) as (Hcode & _).
    set (code := gray_code r) in *. rewrite Hcode.
    unfold bind at 1. unfold lift at 1.
    rewrite (mapR_Ok _ (control_index code)).
    2:{ intros i Hi. apply in_range in Hi.
        pose proof (control_index_computed r i Hr1) as H. cbv zeta in H.
        fold code in H. rewrite Hcode in H. apply H. lia. }
    rewrite enumerate_map_range by lia.
    rewrite (range_split 0 L (2 ^ r)) by lia.
    rewrite (range_cons L) by lia.
    rewrite map_app, for_each_app.
    rewrite (for_each_emits _
               (fun '(i, ci) =>
                  rotation_if_nonzero gate (item (_compute_theta alpha) i)
                                      target_wire
                  ++ [CNOT (nth (Z.to_nat ci) control_wires target_wire)
                           target_wire])).
    + cbn [map for_each]. unfold bind at 1. unfold bind at 1.
      unfold lift at 1.
      rewrite getitem_out_of_range
        by (rewrite compute_theta_length; fold L; lia).
      f_equal. f_equal.
      rewrite flat_map_concat_map, map_map, <- flat_map_concat_map.
      reflexivity.
    + intros [i ci] q' Hin. apply in_map_iff in Hin as (i' & E & Hi).
      injection E as -> <-. apply in_range in Hi.
      destruct (control_index_computed r i Hr1 ltac:(lia)) as [_ Hci].
      fold code in Hci.
      unfold bind, lift.
      rewrite (getitem_Ok 0%R)
        by (rewrite compute_theta_length; fold L; lia).
      fold (item (_compute_theta alpha) i).
      rewrite emit_if_nonzero.
      rewrite (getitem_Ok target_wire) by (fold r; lia).
      unfold emit. now rewrite <- app_assoc.
Qed.

End WithWires.

Lemma uniform_rotation_dagger_short_alpha_witness :
  _uniform_rotation_dagger RZ [1%R] [7%nat] 3%nat []
  = (Raise IndexError,
     [] ++ flat_map (expander_step RZ (_compute_theta [1%R]) [7%nat] 3%nat)
                    (range 0 (Z.of_nat (List.length [1%R])))).
Proof.
  apply (uniform_rotation_dagger_short_alpha RZ [1%R] [7%nat] 3%nat []).
  cbn. lia.
Defined.

End Queue.

(** ** _get_alpha_z and _get_alpha_y: inputs, errors and ranges *)

Module AlphaFacts.
Import Alpha AlphaClaims Sums BlockSums Cascades.

(** *** An input that is too short *)

Lemma mapR_raises {A B} (f : A -> result B) (e : exn) (l : list A) :
  (forall x, In x l -> (exists y, f x = Ok y) \/ f x = Raise e) ->
  (exists x, In x l /\ f x = Raise e) ->
  mapR f l = Raise e.
Proof.
  induction l as [|x l IH]; intros Hall (x0 & Hin & Hx0); [contradiction|].
  cbn [mapR]. destruct (Hall x (or_introl eq_refl)) as [[y Ey] | Ex].
  - rewrite Ey. cbn [bindR]. rewrite IH; [reflexivity | |].
    + intros z Hz. apply Hall. now right.
    + destruct Hin as [-> | Hin]; [congruence|]. now exists x0.
  - now rewrite Ex.
Qed.

Lemma mapR_Ok_or_raises {A B} (f : A -> result B) (e : exn) (l : list A) :
  (forall x, In x l -> (exists y, f x = Ok y) \/ f x = Raise e) ->
  (exists ys, mapR f l = Ok ys) \/ mapR f l = Raise e.
Proof.
  induction l as [|x l IH]; intros Hall; cbn [mapR]; [left; now eexists|].
  destruct (Hall x (or_introl eq_refl)) as [[y Ey] | Ex].
  - rewrite Ey. cbn [bindR].
    destruct IH as [[ys E] | E]; [intros z Hz; apply Hall; now right | |];
      rewrite E; cbn [bindR]; [left; now eexists | now right].
  - rewrite Ex. now right.
Qed.

Lemma take1_Ok_or_raises (a : list R) (i : Z) :
  0 <= i -> (exists y, take1 a i = Ok y) \/ take1 a i = Raise IndexError.
Proof.
  intros Hi. unfold take1.
  destruct (Z.ltb_spec i (Z.of_nat (List.length a))) as [Hlt | Hge].
  - replace (0 <=? i) with true by (symmetry; apply Z.leb_le; lia).
    cbn [andb]. left. exists (item a i).
    apply (getitem_Ok 0%R). lia.
  - rewrite andb_false_r.
    replace (i <? 0) with false by (symmetry; apply Z.ltb_ge; lia).
    rewrite andb_false_r. now right.
Qed.

Lemma take1_raises (a : list R) (i : Z) :
  Z.of_nat (List.length a) <= i -> take1 a i = Raise IndexError.
Proof.
  intros Hi. unfold take1.
  replace (i <? Z.of_nat (List.length a)) with false
    by (symmetry; apply Z.ltb_ge; lia).
  rewrite andb_false_r.
  replace (i <? 0) with false by (symmetry; apply Z.ltb_ge; lia).
  now rewrite andb_false_r.
Qed.

(** [np.take] with non-negative indices, one of them out of bounds. *)
Lemma take_raises (a : list R) (indices : list (list Z)) (row : list Z)
    (i : Z) :
  (forall row i, In row indices -> In i row -> 0 <= i) ->
  In row indices -> In i row -> Z.of_nat (List.length a) <= i ->
  take a indices = Raise IndexError.
Proof.
  intros Hpos Hrow Hi Hout. unfold take. apply mapR_raises.
  - intros row' Hrow'. apply mapR_Ok_or_raises.
    intros i' Hi'. apply take1_Ok_or_raises. eapply Hpos; eassumption.
  - exists row. split; [exact Hrow|]. apply mapR_raises.
    + intros i' Hi'. apply take1_Ok_or_raises. eapply Hpos; eassumption.
    + exists i. split; [exact Hi|]. now apply take1_raises.
Qed.

(** X10: for [1 <= k <= n] and a phase vector with fewer than [2^n] entries,
    [_get_alpha_z] raises [IndexError] (its first [np.take] asks for the
    entry [2^n - 1]). *)
Theorem get_alpha_z_short_input (omega : list R) (n k : Z) :
  1 <= k <= n ->
  Z.of_nat (List.length omega) < 2 ^ n ->
  _get_alpha_z omega n k = Raise IndexError.
Proof.
  intros Hk Hlen. unfold _get_alpha_z. rewrite guard_passes by exact Hk.
  destruct (block_sizes n k Hk) as (HP & HQ & _ & HN).
  set (P := 2 ^ (k - 1)) in *. set (Q := 2 ^ (n - k)) in *.
  rewrite (take_raises omega _
             (map (fun l => (2 * Q - 1) * P + l - 1) (range 1 (P + 1)))
             ((2 * Q - 1) * P + P - 1)).
  - reflexivity.
  - intros row i Hrow Hi.
    apply in_map_iff in Hrow. destruct Hrow as (j & <- & Hj).
    apply in_map_iff in Hi. destruct Hi as (l & <- & Hl).
    apply in_range in Hj. apply in_range in Hl. nia.
  - apply in_map_iff. exists Q. split; [reflexivity|]. apply in_range. lia.
  - apply in_map_iff. exists P. split; [reflexivity|]. apply in_range. lia.
  - nia.
Qed.

Lemma get_alpha_z_short_input_witness :
  _get_alpha_z [0%R; 1%R; 2%R] 2 1 = Raise IndexError.
Proof. apply (get_alpha_z_short_input [0%R; 1%R; 2%R] 2 1); cbn; lia. Defined.

(** X11: for [1 <= k <= n] and a vector of magnitudes with fewer than [2^n]
    entries, [_get_alpha_y] raises [IndexError]. *)
Theorem get_alpha_y_short_input (a : list R) (n k : Z) :
  1 <= k <= n ->
  Z.of_nat (List.length a) < 2 ^ n ->
  _get_alpha_y a n k = Raise IndexError.
Proof.
  intros Hk Hlen. unfold _get_alpha_y. rewrite guard_passes by exact Hk.
  destruct (block_sizes n k Hk) as (HP & HQ & _ & HN).
  set (P := 2 ^ (k - 1)) in *. set (Q := 2 ^ (n - k)) in *.
  rewrite (take_raises a _
             (map (fun l => (2 * (Q - 1 + 1) - 1) * P + l) (range 0 P))
             ((2 * (Q - 1 + 1) - 1) * P + (P - 1))).
  - reflexivity.
  - intros row i Hrow Hi.
    apply in_map_iff in Hrow. destruct Hrow as (j & <- & Hj).
    apply in_map_iff in Hi. destruct Hi as (l & <- & Hl).
    apply in_range in Hj. apply in_range in Hl. nia.
  - apply in_map_iff. exists (Q - 1). split; [reflexivity|].
    apply in_range. lia.
  - apply in_map_iff. exists (P - 1). split; [reflexivity|].
    apply in_range. lia.
  - nia.
Qed.

Lemma get_alpha_y_short_input_witness :
  _get_alpha_y [0%R; 1%R; 2%R] 2 2 = Raise IndexError.
Proof. apply (get_alpha_y_short_input [0%R; 1%R; 2%R] 2 2); cbn; lia. Defined.

(** *** A common phase *)

Local Open Scope R_scope.

Lemma item_map_shift (omega : list R) (c : R) (i : Z) :
  (0 <= i < Z.of_nat (List.length omega))%Z ->
  item (map (fun w => w + c) omega) i = item omega i + c.
Proof.
  intros Hi. unfold item.
  rewrite (nth_indep _ 0 (0 + c)) by (rewrite length_map; lia).
  apply (map_nth (fun w => w + c)).
Qed.

(** X12: a phase common to all entries does not show in the angles of the
    Z-rotations: for [1 <= k <= n] and [omega] of length [2^n],
    [_get_alpha_z] returns the same for [omega + c] as for [omega]. *)
Theorem get_alpha_z_common_phase (omega : list R) (c : R) (n k : Z) :
  (1 <= k <= n)%Z ->
  Z.of_nat (List.length omega) = (2 ^ n)%Z ->
  _get_alpha_z (map (fun w => w + c) omega) n k = _get_alpha_z omega n k.
Proof.
  intros Hk Hlen.
  rewrite !get_alpha_z_closed_form
    by (try rewrite length_map; assumption).
  destruct (block_sizes n k Hk) as (HP & HQ & _ & HN).
  set (P := (2 ^ (k - 1))%Z) in *. set (Q := (2 ^ (n - k))%Z) in *.
  f_equal. apply map_ext_in. intros j Hj. apply in_range in Hj.
  apply sumR_map_ext. intros l Hl. apply in_range in Hl.
  rewrite !item_map_shift by nia. lra.
Qed.

Lemma get_alpha_z_common_phase_witness :
  _get_alpha_z (map (fun w => w + PI) [0; 1]) 1 1 = _get_alpha_z [0; 1] 1 1.
Proof. apply (get_alpha_z_common_phase [0; 1] PI 1 1); cbn; lia. Defined.

(** *** The angles of the Y-rotations *)

Lemma asin_sqrt_range (x : R) :
  0 <= x <= 1 -> 0 <= 2 * asin (sqrt x) <= PI.
Proof.
  intros Hx.
  assert (Hs : 0 <= sqrt x <= 1).
  { split; [apply sqrt_pos|]. rewrite <- sqrt_1. apply sqrt_le_1_alt. lra. }
  pose proof (asin_bound (sqrt x)) as Hb.
  split; [|lra].
  destruct (Rle_dec 0 (asin (sqrt x))) as [|Hneg]; [lra|].
  exfalso. apply Rnot_le_lt in Hneg.
  pose proof PI_RGT_0.
  assert (sin (asin (sqrt x)) < 0) by (apply sin_lt_0_var; lra).
  rewrite sin_asin in H0 by lra. lra.
Qed.

Lemma ratio_range (num den : R) :
  0 <= num <= den -> 0 <= (if nonzero den then num / den else 0) <= 1.
Proof.
  intros H. unfold nonzero. destruct (Req_dec_T den 0) as [E|E]; [lra|].
  assert (Hden : 0 < den) by lra. split.
  - apply Rmult_le_pos; [lra|]. left. now apply Rinv_0_lt_compat.
  - apply Rmult_le_reg_r with den; [exact Hden|].
    unfold Rdiv. rewrite Rmult_assoc, Rinv_l by exact E. lra.
Qed.

(** An entry of [alpha_y] and the weights of a block and its upper half. *)
Lemma alpha_y_entry (a : list R) (n k j : Z) (alpha : list R) :
  (1 <= k <= n)%Z ->
  Z.of_nat (List.length a) = (2 ^ n)%Z ->
  _get_alpha_y a n k = Ok alpha ->
  (0 <= j < 2 ^ (n - k))%Z ->
  item alpha j
  = 2 * asin (sqrt (if nonzero (blocksum a k j)
                    then blocksum a (k - 1) (2 * j + 1) / blocksum a k j
                    else 0))
  /\ 0 <= blocksum a (k - 1) (2 * j + 1) <= blocksum a k j
  /\ blocksum a k j
     = blocksum a (k - 1) (2 * j) + blocksum a (k - 1) (2 * j + 1).
Proof.
  intros Hk Hlen Halpha Hj.
  replace k with (k - 1 + 1)%Z in Halpha, Hj |- * by lia.
  replace (k - 1 + 1 - 1)%Z with (k - 1)%Z by lia.
  split; [|split].
  - apply (alpha_y_item a n Hlen (k - 1) alpha j); [lia | assumption..].
  - rewrite blocksum_split by lia.
    pose proof (blocksum_nonneg a (k - 1) (2 * j)).
    pose proof (blocksum_nonneg a (k - 1) (2 * j + 1)). lra.
  - apply blocksum_split. lia.
Qed.

(** X13: for [1 <= k <= n] and [a] of length [2^n], [np.sqrt] and
    [np.arcsin] are applied inside their domains: the numerator of an entry
    lies between [0] and its denominator, so the quotient [d] that
    [_get_alpha_y] takes the square root of ([0] where the denominator is
    [0]) lies between [0] and [1], as does [sqrt(d)]; the angle
    [2 * arcsin(sqrt(d))] lies between [0] and [pi]. *)
Theorem get_alpha_y_range (a : list R) (n k : Z) :
  (1 <= k <= n)%Z ->
  Z.of_nat (List.length a) = (2 ^ n)%Z ->
  exists alpha,
    _get_alpha_y a n k = Ok alpha
    /\ forall j, (0 <= j < 2 ^ (n - k))%Z ->
         let numerator :=
           sumR (map (fun l => item a ((2 * j + 1) * 2 ^ (k - 1) + l) ^ 2)
                     (range 0 (2 ^ (k - 1)))) in
         let denominator :=
           sumR (map (fun l => item a (j * 2 ^ k + l) ^ 2)
                     (range 0 (2 ^ k))) in
         let d := if nonzero denominator then numerator / denominator
                  else 0 in
         0 <= numerator <= denominator
         /\ 0 <= d <= 1
         /\ 0 <= sqrt d <= 1
         /\ item alpha j = 2 * asin (sqrt d)
         /\ 0 <= item alpha j <= PI.
Proof.
  intros Hk Hlen. eexists. split.
  - apply get_alpha_y_closed_form; assumption.
  - intros j Hj numerator denominator d.
    destruct (alpha_y_entry a n k j _ Hk Hlen
                (get_alpha_y_closed_form a n k Hk Hlen) Hj) as (E & Hr & _).
    fold (blocksum a k j) in denominator.
    fold (blocksum a (k - 1) (2 * j + 1)) in numerator.
    fold numerator denominator in E, Hr. fold d in E.
    assert (Hd : 0 <= d <= 1) by apply ratio_range, Hr.
    split; [exact Hr|]. split; [exact Hd|]. split; [|split; [exact E|]].
    + split; [apply sqrt_pos|].
      rewrite <- sqrt_1. apply sqrt_le_1_alt. lra.
    + rewrite E. apply asin_sqrt_range, Hd.
Qed.

Lemma get_alpha_y_range_witness :
  exists alpha,
    _get_alpha_y [1; 2] 1 1 = Ok alpha
    /\ forall j, (0 <= j < 2 ^ (1 - 1))%Z ->
         let numerator :=
           sumR (map (fun l => item [1; 2] ((2 * j + 1) * 2 ^ (1 - 1) + l) ^ 2)
                     (range 0 (2 ^ (1 - 1)))) in
         let denominator :=
           sumR (map (fun l => item [1; 2] (j * 2 ^ 1 + l) ^ 2)
                     (range 0 (2 ^ 1))) in
         let d := if nonzero denominator then numerator / denominator
                  else 0 in
         0 <= numerator <= denominator
         /\ 0 <= d <= 1
         /\ 0 <= sqrt d <= 1
         /\ item alpha j = 2 * asin (sqrt d)
         /\ 0 <= item alpha j <= PI.
Proof. apply (get_alpha_y_range [1; 2] 1 1); cbn; lia. Defined.

(** X14: the half of an angle of [_get_alpha_y] splits the weight of its
    block (the sum of the squares of its [2^k] entries) into the weights of
    the two halves: the sine takes the square root of the weight of the block
    to that of its upper half, the cosine to that of its lower half. *)
Theorem get_alpha_y_splits_weight (a : list R) (n k j : Z) :
  (1 <= k <= n)%Z ->
  Z.of_nat (List.length a) = (2 ^ n)%Z ->
  (0 <= j < 2 ^ (n - k))%Z ->
  exists alpha,
    _get_alpha_y a n k = Ok alpha
    /\ sin (item alpha j / 2)
       * sqrt (sumR (map (fun l => item a (j * 2 ^ k + l) ^ 2)
                         (range 0 (2 ^ k))))
       = sqrt (sumR (map (fun l => item a ((2 * j + 1) * 2 ^ (k - 1) + l) ^ 2)
                         (range 0 (2 ^ (k - 1)))))
    /\ cos (item alpha j / 2)
       * sqrt (sumR (map (fun l => item a (j * 2 ^ k + l) ^ 2)
                         (range 0 (2 ^ k))))
       = sqrt (sumR (map (fun l => item a (2 * j * 2 ^ (k - 1) + l) ^ 2)
                         (range 0 (2 ^ (k - 1))))).
Proof.
  intros Hk Hlen Hj. eexists. split.
  - apply get_alpha_y_closed_form; assumption.
  - destruct (alpha_y_entry a n k j _ Hk Hlen
                (get_alpha_y_closed_form a n k Hk Hlen) Hj) as (E & Hr & Hs).
    rewrite E.
    destruct (ry_split _ _ Hr) as [Hcos Hsin]. cbv zeta in Hcos, Hsin.
    fold (blocksum a k j). fold (blocksum a (k - 1) (2 * j + 1)).
    fold (blocksum a (k - 1) (2 * j)).
    split; [exact Hsin|]. rewrite Hcos. f_equal. lra.
Qed.

Lemma get_alpha_y_splits_weight_witness :
  exists alpha,
    _get_alpha_y [3; 4] 1 1 = Ok alpha
    /\ sin (item alpha 0 / 2)
       * sqrt (sumR (map (fun l => item [3; 4] (0 * 2 ^ 1 + l) ^ 2)
                         (range 0 (2 ^ 1))))
       = sqrt (sumR (map (fun l => item [3; 4]
                                       ((2 * 0 + 1) * 2 ^ (1 - 1) + l) ^ 2)
                         (range 0 (2 ^ (1 - 1)))))
    /\ cos (item alpha 0 / 2)
       * sqrt (sumR (map (fun l => item [3; 4] (0 * 2 ^ 1 + l) ^ 2)
                         (range 0 (2 ^ 1))))
       = sqrt (sumR (map (fun l => item [3; 4] (2 * 0 * 2 ^ (1 - 1) + l) ^ 2)
                         (range 0 (2 ^ (1 - 1))))).
Proof. apply (get_alpha_y_splits_weight [3; 4] 1 1 0); cbn; lia. Defined.

End AlphaFacts.

(** ** _uniform_rotation_dagger: the rotation it implements *)

Module UniformRotation.
Import Blocks Multiplexer Driver.

(** X15: run on a register, the operations [_uniform_rotation_dagger] queues
    for [r] control wires and [2^r] angles act as one rotation of the target
    by [alpha[j]], where [j] is the number the bits of the control wires
    form (the first control wire the lowest bit): a uniformly controlled
    rotation.  The control wires stand for the bits [p, p+1, ...] of the
    basis-state index, the target for a bit below [p]. *)
Theorem uniform_rotation_dagger_semantics {Wire : Type} (bit_of : Wire -> Z)
    (gate : rotation) (alpha : list R) (control_wires : list Wire)
    (target_wire : Wire) (p : Z) (q : list (Operation Wire)) :
  let r := Z.of_nat (List.length control_wires) in
  (forall c, 0 <= c < r ->
             bit_of (nth (Z.to_nat c) control_wires target_wire) = p + c) ->
  0 <= bit_of target_wire < p ->
  Z.of_nat (List.length alpha) = 2 ^ r ->
  exists ops,
    _uniform_rotation_dagger gate alpha control_wires target_wire q
    = (Ok tt, q ++ ops)
    /\ forall (psi : State) (i : Z),
         run bit_of ops psi i
         = apply_op bit_of
             (Rot gate (item alpha ((i / 2 ^ p) mod 2 ^ r)) target_wire)
             psi i.
Proof.
  intros r Hcontrols Htarget Hlen.
  exists (expander_ops gate alpha control_wires target_wire). split.
  - now apply expander_total.
  - intros psi i.
    rewrite (run_expander_ops bit_of gate alpha control_wires target_wire p)
      by assumption.
    reflexivity.
Qed.

Lemma uniform_rotation_dagger_semantics_witness :
  exists ops,
    _uniform_rotation_dagger RY [0%R; 1%R] [1] 0 [] = (Ok tt, [] ++ ops)
    /\ forall (psi : State) (i : Z),
         run (fun w : Z => w) ops psi i
         = apply_op (fun w : Z => w)
             (Rot RY (item [0%R; 1%R]
                           ((i / 2 ^ 1) mod 2 ^ Z.of_nat (List.length [1])))
                  0)
             psi i.
Proof.
  apply (uniform_rotation_dagger_semantics (fun w : Z => w) RY [0%R; 1%R]
           [1] 0 1 []).
  - intros c Hc. cbn in Hc. replace c with 0 by lia. reflexivity.
  - lia.
  - reflexivity.
Defined.

End UniformRotation.

(** ** MottonenStatePreparation: outcome, wires and size *)

Module DriverFacts.
Import Alpha AlphaClaims Expander Driver Queue Sums.

Section WithWires.

Context {Wire : Type} {Wire_eq : WireEq Wire}.

Lemma getitem_in_range {A} (l : list A) (i : Z) :
  0 <= i < Z.of_nat (List.length l) -> exists x, getitem l i = Ok x.
Proof.
  intros Hi. destruct l as [|d l]; [cbn in Hi; lia|].
  eexists. now apply (getitem_Ok d).
Qed.

Lemma In_slice_from (l : list Wire) (k : Z) (w : Wire) :
  In w (slice_from l k) -> In w l.
Proof.
  unfold slice_from. intros H. rewrite <- (firstn_skipn (Z.to_nat k) l).
  apply in_or_app. now right.
Qed.

Lemma expander_on_wires (gate : rotation) (alpha : list R)
    (wires : list Wire) (k : Z) (target : Wire) :
  In target (rev wires) ->
  emits_only (fun op => forall w, In w (op_wires op) -> In w wires)
             (_uniform_rotation_dagger gate alpha (slice_from (rev wires) k)
                                       target).
Proof.
  intros Ht. eapply emits_only_weaken; [|apply expander_emits_only].
  assert (Htarget : In target wires) by now apply in_rev.
  intros op [(angle & _ & ->) | (c & Hc & ->)] w Hw; cbn [op_wires In] in Hw.
  - destruct Hw as [<- | []]. exact Htarget.
  - destruct Hw as [<- | [<- | []]]; [|exact Htarget].
    apply in_rev. eapply In_slice_from. exact Hc.
Qed.

Lemma driver_on_wires (state_vector : list C) (wires : list Wire) :
  emits_only (fun op => forall w, In w (op_wires op) -> In w wires)
             (MottonenStatePreparation state_vector wires).
Proof.
  unfold MottonenStatePreparation. cbv zeta.
  apply emits_only_bind_lift. intros wires' Hwires.
  apply Wires_Ok in Hwires. destruct Hwires as [-> _].
  apply emits_only_bind_lift. intros _ _.
  destruct (negb _); [apply emits_only_lift|].
  apply emits_only_bind.
  - apply emits_only_for_each. intros k _.
    apply emits_only_bind_lift. intros alpha _.
    apply emits_only_bind_lift. intros target Ht.
    apply expander_on_wires. eapply getitem_In. exact Ht.
  - intros _ _ _. apply emits_only_for_each. intros k _.
    apply emits_only_bind_lift. intros alpha _.
    apply emits_only_bind_lift. intros target Ht.
    destruct (_ >? 0); [|apply emits_only_ret].
    apply expander_on_wires. eapply getitem_In. exact Ht.
Qed.

(** X16: whatever the input and the outcome, [MottonenStatePreparation]
    leaves the operations queued before in place, and every operation it
    queues acts on wires of [wires] only. *)
Theorem state_preparation_wires (state_vector : list C) (wires : list Wire)
    (q : list (Operation Wire)) :
  exists ops,
    snd (MottonenStatePreparation state_vector wires q) = q ++ ops
    /\ forall op w, In op ops -> In w (op_wires op) -> In w wires.
Proof.
  destruct (driver_on_wires state_vector wires q) as (ops & E & H).
  exists ops. split; [exact E|].
  intros op w Hop. exact (proj1 (Forall_forall _ _) H op Hop w).
Qed.

(** X17: [MottonenStatePreparation] has three outcomes.  With a repeated
    wire it raises [WireError]; with wires that are all different it returns
    exactly when the length is [2^N] and [np.isclose] holds of the norm,
    having queued the Y-cascade and then the Z-cascade, and raises
    [ValueError] otherwise.  Whenever it raises it has queued nothing, and no
    [IndexError], [TypeError] or [OverflowError] of a helper ever reaches the
    caller. *)
Theorem state_preparation_outcome (state_vector : list C)
    (wires : list Wire) (q : list (Operation Wire)) :
  (~ NoDup wires ->
   MottonenStatePreparation state_vector wires q = (Raise WireError, q))
  /\ (accepted state_vector wires ->
      MottonenStatePreparation state_vector wires q
      = (Ok tt, q ++ state_preparation_ops state_vector wires))
  /\ (NoDup wires -> ~ accepted state_vector wires ->
      exists why,
        MottonenStatePreparation state_vector wires q
        = (Raise (ValueError why), q)).
Proof.
  split; [apply driver_repeated_wire|]. split; [apply driver_accepted|].
  intros Hwires Hno.
  destruct (Z.eq_dec (Z.of_nat (List.length state_vector))
                     (2 ^ Z.of_nat (List.length wires))) as [Hshape | Hshape].
  - exists bad_norm. unfold MottonenStatePreparation.
    unfold bind at 1. unfold lift at 1. rewrite Wires_NoDup by exact Hwires.
    unfold bind at 1. unfold lift at 1. unfold check_shape.
    rewrite (proj2 (Z.eqb_eq _ _) Hshape).
    fold (squared_norm state_vector).
    destruct (isclose (squared_norm state_vector) 1 default_rtol (1 / 1000))
      eqn:E; [|reflexivity].
    exfalso. apply Hno. now repeat split.
  - exists bad_shape. now apply driver_bad_shape.
Qed.

(** *** The number of operations *)

Lemma count_flat_map_le {A} (f : Operation Wire -> bool)
    (ops : A -> list (Operation Wire)) (l : list A) :
  (forall x, In x l -> (List.length (filter f (ops x)) <= 1)%nat) ->
  (List.length (filter f (flat_map ops l)) <= List.length l)%nat.
Proof.
  induction l as [|x l IH]; intros H; [cbn; lia|].
  cbn [flat_map List.length]. rewrite filter_app, length_app.
  pose proof (H x (or_introl eq_refl)).
  specialize (IH (fun y Hy => H y (or_intror Hy))). lia.
Qed.

Lemma rotation_if_nonzero_counts (gate : rotation) (angle : R) (w : Wire) :
  filter is_CNOT (rotation_if_nonzero gate angle w) = []
  /\ (List.length (filter (fun op => negb (is_CNOT op))
                          (rotation_if_nonzero gate angle w)) <= 1)%nat.
Proof.
  unfold rotation_if_nonzero. destruct (nonzero angle); cbn; split;
    (reflexivity || lia).
Qed.

(** The bit flips and the rotations of one call of the expander. *)
Lemma expander_ops_counts (gate : rotation) (alpha : list R)
    (control_wires : list Wire) (target : Wire) :
  let r := Z.of_nat (List.length control_wires) in
  let ops := expander_ops gate alpha control_wires target in
  Z.of_nat (List.length (filter is_CNOT ops)) = (if r =? 0 then 0 else 2 ^ r)
  /\ Z.of_nat (List.length (filter (fun op => negb (is_CNOT op)) ops))
     <= 2 ^ r.
Proof.
  intros r ops. subst ops. unfold expander_ops.
  destruct control_wires as [|c control_wires].
  - destruct (rotation_if_nonzero_counts gate (item (_compute_theta alpha) 0)
                                         target) as [E Hle].
    rewrite E. cbn. split; [reflexivity | lia].
  - set (cw := c :: control_wires) in *.
    assert (Hr : 1 <= r) by (unfold r, cw; cbn [List.length]; lia).
    assert (H2 : 0 < 2 ^ r) by (apply Z.pow_pos_nonneg; lia).
    destruct (Z.eqb_spec r 0) as [|_]; [lia|].
    unfold uniform_rotation_ops. fold r. split.
    + rewrite count_CNOT_flat_map.
      * rewrite range_length. lia.
      * intros i _. rewrite filter_app.
        destruct (rotation_if_nonzero_counts
                    gate (item (_compute_theta alpha) i) target) as [E _].
        now rewrite E.
    + match goal with
      | |- Z.of_nat (List.length (filter ?f (flat_map ?g ?l))) <= _ =>
          pose proof (count_flat_map_le f g l) as H
      end.
      rewrite range_length in H.
      specialize (H (fun i _ => ltac:(
        rewrite filter_app, length_app;
        destruct (rotation_if_nonzero_counts
                    gate (item (_compute_theta alpha) i) target) as [_ Hle];
        cbn [filter is_CNOT negb List.length]; lia))).
      lia.
Qed.

(** The bit flips and the rotations of the first [d] steps of a cascade. *)
Lemma cascade_ops_counts (gate : rotation) (alpha_of : Z -> result (list R))
    (wires : list Wire) :
  let N := Z.of_nat (List.length wires) in
  (forall k, 1 <= k <= N -> exists alpha, alpha_of k = Ok alpha) ->
  forall d : nat,
    Z.of_nat d <= N ->
    let ops :=
      flat_map (fun k => cascade_step_ops gate (alpha_of k) (rev wires) k)
               (rev (range (N - Z.of_nat d + 1) (N + 1))) in
    Z.of_nat (List.length (filter is_CNOT ops))
    = (if Z.of_nat d =? 0 then 0 else 2 ^ Z.of_nat d - 2)
    /\ Z.of_nat (List.length (filter (fun op => negb (is_CNOT op)) ops))
       <= 2 ^ Z.of_nat d - 1.
Proof.
  intros N Halpha. induction d as [|d IH]; intros Hd ops; subst ops.
  - rewrite range_empty by lia. cbn. split; [reflexivity | lia].
  - destruct (IH ltac:(lia)) as [IHc IHr]. clear IH.
    set (k := N - Z.of_nat d).
    replace (N - Z.of_nat (S d) + 1) with k by lia.
    replace (N - Z.of_nat d + 1) with (k + 1) in IHc, IHr by lia.
    rewrite (range_cons k) by lia. cbn [rev].
    rewrite flat_map_app, !filter_app, !length_app, !Nat2Z.inj_add.
    cbn [flat_map]. rewrite app_nil_r.
    destruct (Halpha k ltac:(lia)) as (alpha & Ealpha).
    destruct (getitem_in_range (rev wires) (k - 1)) as (target & Etarget);
      [rewrite length_rev; lia|].
    unfold cascade_step_ops at 2 4. rewrite Ealpha, Etarget.
    match goal with
    | |- context [expander_ops gate alpha ?cw ?t] =>
        destruct (expander_ops_counts gate alpha cw t) as [Ec Er]
    end.
    cbv zeta in Ec, Er.
    rewrite slice_from_length in Ec, Er by (rewrite length_rev; lia).
    rewrite length_rev in Ec, Er. fold N in Ec, Er.
    replace (N - k) with (Z.of_nat d) in Ec, Er by lia.
    rewrite Ec, IHc.
    assert (H2 : 0 < 2 ^ Z.of_nat d) by (apply Z.pow_pos_nonneg; lia).
    rewrite Nat2Z.inj_succ, Z.pow_succ_r by lia.
    destruct (Z.eqb_spec (Z.succ (Z.of_nat d)) 0) as [|_]; [lia|].
    destruct (Z.eqb_spec (Z.of_nat d) 0) as [E0|_].
    + rewrite E0 in *. change (2 ^ 0) with 1 in *. lia.
    + lia.
Qed.

(** X18: on accepted input on [N >= 1] distinct wires the driver queues exactly
    [2 * (2^N - 2)] bit flips, and at most [2 * (2^N - 1)] rotations (the
    rotations by an angle of exactly zero are left out). *)
Theorem state_preparation_size (state_vector : list C) (wires : list Wire)
    (q : list (Operation Wire)) :
  let N := Z.of_nat (List.length wires) in
  1 <= N ->
  accepted state_vector wires ->
  exists ops,
    MottonenStatePreparation state_vector wires q = (Ok tt, q ++ ops)
    /\ Z.of_nat (List.length (filter is_CNOT ops)) = 2 * (2 ^ N - 2)
    /\ Z.of_nat (List.length (filter (fun op => negb (is_CNOT op)) ops))
       <= 2 * (2 ^ N - 1).
Proof.
  intros N HN Hacc.
  exists (state_preparation_ops state_vector wires).
  split; [now apply driver_accepted|].
  destruct Hacc as (_ & Hshape & _). fold N in Hshape.
  unfold state_preparation_ops. fold N.
  set (a := map Cabs state_vector). set (omega := map Cangle state_vector).
  assert (Ha : Z.of_nat (List.length a) = 2 ^ N)
    by (unfold a; now rewrite length_map).
  assert (Homega : Z.of_nat (List.length omega) = 2 ^ N)
    by (unfold omega; now rewrite length_map).
  destruct (cascade_ops_counts RY (_get_alpha_y a N) wires
              (fun k Hk => ex_intro _ _ (get_alpha_y_closed_form a N k Hk Ha))
              (Z.to_nat N) ltac:(lia)) as [Yc Yr].
  destruct (cascade_ops_counts RZ (_get_alpha_z omega N) wires
              (fun k Hk =>
                 ex_intro _ _ (get_alpha_z_closed_form omega N k Hk Homega))
              (Z.to_nat N) ltac:(lia)) as [Zc Zr].
  cbv zeta in Yc, Yr, Zc, Zr. fold N in Yc, Yr, Zc, Zr.
  replace (N - Z.of_nat (Z.to_nat N) + 1) with 1 in Yc, Yr, Zc, Zr by lia.
  replace (Z.of_nat (Z.to_nat N)) with N in Yc, Yr, Zc, Zr by lia.
  destruct (Z.eqb_spec N 0) as [|_]; [lia|].
  unfold range_n_to_1.
  rewrite !filter_app, !length_app, !Nat2Z.inj_add. lia.
Qed.

End WithWires.

Lemma state_preparation_size_witness :
  exists ops,
    MottonenStatePreparation uniform4 [0%nat; 1%nat] [] = (Ok tt, [] ++ ops)
    /\ Z.of_nat (List.length (filter is_CNOT ops))
       = 2 * (2 ^ Z.of_nat (List.length [0%nat; 1%nat]) - 2)
    /\ Z.of_nat (List.length (filter (fun op => negb (is_CNOT op)) ops))
       <= 2 * (2 ^ Z.of_nat (List.length [0%nat; 1%nat]) - 1).
Proof.
  apply (state_preparation_size uniform4 [0%nat; 1%nat] []).
  - cbn. lia.
  - apply UniformState.uniform4_accepted. discriminate.
Defined.

End DriverFacts.

(** ** MottonenStatePreparation: the two cascades apart *)

Module CascadeFacts.
Import Alpha AlphaClaims Expander Driver Sums Orthogonality.
Import Cascades Polar Phases StatePreparation UniformState.
Import SignMatrix Queue DriverFacts.

Section WithWires.

Context {Wire : Type} {Wire_eq : WireEq Wire}.

(** The expander queues rotations of its own kind only. *)
Lemma expander_ops_kind (gate : rotation) (alpha : list R)
    (control_wires : list Wire) (target : Wire) (op : Operation Wire) :
  In op (expander_ops gate alpha control_wires target) ->
  (exists angle, op = Rot gate angle target) \/ is_CNOT op = true.
Proof.
  assert (Hrot : forall angle,
             In op (rotation_if_nonzero gate angle target) ->
             exists angle, op = Rot gate angle target).
  { intros angle. unfold rotation_if_nonzero.
    destruct (nonzero angle); [intros [<- | []]; now eexists | intros []]. }
  unfold expander_ops. destruct control_wires as [|c cw].
  - intros H. left. eapply Hrot, H.
  - unfold uniform_rotation_ops. intros H.
    apply in_flat_map in H. destruct H as (i & _ & H).
    apply in_app_or in H. destruct H as [H | [<- | []]].
    + left. eapply Hrot, H.
    + now right.
Qed.

(** With all angles zero the expander queues bit flips only. *)
Lemma expander_ops_zero (gate : rotation) (alpha : list R)
    (control_wires : list Wire) (target : Wire) (op : Operation Wire) :
  (forall i, 0 <= i < 2 ^ Z.of_nat (List.length control_wires) ->
             item (_compute_theta alpha) i = 0%R) ->
  In op (expander_ops gate alpha control_wires target) ->
  is_CNOT op = true.
Proof.
  intros Hzero. unfold expander_ops. destruct control_wires as [|c cw].
  - unfold rotation_if_nonzero.
    rewrite (Hzero 0) by (cbn; lia). rewrite nonzero_0. intros [].
  - set (r := Z.of_nat (List.length (c :: cw))) in *.
    unfold uniform_rotation_ops. fold r. intros H.
    apply in_flat_map in H. destruct H as (i & Hi & H).
    apply in_range in Hi. unfold rotation_if_nonzero in H.
    rewrite (Hzero i) in H by lia. rewrite nonzero_0 in H.
    destruct H as [<- | []]. reflexivity.
Qed.

Lemma cascade_step_kind (gate : rotation) (alpha : result (list R))
    (wires_reverse : list Wire) (k : Z) (op : Operation Wire) :
  In op (cascade_step_ops gate alpha wires_reverse k) ->
  (exists angle w, op = Rot gate angle w) \/ is_CNOT op = true.
Proof.
  unfold cascade_step_ops. destruct alpha as [alpha_k|]; [|intros []].
  destruct (getitem wires_reverse (k - 1)) as [target|]; [|intros []].
  intros H. apply expander_ops_kind in H.
  destruct H as [(angle & ->) | H]; [left; now eexists _, _ | now right].
Qed.

Lemma cascade_kind (gate other : rotation) (alpha_of : Z -> result (list R))
    (wires_reverse : list Wire) (ks : list Z) (op : Operation Wire) :
  gate <> other ->
  In op (flat_map (fun k => cascade_step_ops gate (alpha_of k)
                                             wires_reverse k) ks) ->
  is_rotation other op = false.
Proof.
  intros Hne H. apply in_flat_map in H. destruct H as (k & _ & H).
  apply cascade_step_kind in H.
  destruct H as [(angle & w & ->) | H].
  - destruct gate, other; try reflexivity; congruence.
  - destruct op; [discriminate | now destruct other].
Qed.

Local Open Scope R_scope.

(** The angles of the Z-rotations for a vector of equal phases. *)
Lemma alpha_z_of_constant (omega : list R) (c : R) (n k : Z) :
  (1 <= k <= n)%Z ->
  Z.of_nat (List.length omega) = (2 ^ n)%Z ->
  (forall x, In x omega -> x = c) ->
  exists alpha,
    _get_alpha_z omega n k = Ok alpha
    /\ Z.of_nat (List.length alpha) = (2 ^ (n - k))%Z
    /\ forall x, In x alpha -> x = 0.
Proof.
  intros Hk Hlen Hc. eexists. split; [|split].
  - now apply get_alpha_z_closed_form.
  - rewrite length_map_range; [lia|].
    pose proof (Z.pow_pos_nonneg 2 (n - k)). lia.
  - destruct (block_sizes n k Hk) as (HP & HQ & _ & HN).
    set (P := (2 ^ (k - 1))%Z) in *. set (Q := (2 ^ (n - k))%Z) in *.
    intros x Hx. apply in_map_iff in Hx. destruct Hx as (j & <- & Hj).
    apply in_range in Hj. apply sumR_all_zero.
    intros l Hl. apply in_range in Hl.
    assert (Hitem : forall i, (0 <= i < 2 ^ n)%Z -> item omega i = c).
    { intros i Hi. apply Hc. apply nth_In. lia. }
    rewrite !Hitem by nia. lra.
Qed.

Local Close Scope R_scope.

(** X19: when all entries of an accepted state vector (on wires that are all
    different) have the same phase [np.angle] (a vector of non-negative
    reals, for one), the driver queues
    no Z-rotation at all: all angles of the Z-cascade are exactly zero and
    their rotations are left out. *)
Theorem equal_phases_no_RZ (state_vector : list C) (wires : list Wire)
    (q : list (Operation Wire)) (c : R) :
  accepted state_vector wires ->
  (forall z, In z state_vector -> Cangle z = c) ->
  exists ops,
    MottonenStatePreparation state_vector wires q = (Ok tt, q ++ ops)
    /\ forall op, In op ops -> is_rotation RZ op = false.
Proof.
  intros Hacc Hphase.
  exists (state_preparation_ops state_vector wires).
  split; [now apply driver_accepted|].
  destruct Hacc as (_ & Hshape & _).
  set (N := Z.of_nat (List.length wires)) in *.
  unfold state_preparation_ops. fold N.
  intros op Hop. apply in_app_or in Hop. destruct Hop as [Hop | Hop].
  - eapply (cascade_kind RY RZ); [discriminate | exact Hop].
  - apply in_flat_map in Hop. destruct Hop as (k & Hk & Hop).
    apply in_range_n_to_1 in Hk.
    destruct (alpha_z_of_constant (map Cangle state_vector) c N k Hk)
      as (alpha & Ealpha & Hlen & Hzero).
    + now rewrite length_map.
    + intros x Hx. apply in_map_iff in Hx. destruct Hx as (z & <- & Hz).
      now apply Hphase.
    + unfold cascade_step_ops in Hop. rewrite Ealpha in Hop.
      destruct (getitem (rev wires) (k - 1)) as [target|]; [|destruct Hop].
      apply expander_ops_zero in Hop.
      * destruct op; [discriminate | reflexivity].
      * rewrite slice_from_length by (rewrite length_rev; fold N; lia).
        rewrite length_rev. fold N. intros i Hi.
        rewrite (compute_theta_of_constant alpha 0%R (N - k) i)
          by (assumption || lia).
        now destruct (i =? 0).
Qed.

End WithWires.

Lemma equal_phases_no_RZ_witness :
  exists ops,
    MottonenStatePreparation uniform4 [0%nat; 1%nat] [] = (Ok tt, [] ++ ops)
    /\ forall op, In op ops -> is_rotation RZ op = false.
Proof.
  apply (equal_phases_no_RZ uniform4 [0%nat; 1%nat] [] 0%R).
  - apply uniform4_accepted. discriminate.
  - intros z Hz. apply (in_map Cangle) in Hz.
    rewrite uniform4_angle in Hz. cbn in Hz. intuition congruence.
Defined.

(** *** The register after each cascade *)

Section WithRegister.

Context {Wire : Type} {Wire_eq : WireEq Wire}.
Variable bit_of : Wire -> Z.

Lemma mean_phase (state_vector : list C) (N : Z) :
  Z.of_nat (List.length state_vector) = 2 ^ N ->
  blockmean (map Cangle state_vector) N 0
  = (sumR (map Cangle state_vector) / IZR (2 ^ N))%R.
Proof.
  intros Hlen. unfold blockmean. f_equal.
  rewrite (map_ext _ (fun l => (fun x => x) (item (map Cangle state_vector) l)))
    by (intros l; now rewrite Z.mul_0_l, Z.add_0_l).
  rewrite (sum_items (fun x => x)) by now rewrite length_map.
  now rewrite map_id.
Qed.

(** X20: the global phase is known: for a normalized state vector, the
    operations the driver queues take the all-zero state to the state vector
    times [e^(-i m)], where [m] is the mean of the phases [np.angle] of its
    entries.  (The first declared wire is the most significant bit.) *)
Theorem state_preparation_global_phase (state_vector : list C)
    (wires : list Wire) (q : list (Operation Wire)) :
  let N := Z.of_nat (List.length wires) in
  (forall p w, nth_error (rev wires) p = Some w -> bit_of w = Z.of_nat p) ->
  Z.of_nat (List.length state_vector) = 2 ^ N ->
  squared_norm state_vector = 1%R ->
  exists ops,
    MottonenStatePreparation state_vector wires q = (Ok tt, q ++ ops)
    /\ forall i, 0 <= i < 2 ^ N ->
         run bit_of ops ket0 i
         = Cmul (Cexp_i (- (sumR (map Cangle state_vector) / IZR (2 ^ N))))
                (nth (Z.to_nat i) state_vector (0%R, 0%R)).
Proof.
  intros N Hbits Hshape Hnorm.
  exists (state_preparation_ops state_vector wires). split.
  - apply driver_accepted. now apply (normalized_accepted bit_of).
  - intros i Hi.
    rewrite (run_state_preparation_ops bit_of wires Hbits state_vector)
      by assumption.
    fold N. now rewrite mean_phase.
Qed.

(** X21: the two cascades do what their comments say: the operations of the
    Y-cascade, run on the all-zero state, leave the magnitudes
    [np.absolute(state_vector)] in the register, and contain no Z-rotation;
    the operations of the Z-cascade that follow contain no Y-rotation. *)
Theorem y_cascade_prepares_magnitudes (state_vector : list C)
    (wires : list Wire) (q : list (Operation Wire)) :
  let N := Z.of_nat (List.length wires) in
  (forall p w, nth_error (rev wires) p = Some w -> bit_of w = Z.of_nat p) ->
  Z.of_nat (List.length state_vector) = 2 ^ N ->
  squared_norm state_vector = 1%R ->
  exists ops_y ops_z,
    MottonenStatePreparation state_vector wires q
    = (Ok tt, q ++ ops_y ++ ops_z)
    /\ (forall op, In op ops_y -> is_rotation RZ op = false)
    /\ (forall op, In op ops_z -> is_rotation RY op = false)
    /\ forall i, 0 <= i < 2 ^ N ->
         run bit_of ops_y ket0 i
         = (Cabs (nth (Z.to_nat i) state_vector (0%R, 0%R)), 0%R).
Proof.
  intros N Hbits Hshape Hnorm.
  set (a := map Cabs state_vector). set (omega := map Cangle state_vector).
  exists (flat_map (fun k => cascade_step_ops RY (_get_alpha_y a N k)
                                              (rev wires) k)
                   (range_n_to_1 N)),
         (flat_map (fun k => cascade_step_ops RZ (_get_alpha_z omega N k)
                                              (rev wires) k)
                   (range_n_to_1 N)).
  assert (Ha : Z.of_nat (List.length a) = 2 ^ N)
    by (unfold a; now rewrite length_map).
  split; [|split; [|split]].
  - apply driver_accepted. now apply (normalized_accepted bit_of).
  - intros op. apply (cascade_kind RY RZ). discriminate.
  - intros op. apply (cascade_kind RZ RY). discriminate.
  - intros i Hi.
    rewrite <- (item_abs state_vector N (Nat2Z.is_nonneg _) Hshape i Hi).
    apply (amplitude_done state_vector N); [|exact Hi].
    apply (cascade_run bit_of wires Hbits RY (_get_alpha_y a N)
                       (amplitude_level a N)); fold N.
    + intros k Hk. eexists. split.
      * apply get_alpha_y_closed_form; assumption.
      * rewrite length_map_range; [lia|].
        pose proof (Z.pow_pos_nonneg 2 (N - k)). lia.
    + intros m alpha psi Hm Ealpha Hlev.
      now apply (amplitude_step a N Ha).
    + apply (ket0_level state_vector N); assumption.
Qed.

End WithRegister.

Lemma state_preparation_global_phase_witness :
  exists ops,
    MottonenStatePreparation uniform4 [0; 1] [] = (Ok tt, [] ++ ops)
    /\ forall i, 0 <= i < 2 ^ Z.of_nat (List.length [0; 1]) ->
         run (fun w => 1 - w) ops ket0 i
         = Cmul (Cexp_i (- (sumR (map Cangle uniform4)
                            / IZR (2 ^ Z.of_nat (List.length [0; 1])))))
                (nth (Z.to_nat i) uniform4 (0%R, 0%R)).
Proof.
  apply (state_preparation_global_phase (fun w : Z => 1 - w) uniform4
           [0; 1] []).
  - intros [|[|[|p]]] w H; cbn in H; try discriminate;
      now injection H as <-.
  - reflexivity.
  - exact uniform4_normalized.
Defined.

Lemma y_cascade_prepares_magnitudes_witness :
  exists ops_y ops_z,
    MottonenStatePreparation uniform4 [0; 1] [] = (Ok tt, [] ++ ops_y ++ ops_z)
    /\ (forall op, In op ops_y -> is_rotation RZ op = false)
    /\ (forall op, In op ops_z -> is_rotation RY op = false)
    /\ forall i, 0 <= i < 2 ^ Z.of_nat (List.length [0; 1]) ->
         run (fun w => 1 - w) ops_y ket0 i
         = (Cabs (nth (Z.to_nat i) uniform4 (0%R, 0%R)), 0%R).
Proof.
  apply (y_cascade_prepares_magnitudes (fun w : Z => 1 - w) uniform4
           [0; 1] []).
  - intros [|[|[|p]]] w H; cbn in H; try discriminate;
      now injection H as <-.
  - reflexivity.
  - exact uniform4_normalized.
Defined.

End CascadeFacts.
